(** * Value-semantic type erasure: the inline (SBO) and the heap-allocated [Shape]

    Embedding of the two [Shape] classes of
    [Solutions/2_Cpp_Software_Design/Type_Erasure/TypeErasure_SBO_1.cpp] and
    [Solutions/2_Cpp_Software_Design/Type_Erasure/TypeErasure_2.cpp].

    A [Shape] object lives at an address; the store maps the addresses of the
    live [Shape] objects to what their storage holds.  Member functions take
    [this] (and [other]) as addresses, so that [a = a] is expressible.
    User code (copy constructors and call operators of the shape and strategy
    types) runs over a user environment and may throw.  An operation of the
    box returns normally, raises, or has undefined behaviour. *)

From stdpp Require Import gmap strings list fin_maps.
From Stdlib Require Import NArith Lia.

Set Default Proof Using "Type".

(** ** Results of user code and of box operations *)

Inductive exn :=
  | bad_alloc
  | runtime_error (what : string).

Inductive Res (A : Type) :=
  | Ok (a : A)
  | Throw (e : exn).
Arguments Ok {A} a.
Arguments Throw {A} e.

(** User code: state passing over the user environment [Env] (the console,
    globals, whatever the payload types reach).  Effects done before a throw
    stay done. *)
Definition User (Env A : Type) : Type := Env -> Res A * Env.

Definition uret {Env A} (a : A) : User Env A := fun e => (Ok a, e).

Definition ubind {Env A B} (m : User Env A) (k : A -> User Env B) : User Env B :=
  fun e => match m e with
           | (Ok a, e') => k a e'
           | (Throw x, e') => (Throw x, e')
           end.

(** Outcome of an operation on a store [W]. [Undefined] has no after-state. *)
Inductive Outcome (W A : Type) :=
  | Return (a : A) (w : W)
  | Raise (e : exn) (w : W)
  | Undefined.
Arguments Return {W A} a w.
Arguments Raise {W A} e w.
Arguments Undefined {W A}.

Definition Op (W A : Type) : Type := W -> Outcome W A.

Definition oret {W A} (a : A) : Op W A := fun w => Return a w.

Definition obind {W A B} (m : Op W A) (k : A -> Op W B) : Op W B :=
  fun w => match m w with
           | Return a w' => k a w'
           | Raise x w' => Raise x w'
           | Undefined => Undefined
           end.

Definition othrow {W A} (x : exn) : Op W A := fun w => Raise x w.

Declare Scope user_scope.
Delimit Scope user_scope with user.
Declare Scope op_scope.
Delimit Scope op_scope with op.

Notation "'let*' x ':=' m 'in' k" := (ubind m (fun x => k))
  (at level 10, x name, m at level 100, k at level 200) : user_scope.
Notation "'let*' x ':=' m 'in' k" := (obind m (fun x => k))
  (at level 10, x name, m at level 100, k at level 200) : op_scope.
Notation "m ';;' k" := (obind m (fun _ => k))
  (at level 100, k at level 200, right associativity) : op_scope.

(** Result of instantiating a template: the instance exists, or a
    [static_assert] rejected it and there is nothing to run. *)
Inductive Compiled (A : Type) :=
  | WellFormed (a : A)
  | IllFormed (diagnostic : string).
Arguments WellFormed {A} a.
Arguments IllFormed {A} diagnostic.

Definition static_assert {A} (cond : bool) (diagnostic : string)
    (rest : Compiled A) : Compiled A :=
  if cond then rest else IllFormed diagnostic.

(** ** Requirements on the payload types *)

(** [T] is copy-constructible: [T u = v] either throws or makes [u] a value
    equivalent to [v]. *)
Class CopyConstructible (Env T : Type) := {
  copy_ctor : T -> User Env T;
  copy_ctor_value : forall t e t' e', copy_ctor t e = (Ok t', e') -> t' = t
}.

(** [F] has [R operator()( A const& ) const]. *)
Class Invocable (Env F A R : Type) := {
  invoke : F -> A -> User Env R
}.

(** [sizeof] and [alignof] of [Model<ShapeT,DrawStrategy,SerializationStrategy>],
    as the compiler reports them for the instantiation. *)
Class ModelLayout (ShapeT DrawStrategy SerializationStrategy : Type) := {
  sizeof_Model : N;
  alignof_Model : N
}.

(** ** [Model] and [Concept] *)

Record Model (ShapeT DrawStrategy SerializationStrategy : Type) := mkModel {
  shape_ : ShapeT;
  drawer_ : DrawStrategy;
  serializer_ : SerializationStrategy
}.
Arguments mkModel {ShapeT DrawStrategy SerializationStrategy}.
Arguments shape_ {ShapeT DrawStrategy SerializationStrategy}.
Arguments drawer_ {ShapeT DrawStrategy SerializationStrategy}.
Arguments serializer_ {ShapeT DrawStrategy SerializationStrategy}.

(** A [Concept] is some [Model<...>] seen through its base class: the type
    arguments and what the template needs of them travel with the value.
    The destructors of the members are taken to do nothing a caller can see;
    the destruction of the [Model] itself is an event of the log. *)
Inductive Concept (Env : Type) :=
  | upcast {ShapeT DrawStrategy SerializationStrategy : Type}
      {copy_shape : CopyConstructible Env ShapeT}
      {copy_drawer : CopyConstructible Env DrawStrategy}
      {copy_serializer : CopyConstructible Env SerializationStrategy}
      {drawable : Invocable Env DrawStrategy ShapeT unit}
      {serializable : Invocable Env SerializationStrategy ShapeT string}
      (m : Model ShapeT DrawStrategy SerializationStrategy).
Arguments upcast {Env ShapeT DrawStrategy SerializationStrategy
                  copy_shape copy_drawer copy_serializer drawable serializable} m.

Section ModelMembers.
Context {Env ShapeT DrawStrategy SerializationStrategy : Type}.
Context {copy_shape : CopyConstructible Env ShapeT}.
Context {copy_drawer : CopyConstructible Env DrawStrategy}.
Context {copy_serializer : CopyConstructible Env SerializationStrategy}.
Context {drawable : Invocable Env DrawStrategy ShapeT unit}.
Context {serializable : Invocable Env SerializationStrategy ShapeT string}.

Local Open Scope user_scope.

(** [Model( ShapeT const&, DrawStrategy const&, SerializationStrategy const& )]:
    the members are copy-initialised in declaration order. *)
Definition Model_ctor (shape : ShapeT) (drawer : DrawStrategy)
    (serializer : SerializationStrategy)
    : User Env (Model ShapeT DrawStrategy SerializationStrategy) :=
  let* s := copy_ctor shape in
  let* d := copy_ctor drawer in
  let* z := copy_ctor serializer in
  uret (mkModel s d z).

(** The implicit [Model( Model const& )]: member-wise copy. *)
Definition Model_copy_ctor (m : Model ShapeT DrawStrategy SerializationStrategy)
    : User Env (Model ShapeT DrawStrategy SerializationStrategy) :=
  Model_ctor (shape_ m) (drawer_ m) (serializer_ m).

(** [void do_draw() const final { drawer_(shape_); }] *)
Definition Model_do_draw (m : Model ShapeT DrawStrategy SerializationStrategy)
    : User Env unit :=
  invoke (drawer_ m) (shape_ m).

(** [std::string do_serialize() const final { return serializer_(shape_); }] *)
Definition Model_do_serialize (m : Model ShapeT DrawStrategy SerializationStrategy)
    : User Env string :=
  invoke (serializer_ m) (shape_ m).
End ModelMembers.

(** Virtual dispatch: the call lands in the member of the dynamic type. *)
Definition do_draw {Env} (c : Concept Env) : User Env unit :=
  match c with upcast m => Model_do_draw m end.

Definition do_serialize {Env} (c : Concept Env) : User Env string :=
  match c with upcast m => Model_do_serialize m end.

(** What both [clone] overrides construct: [Model( *this )], seen as a [Concept]. *)
Definition copy_of {Env} (c : Concept Env) : User Env (Concept Env) :=
  match c with
  | upcast m => ubind (Model_copy_ctor m) (fun m' => uret (upcast m'))
  end.

(** ** Events of the object model *)

Abbreviation addr := nat (only parsing).

Inductive event :=
  | ModelConstructed (at_ : addr)
  | ModelDestroyed (at_ : addr)
  | OperatorNew (p : addr)
  | OperatorDelete (p : addr).

Definition is_construction (ev : event) : bool :=
  match ev with ModelConstructed _ => true | _ => false end.
Definition is_destruction (ev : event) : bool :=
  match ev with ModelDestroyed _ => true | _ => false end.
Definition is_heap_traffic (ev : event) : bool :=
  match ev with OperatorNew _ | OperatorDelete _ => true | _ => false end.

Definition count (f : event -> bool) (l : list event) : nat :=
  length (List.filter f l).

(** ** Programs over boxes

    The statements a caller can write against either [Shape.h].  A
    declaration gets fresh storage; each statement sits in its own
    [try]/[catch], so a run goes on after an exception and records it. *)

Record Payload (Env : Type) := mkPayload {
  ShapeT : Type;
  DrawStrategy : Type;
  SerializationStrategy : Type;
  payload_copy_shape : CopyConstructible Env ShapeT;
  payload_copy_drawer : CopyConstructible Env DrawStrategy;
  payload_copy_serializer : CopyConstructible Env SerializationStrategy;
  payload_drawable : Invocable Env DrawStrategy ShapeT unit;
  payload_serializable : Invocable Env SerializationStrategy ShapeT string;
  payload_layout : ModelLayout ShapeT DrawStrategy SerializationStrategy;
  shape : ShapeT;
  drawer : DrawStrategy;
  serializer : SerializationStrategy
}.
Arguments mkPayload {Env ShapeT DrawStrategy SerializationStrategy
  payload_copy_shape payload_copy_drawer payload_copy_serializer
  payload_drawable payload_serializable payload_layout} shape drawer serializer.
Arguments ShapeT {Env} p.
Arguments DrawStrategy {Env} p.
Arguments SerializationStrategy {Env} p.
Arguments payload_copy_shape {Env} p.
Arguments payload_copy_drawer {Env} p.
Arguments payload_copy_serializer {Env} p.
Arguments payload_drawable {Env} p.
Arguments payload_serializable {Env} p.
Arguments payload_layout {Env} p.
Arguments shape {Env} p.
Arguments drawer {Env} p.
Arguments serializer {Env} p.

#[export] Existing Instance payload_copy_shape.
#[export] Existing Instance payload_copy_drawer.
#[export] Existing Instance payload_copy_serializer.
#[export] Existing Instance payload_drawable.
#[export] Existing Instance payload_serializable.
#[export] Existing Instance payload_layout.

(** The [Model] constructor call a declaration [Shape x( shape, drawer, serializer )]
    makes, with the result seen as a [Concept]. *)
Definition erased_ctor {Env} (p : Payload Env) : User Env (Concept Env) :=
  ubind (Model_ctor (shape p) (drawer p) (serializer p)) (fun m => uret (upcast m)).

(** The model a payload makes when no copy throws. *)
Definition model_from {Env} (p : Payload Env) : Concept Env :=
  upcast (mkModel (shape p) (drawer p) (serializer p)).

Inductive stmt (Env : Type) :=
  | Construct (p : Payload Env)      (* Shape x( shape, drawer, serializer ); *)
  | CopyConstruct (other : addr)     (* Shape x( other );                     *)
  | MoveConstruct (other : addr)     (* Shape x( std::move(other) );          *)
  | Assign (this other : addr)       (* this = other;                         *)
  | MoveAssign (this other : addr)   (* this = std::move(other);              *)
  | Destroy (this : addr)            (* this leaves its scope                 *)
  | Serialize (this : addr)          (* this.serialize()                      *)
  | Draw (this : addr).              (* free_draw( this )                     *)
Arguments Construct {Env} p.
Arguments CopyConstruct {Env} other.
Arguments MoveConstruct {Env} other.
Arguments Assign {Env} this other.
Arguments MoveAssign {Env} this other.
Arguments Destroy {Env} this.
Arguments Serialize {Env} this.
Arguments Draw {Env} this.

(** What the caller sees of one statement. *)
Inductive obs :=
  | Declared (x : addr)
  | Done
  | Text (s : string)
  | Caught (e : exn).

(** Observation of a statement run inside [try]/[catch]; [None] is undefined
    behaviour. *)
Definition observe {W A} (f : A -> obs) (r : Outcome W A) : option (obs * W) :=
  match r with
  | Return a w => Some (f a, w)
  | Raise e w => Some (Caught e, w)
  | Undefined => None
  end.

(** A program is instantiated as a whole before it runs; running it stops at
    the first undefined behaviour. *)
Fixpoint translate {Env W} (exec : stmt Env -> Compiled (W -> option (obs * W)))
    (prog : list (stmt Env)) : Compiled (W -> option (list obs * W)) :=
  match prog with
  | [] => WellFormed (fun w => Some ([], w))
  | st :: rest =>
      match exec st, translate exec rest with
      | WellFormed f, WellFormed g =>
          WellFormed (fun w =>
            match f w with
            | None => None
            | Some (o, w1) =>
                match g w1 with
                | None => None
                | Some (os, w2) => Some (o :: os, w2)
                end
            end)
      | IllFormed d, _ => IllFormed d
      | _, IllFormed d => IllFormed d
      end
  end.

(** ** The inline variant: [TypeErasure_SBO_1.cpp] *)

Module SBO.
Section Shape.
Context {Env : Type}.

Definition buffersize : N := 128.
Definition alignment : N := 16.

(** [alignas(alignment) std::array<std::byte,buffersize> buffer] is seen as
    what lives in it: [Some] [Model] within its lifetime, or [None], no
    object.  The [Concept] base is taken to sit at offset 0 of the [Model],
    which is what the constructor's [assert] checks. *)
Record World := mkWorld {
  env : Env;
  objects : gmap addr (option (Concept Env));   (* [buffer] of each live [Shape] *)
  log : list event
}.

Definition with_env (e : Env) (w : World) : World :=
  mkWorld e (objects w) (log w).
Definition with_objects (o : gmap addr (option (Concept Env))) (w : World)
    : World :=
  mkWorld (env w) o (log w).
Definition emit (ev : event) (w : World) : World :=
  mkWorld (env w) (objects w) (log w ++ [ev]).

Definition empty_world (e : Env) : World := mkWorld e ∅ [].

Local Open Scope op_scope.

(** Running user code from inside the box: nothing is caught. *)
Definition call {A} (u : User Env A) : Op World A :=
  fun w => match u (env w) with
           | (Ok a, e') => Return a (with_env e' w)
           | (Throw x, e') => Raise x (with_env e' w)
           end.

(** [pimpl()]: the buffer's first byte, as a [Concept*]. *)
Definition pimpl (this : addr) : addr := this.

(** Using an lvalue of type [Concept] through a pointer needs an object
    within its lifetime there. *)
Definition deref (p : addr) : Op World (Concept Env) :=
  fun w => match objects w !! p with
           | Some (Some c) => Return c w
           | _ => Undefined
           end.

(** [::new (memory) M( args )]: the object exists once its constructor has
    returned; a throwing constructor leaves the storage as it was. *)
Definition placement_new (memory : addr) (ctor : User Env (Concept Env))
    : Op World unit :=
  let* c := call ctor in
  fun w => Return tt (emit (ModelConstructed memory)
                        (with_objects (<[memory := Some c]> (objects w)) w)).

(** [p->~Concept()] *)
Definition destroy_at (p : addr) : Op World unit :=
  fun w => match objects w !! p with
           | Some (Some _) =>
               Return tt (emit (ModelDestroyed p)
                            (with_objects (<[p := None]> (objects w)) w))
           | _ => Undefined
           end.

(** The [Shape]'s own lifetime ends when its destructor returns. *)
Definition end_lifetime (this : addr) : Op World unit :=
  fun w => Return tt (with_objects (delete this (objects w)) w).

(** [void clone( Concept* memory ) const final { ::new (memory) Model( *this ); }] *)
Definition clone (c : Concept Env) (memory : addr) : Op World unit :=
  placement_new memory (copy_of c).

(** [template<...> Shape( ShapeT const&, DrawStrategy const&, SerializationStrategy const& )]:
    instantiating the template runs the two [static_assert]s; what is left
    is the constructor proper.  Its closing [assert] compares two addresses
    of the one object just constructed, which the store does not tell apart. *)
Definition Shape_ctor {ShapeT DrawStrategy SerializationStrategy : Type}
    `{!CopyConstructible Env ShapeT, !CopyConstructible Env DrawStrategy,
      !CopyConstructible Env SerializationStrategy,
      !Invocable Env DrawStrategy ShapeT unit,
      !Invocable Env SerializationStrategy ShapeT string,
      !ModelLayout ShapeT DrawStrategy SerializationStrategy}
    : Compiled (addr -> ShapeT -> DrawStrategy -> SerializationStrategy ->
                Op World unit) :=
  static_assert (sizeof_Model <=? buffersize)%N "Given type is too large"
 (static_assert (alignof_Model <=? alignment)%N "Given type is overaligned"
 (WellFormed (fun this shape drawer serializer =>
    placement_new (pimpl this)
      (ubind (Model_ctor shape drawer serializer) (fun m => uret (upcast m)))))).

(** [~Shape() { pimpl()->~Concept(); }] *)
Definition Shape_dtor (this : addr) : Op World unit :=
  destroy_at (pimpl this) ;;
  end_lifetime this.

(** [Shape( Shape const& other ) { other.pimpl()->clone( pimpl() ); }] *)
Definition Shape_copy_ctor (this other : addr) : Op World unit :=
  let* c := deref (pimpl other) in
  clone c (pimpl this).

(** [Shape& operator=( Shape const& other )] *)
Definition Shape_assign (this other : addr) : Op World unit :=
  destroy_at (pimpl this) ;;
  let* c := deref (pimpl other) in
  clone c (pimpl this).

(** [std::string serialize() const { return pimpl()->do_serialize(); }] *)
Definition serialize (this : addr) : Op World string :=
  let* c := deref (pimpl this) in
  call (do_serialize c).

(** [friend void free_draw( Shape const& shape ) { shape.pimpl()->do_draw(); }] *)
Definition free_draw (shape : addr) : Op World unit :=
  let* c := deref (pimpl shape) in
  call (do_draw c).

(** One statement against this [Shape.h].  No move operation is declared,
    so an rvalue [Shape] binds to [Shape const&]: moves are copies. *)
Definition exec (st : stmt Env) : Compiled (World -> option (obs * World)) :=
  match st with
  | Construct p =>
      match @Shape_ctor (ShapeT p) (DrawStrategy p) (SerializationStrategy p)
              (payload_copy_shape p) (payload_copy_drawer p)
              (payload_copy_serializer p) (payload_drawable p)
              (payload_serializable p) (payload_layout p) with
      | WellFormed ctor =>
          WellFormed (fun w =>
            let this := fresh (dom (objects w)) in
            observe (fun _ => Declared this)
              (ctor this (shape p) (drawer p) (serializer p) w))
      | IllFormed d => IllFormed d
      end
  | CopyConstruct other | MoveConstruct other =>
      WellFormed (fun w =>
        let this := fresh (dom (objects w)) in
        observe (fun _ => Declared this) (Shape_copy_ctor this other w))
  | Assign this other | MoveAssign this other =>
      WellFormed (fun w => observe (fun _ => Done) (Shape_assign this other w))
  | Destroy this =>
      WellFormed (fun w => observe (fun _ => Done) (Shape_dtor this w))
  | Serialize this =>
      WellFormed (fun w => observe Text (serialize this w))
  | Draw this =>
      WellFormed (fun w => observe (fun _ => Done) (free_draw this w))
  end.

Definition compile : list (stmt Env) ->
    Compiled (World -> option (list obs * World)) :=
  translate exec.
End Shape.
Arguments World Env : clear implicits.
End SBO.

(** ** The heap variant: [TypeErasure_2.cpp] *)

Module Heap.
Section Shape.
Context {Env : Type}.

Record World := mkWorld {
  env : Env;
  objects : gmap addr (option addr);   (* [pimpl_] of each live [Shape]; [None] is [nullptr] *)
  heap : gmap addr (Concept Env);      (* the [Model]s on the free store *)
  free_store : nat;                    (* blocks [operator new] can still hand out *)
  log : list event
}.

Definition with_env (e : Env) (w : World) : World :=
  mkWorld e (objects w) (heap w) (free_store w) (log w).
Definition with_objects (o : gmap addr (option addr)) (w : World) : World :=
  mkWorld (env w) o (heap w) (free_store w) (log w).
Definition with_heap (h : gmap addr (Concept Env)) (w : World) : World :=
  mkWorld (env w) (objects w) h (free_store w) (log w).
Definition with_free_store (n : nat) (w : World) : World :=
  mkWorld (env w) (objects w) (heap w) n (log w).
Definition emit (ev : event) (w : World) : World :=
  mkWorld (env w) (objects w) (heap w) (free_store w) (log w ++ [ev]).

Definition empty_world (e : Env) (blocks : nat) : World :=
  mkWorld e ∅ ∅ blocks [].

Local Open Scope op_scope.

Definition call {A} (u : User Env A) : Op World A :=
  fun w => match u (env w) with
           | (Ok a, e') => Return a (with_env e' w)
           | (Throw x, e') => Raise x (with_env e' w)
           end.

(** [operator new]: a block no live [Model] occupies, or [std::bad_alloc]. *)
Definition operator_new : Op World addr :=
  fun w => match free_store w with
           | O => Raise bad_alloc w
           | S n => let p := fresh (dom (heap w)) in
                    Return p (emit (OperatorNew p) (with_free_store n w))
           end.

Definition operator_delete (p : addr) : Op World unit :=
  fun w => Return tt (emit (OperatorDelete p) (with_free_store (S (free_store w)) w)).

(** [std::make_unique<M>( args )], that is [new M( args )]: allocate, then
    construct; a throwing constructor gives the block back. *)
Definition make_unique (ctor : User Env (Concept Env)) : Op World addr :=
  let* p := operator_new in
  fun w => match ctor (env w) with
           | (Ok c, e') =>
               Return p (emit (ModelConstructed p)
                           (with_heap (<[p := c]> (heap w)) (with_env e' w)))
           | (Throw x, e') => (operator_delete p ;; othrow x) (with_env e' w)
           end.

(** [delete p] for a non-null [p]: destructor, then [operator delete]. *)
Definition delete_ (p : addr) : Op World unit :=
  fun w => match heap w !! p with
           | Some _ =>
               operator_delete p
                 (emit (ModelDestroyed p) (with_heap (delete p (heap w)) w))
           | None => Undefined
           end.

(** [~unique_ptr()] and the tail of [reset]: [if( p ) delete p;] *)
Definition dispose (q : option addr) : Op World unit :=
  match q with
  | Some p => delete_ p
  | None => oret tt
  end.

(** Reading or writing the member [pimpl_] of the [Shape] at [this] needs
    that [Shape] within its lifetime. *)
Definition get_pimpl_ (this : addr) : Op World (option addr) :=
  fun w => match objects w !! this with
           | Some q => Return q w
           | None => Undefined
           end.

Definition set_pimpl_ (this : addr) (q : option addr) : Op World unit :=
  fun w => match objects w !! this with
           | Some _ => Return tt (with_objects (<[this := q]> (objects w)) w)
           | None => Undefined
           end.

(** The member initialiser [pimpl_{ q }] starts the [Shape]'s lifetime. *)
Definition init_pimpl_ (this : addr) (q : option addr) : Op World unit :=
  fun w => Return tt (with_objects (<[this := q]> (objects w)) w).

Definition end_lifetime (this : addr) : Op World unit :=
  fun w => Return tt (with_objects (delete this (objects w)) w).

(** [pimpl_->...]: [unique_ptr::operator->] on [nullptr] is undefined. *)
Definition arrow (q : option addr) : Op World (Concept Env) :=
  fun w => match q with
           | Some p => match heap w !! p with
                       | Some c => Return c w
                       | None => Undefined
                       end
           | None => Undefined
           end.

(** [std::unique_ptr<Concept> clone() const final { return std::make_unique<Model>( *this ); }] *)
Definition clone (c : Concept Env) : Op World addr :=
  make_unique (copy_of c).

(** [template<...> Shape( ... ) : pimpl_{ std::make_unique<Model<...>>( shape, drawer, serializer ) }] *)
Definition Shape_ctor {ShapeT DrawStrategy SerializationStrategy : Type}
    `{!CopyConstructible Env ShapeT, !CopyConstructible Env DrawStrategy,
      !CopyConstructible Env SerializationStrategy,
      !Invocable Env DrawStrategy ShapeT unit,
      !Invocable Env SerializationStrategy ShapeT string}
    : Compiled (addr -> ShapeT -> DrawStrategy -> SerializationStrategy ->
                Op World unit) :=
  WellFormed (fun this shape drawer serializer =>
    let* p := make_unique
                (ubind (Model_ctor shape drawer serializer)
                       (fun m => uret (upcast m))) in
    init_pimpl_ this (Some p)).

(** [Shape( Shape const& other ) : pimpl_{ other.pimpl_->clone() }] *)
Definition Shape_copy_ctor (this other : addr) : Op World unit :=
  let* q := get_pimpl_ other in
  let* c := arrow q in
  let* p := clone c in
  init_pimpl_ this (Some p).

(** [~Shape() = default;] *)
Definition Shape_dtor (this : addr) : Op World unit :=
  let* q := get_pimpl_ this in
  dispose q ;;
  end_lifetime this.

(** [std::swap( pimpl_, tmp.pimpl_ )] *)
Definition swap (a b : addr) : Op World unit :=
  let* qa := get_pimpl_ a in
  let* qb := get_pimpl_ b in
  set_pimpl_ a qb ;;
  set_pimpl_ b qa.

(** [Shape& operator=( const Shape& other )]: copy-and-swap.  The call is
    made on a [Shape] within its lifetime; [tmp] is a local with storage of
    its own, destroyed at the end of the body. *)
Definition Shape_assign (this other : addr) : Op World unit :=
  let* _ := get_pimpl_ this in
  let* tmp := (fun w => Return (fresh (dom (objects w))) w) in
  Shape_copy_ctor tmp other ;;
  swap this tmp ;;
  Shape_dtor tmp.

(** [Shape( Shape&& ) = default;]: [pimpl_{ std::move(other.pimpl_) }] *)
Definition Shape_move_ctor (this other : addr) : Op World unit :=
  let* q := get_pimpl_ other in
  set_pimpl_ other None ;;
  init_pimpl_ this q.

(** [Shape& operator=( Shape&& ) = default;]:
    [pimpl_.reset( other.pimpl_.release() )] *)
Definition Shape_move_assign (this other : addr) : Op World unit :=
  let* _ := get_pimpl_ this in
  let* q := get_pimpl_ other in
  set_pimpl_ other None ;;
  let* old := get_pimpl_ this in
  set_pimpl_ this q ;;
  dispose old.

(** [std::string serialize() const { return pimpl_->do_serialize(); }] *)
Definition serialize (this : addr) : Op World string :=
  let* q := get_pimpl_ this in
  let* c := arrow q in
  call (do_serialize c).

(** [friend void free_draw( Shape const& shape ) { shape.pimpl_->do_draw(); }] *)
Definition free_draw (shape : addr) : Op World unit :=
  let* q := get_pimpl_ shape in
  let* c := arrow q in
  call (do_draw c).

Definition exec (st : stmt Env) : Compiled (World -> option (obs * World)) :=
  match st with
  | Construct p =>
      match @Shape_ctor (ShapeT p) (DrawStrategy p) (SerializationStrategy p)
              (payload_copy_shape p) (payload_copy_drawer p)
              (payload_copy_serializer p) (payload_drawable p)
              (payload_serializable p) with
      | WellFormed ctor =>
          WellFormed (fun w =>
            let this := fresh (dom (objects w)) in
            observe (fun _ => Declared this)
              (ctor this (shape p) (drawer p) (serializer p) w))
      | IllFormed d => IllFormed d
      end
  | CopyConstruct other =>
      WellFormed (fun w =>
        let this := fresh (dom (objects w)) in
        observe (fun _ => Declared this) (Shape_copy_ctor this other w))
  | MoveConstruct other =>
      WellFormed (fun w =>
        let this := fresh (dom (objects w)) in
        observe (fun _ => Declared this) (Shape_move_ctor this other w))
  | Assign this other =>
      WellFormed (fun w => observe (fun _ => Done) (Shape_assign this other w))
  | MoveAssign this other =>
      WellFormed (fun w => observe (fun _ => Done) (Shape_move_assign this other w))
  | Destroy this =>
      WellFormed (fun w => observe (fun _ => Done) (Shape_dtor this w))
  | Serialize this =>
      WellFormed (fun w => observe Text (serialize this w))
  | Draw this =>
      WellFormed (fun w => observe (fun _ => Done) (free_draw this w))
  end.

Definition compile : list (stmt Env) ->
    Compiled (World -> option (list obs * World)) :=
  translate exec.

(** The [Model] a box holds, if any. *)
Definition model_of (w : World) (a : addr) : option (Concept Env) :=
  match objects w !! a with
  | Some (Some p) => heap w !! p
  | _ => None
  end.
End Shape.
Arguments World Env : clear implicits.
End Heap.

(** ** The shapes and strategies of the example programs *)

Module Demo.
(** The process an example runs in: what went to [std::cout], and how many
    copies of an instrumented strategy still succeed. *)
Record Process := mkProcess {
  cout : string;
  copies_left : nat
}.

Definition print (s : string) : User Process unit :=
  fun e => (Ok tt, mkProcess (cout e +:+ s) (copies_left e)).

Definition endl : string := String (Ascii.ascii_of_nat 10) EmptyString.

(** No arithmetic is ever done on the coordinates: a [double] is carried as
    the text [operator<<] prints for it. *)
Definition double : Type := string.

Record Point := mkPoint { x : double; y : double }.

Record Circle := mkCircle { radius_ : double; center_ : Point }.
Definition Circle_ctor (radius : double) : Circle :=
  mkCircle radius (mkPoint "0" "0").

Record Square := mkSquare { side_ : double; square_center_ : Point }.
Definition Square_ctor (side : double) : Square :=
  mkSquare side (mkPoint "0" "0").

Inductive Color := red | green | blue.

Definition to_string (color : Color) : string :=
  match color with
  | red => "red (0xFF0000)"
  | green => "green (0x00FF00)"
  | blue => "blue (0x0000FF)"
  end.

Definition free_draw_Circle (circle : Circle) : User Process unit :=
  print ("circle: radius=" +:+ radius_ circle +:+ endl).

Definition free_draw_Square (square : Square) : User Process unit :=
  print ("square: side=" +:+ side_ square +:+ endl).

Inductive FreeDraw := mkFreeDraw.

Record GLDrawer := mkGLDrawer { color_ : Color }.

(** The serialization strategy of the test scenario: ["circle:2.3"]. *)
Inductive TagSerializer := mkTagSerializer.

(** An instrumented draw strategy: each copy takes one from the budget of
    the process, and throws once the budget is spent. *)
Inductive CountedDrawer := mkCountedDrawer.

(** A shape too large for the inline buffer, and an over-aligned one. *)
Inductive Blob := mkBlob.
Inductive Wide := mkWide.

(** Implicit copy constructors of the plain types. *)
Program Definition trivially_copyable (T : Type) : CopyConstructible Process T :=
  {| copy_ctor := fun t => uret t |}.
Next Obligation. intros T t e t' e'. unfold uret. congruence. Qed.

#[global] Instance copy_Circle : CopyConstructible Process Circle :=
  trivially_copyable Circle.
#[global] Instance copy_Square : CopyConstructible Process Square :=
  trivially_copyable Square.
#[global] Instance copy_Blob : CopyConstructible Process Blob :=
  trivially_copyable Blob.
#[global] Instance copy_Wide : CopyConstructible Process Wide :=
  trivially_copyable Wide.
#[global] Instance copy_FreeDraw : CopyConstructible Process FreeDraw :=
  trivially_copyable FreeDraw.
#[global] Instance copy_GLDrawer : CopyConstructible Process GLDrawer :=
  trivially_copyable GLDrawer.
#[global] Instance copy_TagSerializer : CopyConstructible Process TagSerializer :=
  trivially_copyable TagSerializer.

Definition CountedDrawer_copy (d : CountedDrawer) : User Process CountedDrawer :=
  fun e => match copies_left e with
           | O => (Throw (runtime_error "copy budget spent"), e)
           | S n => (Ok d, mkProcess (cout e) n)
           end.

#[global] Program Instance copy_CountedDrawer
    : CopyConstructible Process CountedDrawer :=
  {| copy_ctor := CountedDrawer_copy |}.
Next Obligation.
  intros t e t' e'. unfold CountedDrawer_copy.
  destruct (copies_left e); congruence.
Qed.

#[global] Instance FreeDraw_Circle : Invocable Process FreeDraw Circle unit :=
  {| invoke := fun _ circle => free_draw_Circle circle |}.
#[global] Instance FreeDraw_Square : Invocable Process FreeDraw Square unit :=
  {| invoke := fun _ square => free_draw_Square square |}.
#[global] Instance FreeDraw_Blob : Invocable Process FreeDraw Blob unit :=
  {| invoke := fun _ _ => print ("blob" +:+ endl) |}.
#[global] Instance FreeDraw_Wide : Invocable Process FreeDraw Wide unit :=
  {| invoke := fun _ _ => print ("wide" +:+ endl) |}.

#[global] Instance GLDrawer_Circle : Invocable Process GLDrawer Circle unit :=
  {| invoke := fun d circle =>
       print ("circle: radius=" +:+ radius_ circle
              +:+ ", color = " +:+ to_string (color_ d) +:+ endl) |}.
#[global] Instance GLDrawer_Square : Invocable Process GLDrawer Square unit :=
  {| invoke := fun d square =>
       print ("square: side=" +:+ side_ square
              +:+ ", color = " +:+ to_string (color_ d) +:+ endl) |}.

#[global] Instance CountedDrawer_Circle : Invocable Process CountedDrawer Circle unit :=
  {| invoke := fun _ circle => free_draw_Circle circle |}.

#[global] Instance TagSerializer_Circle : Invocable Process TagSerializer Circle string :=
  {| invoke := fun _ circle => uret ("circle:" +:+ radius_ circle) |}.
#[global] Instance TagSerializer_Square : Invocable Process TagSerializer Square string :=
  {| invoke := fun _ square => uret ("square:" +:+ side_ square) |}.
#[global] Instance TagSerializer_Blob : Invocable Process TagSerializer Blob string :=
  {| invoke := fun _ _ => uret "blob" |}.
#[global] Instance TagSerializer_Wide : Invocable Process TagSerializer Wide string :=
  {| invoke := fun _ _ => uret "wide" |}.

(** Sizes and alignments as an LP64 compiler reports them: a vtable
    pointer, the shape, the two strategies, padded. *)
#[global] Instance layout_Circle_FreeDraw : ModelLayout Circle FreeDraw TagSerializer :=
  {| sizeof_Model := 40; alignof_Model := 8 |}.
#[global] Instance layout_Square_GLDrawer : ModelLayout Square GLDrawer TagSerializer :=
  {| sizeof_Model := 40; alignof_Model := 8 |}.
#[global] Instance layout_Circle_Counted : ModelLayout Circle CountedDrawer TagSerializer :=
  {| sizeof_Model := 40; alignof_Model := 8 |}.
#[global] Instance layout_Blob : ModelLayout Blob FreeDraw TagSerializer :=
  {| sizeof_Model := 256; alignof_Model := 8 |}.
#[global] Instance layout_Wide : ModelLayout Wide FreeDraw TagSerializer :=
  {| sizeof_Model := 96; alignof_Model := 32 |}.

Definition circle_payload : Payload Process :=
  mkPayload (Circle_ctor "2.3") mkFreeDraw mkTagSerializer.
Definition square_payload : Payload Process :=
  mkPayload (Square_ctor "1.2") (mkGLDrawer green) mkTagSerializer.
Definition counted_payload : Payload Process :=
  mkPayload (Circle_ctor "4.1") mkCountedDrawer mkTagSerializer.
Definition blob_payload : Payload Process :=
  mkPayload mkBlob mkFreeDraw mkTagSerializer.

Definition start (budget : nat) : Process := mkProcess "" budget.

(** Two boxes, one assigned to the other, both destroyed. *)
Definition assign_program : list (stmt Process) :=
  [Construct circle_payload; Construct square_payload; Assign 0 1;
   Destroy 0; Destroy 1].

(** A box whose drawer cannot be copied any more is assigned to another. *)
Definition failing_assign_program : list (stmt Process) :=
  [Construct circle_payload; Construct counted_payload; Assign 0 1].

(** The inline store after [Shape x( Circle{2.3}, FreeDraw{}, TagSerializer{} )]. *)
Definition sbo_circle_box : SBO.World Process :=
  SBO.mkWorld (start 0)
    (<[0 := Some (model_from circle_payload)]> ∅)
    [ModelConstructed 0].

(** The same box on the heap. *)
Definition heap_circle_box : Heap.World Process :=
  Heap.mkWorld (start 0)
    (<[0 := Some 0]> ∅)
    (<[0 := model_from circle_payload]> ∅)
    2
    [OperatorNew 0; ModelConstructed 0].

(** The scenario of the test suite: two boxes, a copy, calls, an exit. *)
Definition scenario_program : list (stmt Process) :=
  [Construct circle_payload; Construct square_payload; CopyConstruct 0;
   Serialize 0; Serialize 1; Serialize 2; Draw 1; Destroy 0].

(** The inline store after the two declarations of [failing_assign_program],
    run with a budget of one copy. *)
Definition sbo_two_boxes : SBO.World Process :=
  SBO.mkWorld (start 0)
    (<[1 := Some (model_from counted_payload)]>
       (<[0 := Some (model_from circle_payload)]> ∅))
    [ModelConstructed 0; ModelConstructed 1].

(** The same on the heap, with [blocks] blocks left on the free store. *)
Definition heap_two_boxes (budget blocks : nat) : Heap.World Process :=
  Heap.mkWorld (start budget)
    (<[1 := Some 1]> (<[0 := Some 0]> ∅))
    (<[1 := model_from counted_payload]>
       (<[0 := model_from circle_payload]> ∅))
    blocks
    [OperatorNew 0; ModelConstructed 0; OperatorNew 1; ModelConstructed 1].
End Demo.

(** ** The inline variant as a step relation

    What one statement does to the store, case by case; [sbo_exec_step]
    below shows that [SBO.exec] takes these steps and no others. *)

Section SBOSteps.
Context {Env : Type}.

Definition fits (p : Payload Env) : Prop :=
  (@sizeof_Model _ _ _ (payload_layout p) <= SBO.buffersize)%N /\
  (@alignof_Model _ _ _ (payload_layout p) <= SBO.alignment)%N.

(** Without move operations both spellings run the copy operation. *)
Definition copies_from (st : stmt Env) (other : addr) : Prop :=
  st = CopyConstruct other \/ st = MoveConstruct other.
Definition assigns (st : stmt Env) (this other : addr) : Prop :=
  st = Assign this other \/ st = MoveAssign this other.

Inductive sbo_step : stmt Env -> SBO.World Env -> obs -> SBO.World Env -> Prop :=
  | sbo_construct p w c e' :
      fits p ->
      erased_ctor p (SBO.env w) = (Ok c, e') ->
      sbo_step (Construct p) w (Declared (fresh (dom (SBO.objects w))))
        (SBO.mkWorld e'
           (<[fresh (dom (SBO.objects w)) := Some c]> (SBO.objects w))
           (SBO.log w ++ [ModelConstructed (fresh (dom (SBO.objects w)))]))
  | sbo_construct_throws p w x e' :
      fits p ->
      erased_ctor p (SBO.env w) = (Throw x, e') ->
      sbo_step (Construct p) w (Caught x)
        (SBO.mkWorld e' (SBO.objects w) (SBO.log w))
  | sbo_copy st other w co c e' :
      copies_from st other ->
      SBO.objects w !! other = Some (Some co) ->
      copy_of co (SBO.env w) = (Ok c, e') ->
      sbo_step st w (Declared (fresh (dom (SBO.objects w))))
        (SBO.mkWorld e'
           (<[fresh (dom (SBO.objects w)) := Some c]> (SBO.objects w))
           (SBO.log w ++ [ModelConstructed (fresh (dom (SBO.objects w)))]))
  | sbo_copy_throws st other w co x e' :
      copies_from st other ->
      SBO.objects w !! other = Some (Some co) ->
      copy_of co (SBO.env w) = (Throw x, e') ->
      sbo_step st w (Caught x) (SBO.mkWorld e' (SBO.objects w) (SBO.log w))
  | sbo_assign st this other w ct co c e' :
      assigns st this other ->
      this <> other ->
      SBO.objects w !! this = Some (Some ct) ->
      SBO.objects w !! other = Some (Some co) ->
      copy_of co (SBO.env w) = (Ok c, e') ->
      sbo_step st w Done
        (SBO.mkWorld e' (<[this := Some c]> (SBO.objects w))
           (SBO.log w ++ [ModelDestroyed this; ModelConstructed this]))
  | sbo_assign_throws st this other w ct co x e' :
      assigns st this other ->
      this <> other ->
      SBO.objects w !! this = Some (Some ct) ->
      SBO.objects w !! other = Some (Some co) ->
      copy_of co (SBO.env w) = (Throw x, e') ->
      sbo_step st w (Caught x)
        (SBO.mkWorld e' (<[this := None]> (SBO.objects w))
           (SBO.log w ++ [ModelDestroyed this]))
  | sbo_destroy this w c :
      SBO.objects w !! this = Some (Some c) ->
      sbo_step (Destroy this) w Done
        (SBO.mkWorld (SBO.env w) (delete this (SBO.objects w))
           (SBO.log w ++ [ModelDestroyed this]))
  | sbo_serialize this w c s e' :
      SBO.objects w !! this = Some (Some c) ->
      do_serialize c (SBO.env w) = (Ok s, e') ->
      sbo_step (Serialize this) w (Text s)
        (SBO.mkWorld e' (SBO.objects w) (SBO.log w))
  | sbo_serialize_throws this w c x e' :
      SBO.objects w !! this = Some (Some c) ->
      do_serialize c (SBO.env w) = (Throw x, e') ->
      sbo_step (Serialize this) w (Caught x)
        (SBO.mkWorld e' (SBO.objects w) (SBO.log w))
  | sbo_draw this w c e' :
      SBO.objects w !! this = Some (Some c) ->
      do_draw c (SBO.env w) = (Ok tt, e') ->
      sbo_step (Draw this) w Done
        (SBO.mkWorld e' (SBO.objects w) (SBO.log w))
  | sbo_draw_throws this w c x e' :
      SBO.objects w !! this = Some (Some c) ->
      do_draw c (SBO.env w) = (Throw x, e') ->
      sbo_step (Draw this) w (Caught x)
        (SBO.mkWorld e' (SBO.objects w) (SBO.log w)).

(** A run: the steps of a program, one after the other. *)
Inductive sbo_steps : list (stmt Env) -> SBO.World Env -> list obs ->
    SBO.World Env -> Prop :=
  | sbo_steps_nil w : sbo_steps [] w [] w
  | sbo_steps_cons st prog w o w1 os w2 :
      sbo_step st w o w1 ->
      sbo_steps prog w1 os w2 ->
      sbo_steps (st :: prog) w (o :: os) w2.
End SBOSteps.

(** ** Counting what a run did *)

Definition is_declared (o : obs) : bool :=
  match o with Declared _ => true | _ => false end.
Definition is_done (o : obs) : bool :=
  match o with Done => true | _ => false end.
Definition is_caught (o : obs) : bool :=
  match o with Caught _ => true | _ => false end.

Definition is_assignment {Env} (st : stmt Env) : bool :=
  match st with Assign _ _ | MoveAssign _ _ => true | _ => false end.
Definition is_destroy {Env} (st : stmt Env) : bool :=
  match st with Destroy _ => true | _ => false end.

(** Boxes a run constructed: the declarations that completed. *)
Definition boxes_constructed (os : list obs) : nat :=
  length (List.filter is_declared os).

(** Boxes a run destroyed. *)
Definition boxes_destroyed {Env} (prog : list (stmt Env)) : nat :=
  length (List.filter is_destroy prog).

(** Assignments of a run whose observation satisfies [sel]. *)
Fixpoint assignments_with {Env} (sel : obs -> bool) (prog : list (stmt Env))
    (os : list obs) : nat :=
  match prog, os with
  | st :: prog', o :: os' =>
      (if is_assignment st && sel o then 1 else 0) + assignments_with sel prog' os'
  | _, _ => 0
  end.

Definition assignments_completed {Env} := @assignments_with Env is_done.
Definition assignments_failed {Env} := @assignments_with Env is_caught.

(** ** The heap variant as a step relation *)

Section HeapSteps.
Context {Env : Type}.

(** The store once the block behind [q] is gone: [delete] on a non-null
    pointer destroys the model and frees the block. *)
Definition heap_disposed (q : option addr) (w : Heap.World Env) : Heap.World Env :=
  match q with
  | Some p =>
      Heap.mkWorld (Heap.env w) (Heap.objects w) (delete p (Heap.heap w))
        (S (Heap.free_store w))
        (Heap.log w ++ [ModelDestroyed p; OperatorDelete p])
  | None => w
  end.

(** [q] can be handed to [delete]: it is null, or a model lives there. *)
Definition disposable (q : option addr) (w : Heap.World Env) : Prop :=
  match q with
  | Some p => is_Some (Heap.heap w !! p)
  | None => True
  end.

(** The store after [new M( args )] succeeded and [this] took the pointer. *)
Definition heap_emplaced (this : addr) (c : Concept Env) (e' : Env) (n : nat)
    (w : Heap.World Env) : Heap.World Env :=
  Heap.mkWorld e'
    (<[this := Some (fresh (dom (Heap.heap w)))]> (Heap.objects w))
    (<[fresh (dom (Heap.heap w)) := c]> (Heap.heap w))
    n
    (Heap.log w ++ [OperatorNew (fresh (dom (Heap.heap w)));
                    ModelConstructed (fresh (dom (Heap.heap w)))]).

(** The store after the constructor inside [new M( args )] threw. *)
Definition heap_unwound (e' : Env) (w : Heap.World Env) : Heap.World Env :=
  Heap.mkWorld e' (Heap.objects w) (Heap.heap w) (Heap.free_store w)
    (Heap.log w ++ [OperatorNew (fresh (dom (Heap.heap w)));
                    OperatorDelete (fresh (dom (Heap.heap w)))]).

Inductive heap_step : stmt Env -> Heap.World Env -> obs -> Heap.World Env -> Prop :=
  | heap_construct p w n c e' :
      Heap.free_store w = S n ->
      erased_ctor p (Heap.env w) = (Ok c, e') ->
      heap_step (Construct p) w (Declared (fresh (dom (Heap.objects w))))
        (heap_emplaced (fresh (dom (Heap.objects w))) c e' n w)
  | heap_construct_bad_alloc p w :
      Heap.free_store w = 0 ->
      heap_step (Construct p) w (Caught bad_alloc) w
  | heap_construct_throws p w n x e' :
      Heap.free_store w = S n ->
      erased_ctor p (Heap.env w) = (Throw x, e') ->
      heap_step (Construct p) w (Caught x) (heap_unwound e' w)
  | heap_copy other w co n c e' :
      Heap.model_of w other = Some co ->
      Heap.free_store w = S n ->
      copy_of co (Heap.env w) = (Ok c, e') ->
      heap_step (CopyConstruct other) w (Declared (fresh (dom (Heap.objects w))))
        (heap_emplaced (fresh (dom (Heap.objects w))) c e' n w)
  | heap_copy_bad_alloc other w co :
      Heap.model_of w other = Some co ->
      Heap.free_store w = 0 ->
      heap_step (CopyConstruct other) w (Caught bad_alloc) w
  | heap_copy_throws other w co n x e' :
      Heap.model_of w other = Some co ->
      Heap.free_store w = S n ->
      copy_of co (Heap.env w) = (Throw x, e') ->
      heap_step (CopyConstruct other) w (Caught x) (heap_unwound e' w)
  | heap_move other w q :
      Heap.objects w !! other = Some q ->
      heap_step (MoveConstruct other) w (Declared (fresh (dom (Heap.objects w))))
        (Heap.mkWorld (Heap.env w)
           (<[fresh (dom (Heap.objects w)) := q]>
              (<[other := None]> (Heap.objects w)))
           (Heap.heap w) (Heap.free_store w) (Heap.log w))
  | heap_assign this other w qt co n c e' :
      Heap.objects w !! this = Some qt ->
      Heap.model_of w other = Some co ->
      Heap.free_store w = S n ->
      copy_of co (Heap.env w) = (Ok c, e') ->
      disposable qt (heap_emplaced this c e' n w) ->
      heap_step (Assign this other) w Done
        (heap_disposed qt (heap_emplaced this c e' n w))
  | heap_assign_bad_alloc this other w qt co :
      Heap.objects w !! this = Some qt ->
      Heap.model_of w other = Some co ->
      Heap.free_store w = 0 ->
      heap_step (Assign this other) w (Caught bad_alloc) w
  | heap_assign_throws this other w qt co n x e' :
      Heap.objects w !! this = Some qt ->
      Heap.model_of w other = Some co ->
      Heap.free_store w = S n ->
      copy_of co (Heap.env w) = (Throw x, e') ->
      heap_step (Assign this other) w (Caught x) (heap_unwound e' w)
  | heap_move_assign this other w qt qo :
      this <> other ->
      Heap.objects w !! this = Some qt ->
      Heap.objects w !! other = Some qo ->
      disposable qt w ->
      heap_step (MoveAssign this other) w Done
        (heap_disposed qt
           (Heap.mkWorld (Heap.env w)
              (<[this := qo]> (<[other := None]> (Heap.objects w)))
              (Heap.heap w) (Heap.free_store w) (Heap.log w)))
  | heap_move_assign_self this w q :
      Heap.objects w !! this = Some q ->
      heap_step (MoveAssign this this) w Done w
  | heap_destroy this w q :
      Heap.objects w !! this = Some q ->
      disposable q w ->
      heap_step (Destroy this) w Done
        (heap_disposed q
           (Heap.mkWorld (Heap.env w) (delete this (Heap.objects w))
              (Heap.heap w) (Heap.free_store w) (Heap.log w)))
  | heap_serialize this w c s e' :
      Heap.model_of w this = Some c ->
      do_serialize c (Heap.env w) = (Ok s, e') ->
      heap_step (Serialize this) w (Text s) (Heap.with_env e' w)
  | heap_serialize_throws this w c x e' :
      Heap.model_of w this = Some c ->
      do_serialize c (Heap.env w) = (Throw x, e') ->
      heap_step (Serialize this) w (Caught x) (Heap.with_env e' w)
  | heap_draw this w c e' :
      Heap.model_of w this = Some c ->
      do_draw c (Heap.env w) = (Ok tt, e') ->
      heap_step (Draw this) w Done (Heap.with_env e' w)
  | heap_draw_throws this w c x e' :
      Heap.model_of w this = Some c ->
      do_draw c (Heap.env w) = (Throw x, e') ->
      heap_step (Draw this) w (Caught x) (Heap.with_env e' w).

Inductive heap_steps : list (stmt Env) -> Heap.World Env -> list obs ->
    Heap.World Env -> Prop :=
  | heap_steps_nil w : heap_steps [] w [] w
  | heap_steps_cons st prog w o w1 os w2 :
      heap_step st w o w1 ->
      heap_steps prog w1 os w2 ->
      heap_steps (st :: prog) w (o :: os) w2.

(** Exclusive ownership: every non-null [pimpl_] points at a live model,
    and no two boxes point at the same one. *)
Definition heap_wf (w : Heap.World Env) : Prop :=
  (forall a p, Heap.objects w !! a = Some (Some p) -> is_Some (Heap.heap w !! p)) /\
  (forall a b p, Heap.objects w !! a = Some (Some p) ->
                 Heap.objects w !! b = Some (Some p) -> a = b).
End HeapSteps.

(** ** What the caller can tell *)

(** The result and the user environment of an outcome; the store itself is
    not visible to the caller. *)
Definition sbo_visible {Env A} (r : Outcome (SBO.World Env) A)
    : option (Res A * Env) :=
  match r with
  | Return a w => Some (Ok a, SBO.env w)
  | Raise x w => Some (Throw x, SBO.env w)
  | Undefined => None
  end.

Definition heap_visible {Env A} (r : Outcome (Heap.World Env) A)
    : option (Res A * Env) :=
  match r with
  | Return a w => Some (Ok a, Heap.env w)
  | Raise x w => Some (Throw x, Heap.env w)
  | Undefined => None
  end.

(** Stores a program can be in: reached from the empty store. *)
Definition sbo_reachable {Env} (w : SBO.World Env) : Prop :=
  exists prog run e os,
    SBO.compile prog = WellFormed run /\ run (SBO.empty_world e) = Some (os, w).




(** ** Comparing the two variants *)

(** The operations both classes offer with the same contract; a declaration
    must also fit the inline buffer. *)
Definition shared_contract {Env} (st : stmt Env) : Prop :=
  match st with
  | Construct p => fits p
  | CopyConstruct _ | Destroy _ | Serialize _ | Draw _ => True
  | _ => False
  end.

(** An inline store and a heap store that hold the same boxes: same user
    environment, and at every address either no box in both, or a box with
    the same model in both. *)
Definition same_boxes {Env} (ws : SBO.World Env) (wh : Heap.World Env) : Prop :=
  SBO.env ws = Heap.env wh /\
  heap_wf wh /\
  forall a,
    (SBO.objects ws !! a = None /\ Heap.objects wh !! a = None) \/
    (exists c p,
        SBO.objects ws !! a = Some (Some c) /\
        Heap.objects wh !! a = Some (Some p) /\
        Heap.heap wh !! p = Some c).

(** What a caller can compare of two runs: both undefined, or the same
    observations and the same user environment at the end. *)
Definition same_run {Env} (rs : option (list obs * SBO.World Env))
    (rh : option (list obs * Heap.World Env)) : Prop :=
  match rs, rh with
  | Some (os, ws), Some (oh, wh) => os = oh /\ SBO.env ws = Heap.env wh
  | None, None => True
  | _, _ => False
  end.

(** ** The callers: [drawAllShapes] and [serializeAllShapes]

    [Shapes] is a [std::vector<Shape>]; what the two functions use of it is
    the sequence of its elements, here the addresses of the boxes in order. *)

(** [std::cout << s] done by code of the repository itself. *)
Class Console (Env : Type) := {
  cout_put : string -> Env -> Env
}.

Definition cout_write {Env} `{!Console Env} (s : string) : User Env unit :=
  fun e => (Ok tt, cout_put s e).

Definition quote : string := String (Ascii.ascii_of_nat 34) EmptyString.
Definition newline : string := String (Ascii.ascii_of_nat 10) EmptyString.

(** The line [serializeAllShapes] prints for the text it has collected. *)
Definition serialized_line (serialized_shapes : string) : string :=
  "Serialized shapes: " +:+ quote +:+ serialized_shapes +:+ quote +:+ newline.

Module SBOShapes.
Section Callers.
Context {Env : Type} `{!Console Env}.
Local Open Scope op_scope.

(** [for( auto const& shape : shapes ) { free_draw( shape ); }] *)
Fixpoint drawAllShapes (shapes : list addr) : Op (SBO.World Env) unit :=
  match shapes with
  | [] => oret tt
  | shape :: rest => SBO.free_draw shape ;; drawAllShapes rest
  end.

(** The loop of [serializeAllShapes]:
    [serialized_shapes += shape.serialize();] *)
Fixpoint serialize_loop (shapes : list addr) (serialized_shapes : string)
    : Op (SBO.World Env) string :=
  match shapes with
  | [] => oret serialized_shapes
  | shape :: rest =>
      let* s := SBO.serialize shape in
      serialize_loop rest (serialized_shapes +:+ s)
  end.

Definition serializeAllShapes (shapes : list addr) : Op (SBO.World Env) unit :=
  let* serialized_shapes := serialize_loop shapes "" in
  SBO.call (cout_write (serialized_line serialized_shapes)).
End Callers.
End SBOShapes.

Module HeapShapes.
Section Callers.
Context {Env : Type} `{!Console Env}.
Local Open Scope op_scope.

Fixpoint drawAllShapes (shapes : list addr) : Op (Heap.World Env) unit :=
  match shapes with
  | [] => oret tt
  | shape :: rest => Heap.free_draw shape ;; drawAllShapes rest
  end.

Fixpoint serialize_loop (shapes : list addr) (serialized_shapes : string)
    : Op (Heap.World Env) string :=
  match shapes with
  | [] => oret serialized_shapes
  | shape :: rest =>
      let* s := Heap.serialize shape in
      serialize_loop rest (serialized_shapes +:+ s)
  end.

Definition serializeAllShapes (shapes : list addr) : Op (Heap.World Env) unit :=
  let* serialized_shapes := serialize_loop shapes "" in
  Heap.call (cout_write (serialized_line serialized_shapes)).
End Callers.
End HeapShapes.

(** The strategies of a sequence of models called one after the other, with
    no box in between. *)
Fixpoint draw_each {Env} (models : list (Concept Env)) : User Env unit :=
  match models with
  | [] => uret tt
  | c :: rest => ubind (do_draw c) (fun _ => draw_each rest)
  end.

Fixpoint serialize_each {Env} (models : list (Concept Env))
    (serialized_shapes : string) : User Env string :=
  match models with
  | [] => uret serialized_shapes
  | c :: rest =>
      ubind (do_serialize c)
            (fun s => serialize_each rest (serialized_shapes +:+ s))
  end.

(** The boxes at [shapes] hold the models [models], in this order. *)
Definition sbo_holds {Env} (w : SBO.World Env) (shapes : list addr)
    (models : list (Concept Env)) : Prop :=
  Forall2 (fun a c => SBO.objects w !! a = Some (Some c)) shapes models.

Definition heap_holds {Env} (w : Heap.World Env) (shapes : list addr)
    (models : list (Concept Env)) : Prop :=
  Forall2 (fun a c => Heap.model_of w a = Some c) shapes models.

(** ** Blocks and their owners *)

(** Calls of [operator new] and of [operator delete] in a log. *)
Definition is_operator_new (ev : event) : bool :=
  match ev with OperatorNew _ => true | _ => false end.
Definition is_operator_delete (ev : event) : bool :=
  match ev with OperatorDelete _ => true | _ => false end.

(** No block without a box that points at it. *)
Definition heap_owned {Env} (w : Heap.World Env) : Prop :=
  forall p, is_Some (Heap.heap w !! p) ->
    exists a, Heap.objects w !! a = Some (Some p).

(** The books of a run that started with [blocks] free blocks: every block
    is free or holds a model, every [operator new] not undone by an
    [operator delete] is a block that holds a model, and so is every
    construction not undone by a destruction. *)
Definition heap_accounted {Env} (blocks : nat) (w : Heap.World Env) : Prop :=
  Heap.free_store w + size (Heap.heap w) = blocks /\
  count is_operator_new (Heap.log w) =
    count is_operator_delete (Heap.log w) + size (Heap.heap w) /\
  count is_construction (Heap.log w) =
    count is_destruction (Heap.log w) + size (Heap.heap w).

#[global] Instance Process_console : Console Demo.Process :=
  {| cout_put := fun s e => Demo.mkProcess (Demo.cout e +:+ s) (Demo.copies_left e) |}.

(** The inline store of [Demo.sbo_two_boxes] after [b0 = b1] threw: box 0
    is left without a model. *)
Definition sbo_valueless_box : SBO.World Demo.Process :=
  SBO.mkWorld (Demo.start 0)
    (<[0 := None]> (SBO.objects Demo.sbo_two_boxes))
    (SBO.log Demo.sbo_two_boxes ++ [ModelDestroyed 0]).

(** ** The serialization library and the shapes it is used on

    [FastSerialization.h], [Point.h], [Circle.h], [Square.h] and
    [FSSerializer.h] are the same in both files. *)

Module fs.

(** What [operator<<] uses of an arithmetic type [T]: [sizeof(T)],
    [alignof(T)], the value [T{}] and the bytes of a value (its object
    representation), [sizeof(T)] of them.  [sizeof(T)] is a multiple of
    [alignof(T)]. *)
Class Arithmetic (T : Type) := {
  sizeof : nat;
  alignof : nat;
  value_initialized : T;
  object_representation : T -> list Byte.byte;
  object_representation_length :
    forall value, length (object_representation value) = sizeof;
  sizeof_aligned : sizeof mod alignof = 0
}.
Arguments sizeof T {_}.
Arguments alignof T {_}.
Arguments value_initialized T {_}.

(** [std::vector<char> buffer_;] *)
Record Serializer := mkSerializer {
  buffer_ : list Byte.byte
}.

(** [fs::Serializer serializer{};] *)
Definition Serializer_ctor : Serializer := mkSerializer [].

(** [return std::string( buffer_.data(), buffer_.size() );] *)
Definition to_string (serializer : Serializer) : string :=
  String.string_of_list_byte (buffer_ serializer).

(** [std::vector<char>::resize( n )]: the first [n] elements, filled up
    with [char{}]. *)
Definition resize (n : nat) (v : list Byte.byte) : list Byte.byte :=
  take n v ++ replicate (n - length v) Byte.x00.

(** [::new (data) T{value}], [data] being [offset] bytes into the buffer.
    The buffer comes from [operator new] and is aligned for every
    fundamental type, so the address is aligned for [T] when [offset] is a
    multiple of [alignof(T)]; creating a [T] anywhere else is undefined
    ([None]).  Afterwards the [sizeof(T)] bytes at [offset] are the bytes of
    the value. *)
Definition placement_new {T} `{!Arithmetic T} (buffer : list Byte.byte)
    (offset : nat) (value : T) : option (list Byte.byte) :=
  if decide (offset mod alignof T = 0)
  then Some (take offset buffer ++ object_representation value ++
             drop (offset + sizeof T) buffer)
  else None.

(** [friend Serializer& operator<<( Serializer& serializer, T value )] *)
Definition operator_shl {T} `{!Arithmetic T} (serializer : Serializer)
    (value : T) : option Serializer :=
  let old_size := length (buffer_ serializer) in
  let buffer := resize (old_size + sizeof T) (buffer_ serializer) in
  buffer' ← placement_new buffer old_size value;
  Some (mkSerializer buffer').
End fs.

Module Geometry.
Record Point (double : Type) := mkPoint {
  x : double;
  y : double
}.
Arguments mkPoint {double} x y.
Arguments x {double} p.
Arguments y {double} p.

Record Circle (double : Type) := mkCircle {
  radius_ : double;
  circle_center_ : Point double
}.
Arguments mkCircle {double} radius_ circle_center_.
Arguments radius_ {double} c.
Arguments circle_center_ {double} c.

Record Square (double : Type) := mkSquare {
  side_ : double;
  square_center_ : Point double
}.
Arguments mkSquare {double} side_ square_center_.
Arguments side_ {double} s.
Arguments square_center_ {double} s.

Section Members.
Context {double : Type} `{!fs.Arithmetic double}.

(** [explicit Circle( double radius ) : radius_{ radius }, center_{} {}] *)
Definition Circle_ctor (radius : double) : Circle double :=
  mkCircle radius
    (mkPoint (fs.value_initialized double) (fs.value_initialized double)).

(** [explicit Square( double side ) : side_{ side }, center_{} {}] *)
Definition Square_ctor (side : double) : Square double :=
  mkSquare side
    (mkPoint (fs.value_initialized double) (fs.value_initialized double)).
End Members.
End Geometry.

Section FSSerializer.
Context {size_t double : Type}.
Context `{!fs.Arithmetic size_t, !fs.Arithmetic double}.

(** [typeid(Circle).hash_code()] and [typeid(Square).hash_code()]: values
    the implementation picks. *)
Variables (hash_code_Circle hash_code_Square : size_t).

(** [std::string operator()( Circle const& circle ) const] *)
Definition FSSerializer_Circle (circle : Geometry.Circle double)
    : option string :=
  s1 ← fs.operator_shl fs.Serializer_ctor hash_code_Circle;
  s2 ← fs.operator_shl s1 (Geometry.radius_ circle);
  s3 ← fs.operator_shl s2 (Geometry.x (Geometry.circle_center_ circle));
  s4 ← fs.operator_shl s3 (Geometry.y (Geometry.circle_center_ circle));
  Some (fs.to_string s4).

(** [std::string operator()( Square const& square ) const] *)
Definition FSSerializer_Square (square : Geometry.Square double)
    : option string :=
  s1 ← fs.operator_shl fs.Serializer_ctor hash_code_Square;
  s2 ← fs.operator_shl s1 (Geometry.side_ square);
  s3 ← fs.operator_shl s2 (Geometry.x (Geometry.square_center_ square));
  s4 ← fs.operator_shl s3 (Geometry.y (Geometry.square_center_ square));
  Some (fs.to_string s4).
End FSSerializer.

(** An implementation where [size_t] and [double] take eight bytes and are
    aligned to eight (LP64), one where [size_t] takes four bytes and
    [double] is aligned to eight (32-bit ARM), and one where [double] is
    aligned to four (32-bit x86 System V).  A value is given by its bytes. *)
Module ABI.
Inductive word64 :=
  W64 (b0 b1 b2 b3 b4 b5 b6 b7 : Byte.byte).
Inductive word32 :=
  W32 (b0 b1 b2 b3 : Byte.byte).

Definition bytes64 (v : word64) : list Byte.byte :=
  match v with W64 b0 b1 b2 b3 b4 b5 b6 b7 => [b0; b1; b2; b3; b4; b5; b6; b7] end.
Definition bytes32 (v : word32) : list Byte.byte :=
  match v with W32 b0 b1 b2 b3 => [b0; b1; b2; b3] end.

Definition zero64 : word64 :=
  W64 Byte.x00 Byte.x00 Byte.x00 Byte.x00 Byte.x00 Byte.x00 Byte.x00 Byte.x00.
Definition zero32 : word32 := W32 Byte.x00 Byte.x00 Byte.x00 Byte.x00.

Definition arithmetic64 (align : nat) (Halign : 8 mod align = 0)
    : fs.Arithmetic word64 :=
  {| fs.sizeof := 8; fs.alignof := align; fs.value_initialized := zero64;
     fs.object_representation := bytes64;
     fs.object_representation_length :=
       fun value => match value with W64 _ _ _ _ _ _ _ _ => eq_refl end;
     fs.sizeof_aligned := Halign |}.

Definition arithmetic32 : fs.Arithmetic word32 :=
  {| fs.sizeof := 4; fs.alignof := 4; fs.value_initialized := zero32;
     fs.object_representation := bytes32;
     fs.object_representation_length :=
       fun value => match value with W32 _ _ _ _ => eq_refl end;
     fs.sizeof_aligned := eq_refl |}.

Definition aligned8 : fs.Arithmetic word64 := arithmetic64 8 eq_refl.
Definition aligned4 : fs.Arithmetic word64 := arithmetic64 4 eq_refl.
End ABI.

(** ** Strategies that refer to state outside the box

    A draw strategy that counts its calls in an [int] it points at, and a
    serialization strategy that reports the same [int]:
    [struct CountingDrawer { int* calls; void operator()( Dot const& ) const { ++*calls; } };]
    [struct ReportingSerializer { int const* calls; std::string operator()( Dot const& ) const { return std::string( *calls, '|' ); } };]
    Copying either copies the pointer.  The user environment is the [int]. *)
Module Shared.
Definition Counter : Type := nat.

Inductive Dot := mkDot.
Inductive CountingDrawer := mkCountingDrawer.
Inductive ReportingSerializer := mkReportingSerializer.

(** [std::string( n, '|' )] *)
Fixpoint strokes (n : nat) : string :=
  match n with
  | O => EmptyString
  | S n' => "|" +:+ strokes n'
  end.

Program Definition trivially_copyable (T : Type) : CopyConstructible Counter T :=
  {| copy_ctor := fun t => uret t |}.
Next Obligation. intros T t e t' e'. unfold uret. congruence. Qed.

#[global] Instance copy_Dot : CopyConstructible Counter Dot :=
  trivially_copyable Dot.
#[global] Instance copy_CountingDrawer : CopyConstructible Counter CountingDrawer :=
  trivially_copyable CountingDrawer.
#[global] Instance copy_ReportingSerializer
    : CopyConstructible Counter ReportingSerializer :=
  trivially_copyable ReportingSerializer.

#[global] Instance CountingDrawer_Dot : Invocable Counter CountingDrawer Dot unit :=
  {| invoke := fun _ _ calls => (Ok tt, S calls) |}.
#[global] Instance ReportingSerializer_Dot
    : Invocable Counter ReportingSerializer Dot string :=
  {| invoke := fun _ _ calls => (Ok (strokes calls), calls) |}.

(** A vtable pointer, the shape, two pointers. *)
#[global] Instance layout_Dot : ModelLayout Dot CountingDrawer ReportingSerializer :=
  {| sizeof_Model := 32; alignof_Model := 8 |}.


End Shared.

(** * Properties *)

(** ** Copies are equal to their source *)

Section CopyFacts.
Context {Env : Type}.

Lemma Model_ctor_value {ShapeT DrawStrategy SerializationStrategy : Type}
    `{!CopyConstructible Env ShapeT, !CopyConstructible Env DrawStrategy,
      !CopyConstructible Env SerializationStrategy}
    (s : ShapeT) (d : DrawStrategy) (z : SerializationStrategy)
    (e e' : Env) (m : Model ShapeT DrawStrategy SerializationStrategy) :
  Model_ctor s d z e = (Ok m, e') -> m = mkModel s d z.
Proof.
  unfold Model_ctor, ubind, uret.
  destruct (copy_ctor s e) as [[s'|x] e1] eqn:Hs; [|discriminate].
  destruct (copy_ctor d e1) as [[d'|x] e2] eqn:Hd; [|discriminate].
  destruct (copy_ctor z e2) as [[z'|x] e3] eqn:Hz; [|discriminate].
  intros [= <- <-].
  apply copy_ctor_value in Hs, Hd, Hz. by subst.
Qed.

Lemma copy_of_value (c c' : Concept Env) (e e' : Env) :
  copy_of c e = (Ok c', e') -> c' = c.
Proof.
  destruct c as [S D Z ? ? ? ? ? m]. unfold copy_of, Model_copy_ctor, ubind, uret.
  destruct (Model_ctor _ _ _ e) as [[m'|x] e1] eqn:Hm; [|discriminate].
  intros [= <- <-]. apply Model_ctor_value in Hm. subst m'. by destruct m.
Qed.

(** The constructor of the erased model, as both [Shape] constructors call it. *)
Lemma erased_ctor_value {ShapeT DrawStrategy SerializationStrategy : Type}
    `{!CopyConstructible Env ShapeT, !CopyConstructible Env DrawStrategy,
      !CopyConstructible Env SerializationStrategy,
      !Invocable Env DrawStrategy ShapeT unit,
      !Invocable Env SerializationStrategy ShapeT string}
    (s : ShapeT) (d : DrawStrategy) (z : SerializationStrategy)
    (e e' : Env) (c : Concept Env) :
  ubind (Model_ctor s d z) (fun m => uret (upcast m)) e = (Ok c, e') ->
  c = upcast (mkModel s d z).
Proof.
  unfold ubind, uret.
  destruct (Model_ctor s d z e) as [[m|x] e1] eqn:Hm; [|discriminate].
  intros [= <- <-]. apply Model_ctor_value in Hm. by subst.
Qed.
End CopyFacts.

(** ** The inline variant, operation by operation *)

Section SBOFacts.
Context {Env : Type}.
Implicit Types (w : SBO.World Env) (c : Concept Env) (this other a : addr).

Lemma sbo_placement_new_effect memory (ctor : User Env (Concept Env)) w :
  SBO.placement_new memory ctor w =
    match ctor (SBO.env w) with
    | (Ok c, e') =>
        Return tt (SBO.mkWorld e' (<[memory := Some c]> (SBO.objects w))
                     (SBO.log w ++ [ModelConstructed memory]))
    | (Throw x, e') => Raise x (SBO.mkWorld e' (SBO.objects w) (SBO.log w))
    end.
Proof.
  unfold SBO.placement_new, obind, SBO.call.
  by destruct (ctor (SBO.env w)) as [[c|x] e'].
Qed.

Lemma sbo_destroy_at_live p c w :
  SBO.objects w !! p = Some (Some c) ->
  SBO.destroy_at p w =
    Return tt (SBO.mkWorld (SBO.env w) (<[p := None]> (SBO.objects w))
                 (SBO.log w ++ [ModelDestroyed p])).
Proof. unfold SBO.destroy_at. by intros ->. Qed.

Lemma sbo_destroy_at_dead p w :
  SBO.objects w !! p = None \/ SBO.objects w !! p = Some None ->
  SBO.destroy_at p w = Undefined.
Proof. unfold SBO.destroy_at. by intros [-> | ->]. Qed.

Lemma sbo_deref_live p c w :
  SBO.objects w !! p = Some (Some c) -> SBO.deref p w = Return c w.
Proof. unfold SBO.deref. by intros ->. Qed.

Lemma sbo_deref_dead p w :
  SBO.objects w !! p = None \/ SBO.objects w !! p = Some None ->
  SBO.deref p w = Undefined.
Proof. unfold SBO.deref. by intros [-> | ->]. Qed.

Lemma sbo_Shape_ctor_fits {ShapeT DrawStrategy SerializationStrategy : Type}
    `{!CopyConstructible Env ShapeT, !CopyConstructible Env DrawStrategy,
      !CopyConstructible Env SerializationStrategy,
      !Invocable Env DrawStrategy ShapeT unit,
      !Invocable Env SerializationStrategy ShapeT string,
      !ModelLayout ShapeT DrawStrategy SerializationStrategy} :
  (sizeof_Model <= SBO.buffersize)%N ->
  (alignof_Model <= SBO.alignment)%N ->
  SBO.Shape_ctor (Env:=Env) (ShapeT:=ShapeT) (DrawStrategy:=DrawStrategy)
      (SerializationStrategy:=SerializationStrategy) =
    WellFormed (fun this shape drawer serializer =>
      SBO.placement_new (SBO.pimpl this)
        (ubind (Model_ctor shape drawer serializer) (fun m => uret (upcast m)))).
Proof.
  intros Hs Ha. unfold SBO.Shape_ctor, static_assert.
  apply N.leb_le in Hs, Ha. by rewrite Hs, Ha.
Qed.

Lemma sbo_Shape_ctor_cases {ShapeT DrawStrategy SerializationStrategy : Type}
    `{!CopyConstructible Env ShapeT, !CopyConstructible Env DrawStrategy,
      !CopyConstructible Env SerializationStrategy,
      !Invocable Env DrawStrategy ShapeT unit,
      !Invocable Env SerializationStrategy ShapeT string,
      !ModelLayout ShapeT DrawStrategy SerializationStrategy} :
  SBO.Shape_ctor (Env:=Env) (ShapeT:=ShapeT) (DrawStrategy:=DrawStrategy)
      (SerializationStrategy:=SerializationStrategy) =
    (if (sizeof_Model <=? SBO.buffersize)%N
     then if (alignof_Model <=? SBO.alignment)%N
          then WellFormed (fun this shape drawer serializer =>
                 SBO.placement_new (SBO.pimpl this)
                   (ubind (Model_ctor shape drawer serializer)
                          (fun m => uret (upcast m))))
          else IllFormed "Given type is overaligned"
     else IllFormed "Given type is too large").
Proof. reflexivity. Qed.

(** Construction that returns leaves the model built from the arguments. *)
Lemma sbo_construct_returns {ShapeT DrawStrategy SerializationStrategy : Type}
    `{!CopyConstructible Env ShapeT, !CopyConstructible Env DrawStrategy,
      !CopyConstructible Env SerializationStrategy,
      !Invocable Env DrawStrategy ShapeT unit,
      !Invocable Env SerializationStrategy ShapeT string}
    this (s : ShapeT) (d : DrawStrategy) (z : SerializationStrategy) w w' :
  SBO.placement_new (SBO.pimpl this)
    (ubind (Model_ctor s d z) (fun m => uret (upcast m))) w = Return tt w' ->
  SBO.objects w' = <[this := Some (upcast (mkModel s d z))]> (SBO.objects w) /\
  SBO.log w' = SBO.log w ++ [ModelConstructed this].
Proof.
  rewrite sbo_placement_new_effect.
  destruct (ubind _ _ (SBO.env w)) as [[c|x] e'] eqn:Hc; [|discriminate].
  apply erased_ctor_value in Hc. subst c. by intros [= <-].
Qed.

Lemma sbo_serialize_live this c w :
  SBO.objects w !! this = Some (Some c) ->
  SBO.serialize this w = SBO.call (do_serialize c) w.
Proof. unfold SBO.serialize, obind, SBO.deref, SBO.pimpl. by intros ->. Qed.

Lemma sbo_free_draw_live this c w :
  SBO.objects w !! this = Some (Some c) ->
  SBO.free_draw this w = SBO.call (do_draw c) w.
Proof. unfold SBO.free_draw, obind, SBO.deref, SBO.pimpl. by intros ->. Qed.
End SBOFacts.

(** ** The heap variant, operation by operation *)

Section HeapFacts.
Context {Env : Type}.
Implicit Types (w : Heap.World Env) (c : Concept Env) (this other a p : addr).

Lemma heap_make_unique_effect (ctor : User Env (Concept Env)) w :
  Heap.make_unique ctor w =
    match Heap.free_store w with
    | O => Raise bad_alloc w
    | S n =>
        let p := fresh (dom (Heap.heap w)) in
        match ctor (Heap.env w) with
        | (Ok c, e') =>
            Return p (Heap.mkWorld e' (Heap.objects w) (<[p := c]> (Heap.heap w)) n
                        (Heap.log w ++ [OperatorNew p; ModelConstructed p]))
        | (Throw x, e') =>
            Raise x (Heap.mkWorld e' (Heap.objects w) (Heap.heap w) (S n)
                       (Heap.log w ++ [OperatorNew p; OperatorDelete p]))
        end
    end.
Proof.
  unfold Heap.make_unique, obind, Heap.operator_new.
  destruct (Heap.free_store w) as [|n] eqn:Hn; [done|]. simpl.
  destruct (ctor (Heap.env w)) as [[c|x] e']; simpl.
  - unfold Heap.emit, Heap.with_heap, Heap.with_env; simpl.
    by rewrite <- app_assoc.
  - unfold othrow, Heap.operator_delete, Heap.emit, Heap.with_free_store,
      Heap.with_env; simpl.
    by rewrite <- app_assoc.
Qed.

Lemma heap_model_of_lookup w a p c :
  Heap.objects w !! a = Some (Some p) -> Heap.heap w !! p = Some c ->
  Heap.model_of w a = Some c.
Proof. unfold Heap.model_of. by intros -> ->. Qed.

Lemma heap_model_of_inv w a c :
  Heap.model_of w a = Some c ->
  exists p, Heap.objects w !! a = Some (Some p) /\ Heap.heap w !! p = Some c.
Proof.
  unfold Heap.model_of.
  destruct (Heap.objects w !! a) as [[p|]|]; try discriminate. eauto.
Qed.

Lemma heap_serialize_live this c w :
  Heap.model_of w this = Some c ->
  Heap.serialize this w = Heap.call (do_serialize c) w.
Proof.
  intros (p & Ho & Hp)%heap_model_of_inv.
  unfold Heap.serialize, obind, Heap.get_pimpl_, Heap.arrow. by rewrite Ho, Hp.
Qed.

Lemma heap_free_draw_live this c w :
  Heap.model_of w this = Some c ->
  Heap.free_draw this w = Heap.call (do_draw c) w.
Proof.
  intros (p & Ho & Hp)%heap_model_of_inv.
  unfold Heap.free_draw, obind, Heap.get_pimpl_, Heap.arrow. by rewrite Ho, Hp.
Qed.

Lemma heap_construct_returns {ShapeT DrawStrategy SerializationStrategy : Type}
    `{!CopyConstructible Env ShapeT, !CopyConstructible Env DrawStrategy,
      !CopyConstructible Env SerializationStrategy,
      !Invocable Env DrawStrategy ShapeT unit,
      !Invocable Env SerializationStrategy ShapeT string}
    this (s : ShapeT) (d : DrawStrategy) (z : SerializationStrategy) w w' :
  obind (Heap.make_unique (ubind (Model_ctor s d z) (fun m => uret (upcast m))))
        (fun p => Heap.init_pimpl_ this (Some p)) w = Return tt w' ->
  Heap.model_of w' this = Some (upcast (mkModel s d z)).
Proof.
  unfold obind. rewrite heap_make_unique_effect.
  destruct (Heap.free_store w) as [|n]; [discriminate|]. simpl.
  destruct (ubind _ _ (Heap.env w)) as [[c|x] e'] eqn:Hc; [|discriminate].
  apply erased_ctor_value in Hc. subst c.
  unfold Heap.init_pimpl_, Heap.with_objects. simpl. intros [= <-].
  unfold Heap.model_of. simpl. rewrite lookup_insert_eq. apply lookup_insert_eq.
Qed.
End HeapFacts.

(** ** Round trip *)

Section RoundTrip.
Context {Env ShapeT DrawStrategy SerializationStrategy : Type}.
Context `{!CopyConstructible Env ShapeT, !CopyConstructible Env DrawStrategy,
          !CopyConstructible Env SerializationStrategy,
          !Invocable Env DrawStrategy ShapeT unit,
          !Invocable Env SerializationStrategy ShapeT string,
          !ModelLayout ShapeT DrawStrategy SerializationStrategy}.

(** C1. A box constructed from [s], [d], [z] stores exactly that model, and
    from then on [serialize()] is [z(s)] and [free_draw] is [d(s)], run in
    the caller's world with nothing added: in either variant, a call on a
    box is the call of the stored strategy on the stored shape. *)
Theorem round_trip_identity (s : ShapeT) (d : DrawStrategy)
    (z : SerializationStrategy) (this : addr) :
  (forall ctor w w',
      SBO.Shape_ctor = WellFormed ctor ->
      ctor this s d z w = Return tt w' ->
      SBO.objects w' !! this = Some (Some (upcast (mkModel s d z))) /\
      SBO.serialize this w' = SBO.call (invoke z s) w' /\
      SBO.free_draw this w' = SBO.call (invoke d s) w') /\
  (forall ctor w w',
      Heap.Shape_ctor = WellFormed ctor ->
      ctor this s d z w = Return tt w' ->
      Heap.model_of w' this = Some (upcast (mkModel s d z)) /\
      Heap.serialize this w' = Heap.call (invoke z s) w' /\
      Heap.free_draw this w' = Heap.call (invoke d s) w') /\
  (forall (w : SBO.World Env),
      SBO.objects w !! this = Some (Some (upcast (mkModel s d z))) ->
      SBO.serialize this w = SBO.call (invoke z s) w /\
      SBO.free_draw this w = SBO.call (invoke d s) w) /\
  (forall (w : Heap.World Env),
      Heap.model_of w this = Some (upcast (mkModel s d z)) ->
      Heap.serialize this w = Heap.call (invoke z s) w /\
      Heap.free_draw this w = Heap.call (invoke d s) w).
Proof.
  assert (HS : forall (w : SBO.World Env),
      SBO.objects w !! this = Some (Some (upcast (mkModel s d z))) ->
      SBO.serialize this w = SBO.call (invoke z s) w /\
      SBO.free_draw this w = SBO.call (invoke d s) w).
  { intros w Hw. split.
    - by rewrite (sbo_serialize_live _ _ _ Hw).
    - by rewrite (sbo_free_draw_live _ _ _ Hw). }
  assert (HH : forall (w : Heap.World Env),
      Heap.model_of w this = Some (upcast (mkModel s d z)) ->
      Heap.serialize this w = Heap.call (invoke z s) w /\
      Heap.free_draw this w = Heap.call (invoke d s) w).
  { intros w Hw. split.
    - by rewrite (heap_serialize_live _ _ _ Hw).
    - by rewrite (heap_free_draw_live _ _ _ Hw). }
  split; [|split; [|split]]; [| |exact HS|exact HH].
  - intros ctor w w' Hc Hr. rewrite sbo_Shape_ctor_cases in Hc.
    repeat case_match; try discriminate. injection Hc as <-.
    apply sbo_construct_returns in Hr as [Ho _].
    assert (Hw : SBO.objects w' !! this = Some (Some (upcast (mkModel s d z))))
      by (rewrite Ho; apply lookup_insert_eq).
    split; [exact Hw | by apply HS].
  - intros ctor w w' [= <-] Hr. apply heap_construct_returns in Hr.
    split; [exact Hr | by apply HH].
Qed.
End RoundTrip.

(** ** [SBO.exec] takes the steps of [sbo_step] *)

Section SBOExec.
Context {Env : Type}.
Implicit Types (w : SBO.World Env) (c : Concept Env) (this other a : addr)
  (st : stmt Env).

Lemma sbo_Shape_copy_ctor_effect this other co w :
  SBO.objects w !! other = Some (Some co) ->
  SBO.Shape_copy_ctor this other w =
    match copy_of co (SBO.env w) with
    | (Ok c, e') =>
        Return tt (SBO.mkWorld e' (<[this := Some c]> (SBO.objects w))
                     (SBO.log w ++ [ModelConstructed this]))
    | (Throw x, e') => Raise x (SBO.mkWorld e' (SBO.objects w) (SBO.log w))
    end.
Proof.
  intros Ho. unfold SBO.Shape_copy_ctor, obind, SBO.pimpl.
  rewrite (sbo_deref_live _ _ _ Ho). unfold SBO.clone.
  apply sbo_placement_new_effect.
Qed.

Lemma sbo_Shape_copy_ctor_dead this other w :
  SBO.objects w !! other = None \/ SBO.objects w !! other = Some None ->
  SBO.Shape_copy_ctor this other w = Undefined.
Proof.
  intros Ho. unfold SBO.Shape_copy_ctor, obind, SBO.pimpl.
  by rewrite (sbo_deref_dead _ _ Ho).
Qed.

Lemma sbo_Shape_assign_effect this other ct co w :
  this <> other ->
  SBO.objects w !! this = Some (Some ct) ->
  SBO.objects w !! other = Some (Some co) ->
  SBO.Shape_assign this other w =
    match copy_of co (SBO.env w) with
    | (Ok c, e') =>
        Return tt (SBO.mkWorld e' (<[this := Some c]> (SBO.objects w))
                     (SBO.log w ++ [ModelDestroyed this; ModelConstructed this]))
    | (Throw x, e') =>
        Raise x (SBO.mkWorld e' (<[this := None]> (SBO.objects w))
                   (SBO.log w ++ [ModelDestroyed this]))
    end.
Proof.
  intros Hne Ht Ho. unfold SBO.Shape_assign, obind, SBO.pimpl.
  rewrite (sbo_destroy_at_live _ _ _ Ht).
  erewrite sbo_deref_live; last first.
  { simpl. rewrite lookup_insert_ne by done. exact Ho. }
  unfold SBO.clone. rewrite sbo_placement_new_effect. simpl.
  destruct (copy_of co (SBO.env w)) as [[c|x] e']; [|done].
  by rewrite insert_insert_eq, <- app_assoc.
Qed.

(** Assignment with a target that holds no model is undefined, whatever
    the source. *)
Lemma sbo_Shape_assign_dead this other w :
  SBO.objects w !! this = None \/ SBO.objects w !! this = Some None ->
  SBO.Shape_assign this other w = Undefined.
Proof.
  intros Ht. unfold SBO.Shape_assign, obind, SBO.pimpl.
  by rewrite (sbo_destroy_at_dead _ _ Ht).
Qed.

Lemma sbo_Shape_assign_source_dead this other ct w :
  SBO.objects w !! this = Some (Some ct) ->
  SBO.objects w !! other = None \/ SBO.objects w !! other = Some None ->
  SBO.Shape_assign this other w = Undefined.
Proof.
  intros Ht Ho. unfold SBO.Shape_assign, obind, SBO.pimpl.
  rewrite (sbo_destroy_at_live _ _ _ Ht).
  rewrite sbo_deref_dead; [done|]. simpl.
  destruct (decide (this = other)) as [->|Hne].
  - right. apply lookup_insert_eq.
  - by rewrite lookup_insert_ne.
Qed.

Lemma sbo_Shape_assign_self this w :
  SBO.Shape_assign this this w = Undefined.
Proof.
  destruct (SBO.objects w !! this) as [[ct|]|] eqn:Ht.
  - unfold SBO.Shape_assign, obind, SBO.pimpl.
    rewrite (sbo_destroy_at_live _ _ _ Ht).
    rewrite sbo_deref_dead; [done|]. right. apply lookup_insert_eq.
  - apply sbo_Shape_assign_dead. by right.
  - apply sbo_Shape_assign_dead. by left.
Qed.

Lemma sbo_Shape_dtor_effect this c w :
  SBO.objects w !! this = Some (Some c) ->
  SBO.Shape_dtor this w =
    Return tt (SBO.mkWorld (SBO.env w) (delete this (SBO.objects w))
                 (SBO.log w ++ [ModelDestroyed this])).
Proof.
  intros Ht. unfold SBO.Shape_dtor, obind, SBO.pimpl.
  rewrite (sbo_destroy_at_live _ _ _ Ht).
  unfold SBO.end_lifetime, SBO.with_objects. simpl.
  by rewrite delete_insert_eq.
Qed.

Lemma sbo_Shape_dtor_dead this w :
  SBO.objects w !! this = None \/ SBO.objects w !! this = Some None ->
  SBO.Shape_dtor this w = Undefined.
Proof.
  intros Ht. unfold SBO.Shape_dtor, obind, SBO.pimpl.
  by rewrite (sbo_destroy_at_dead _ _ Ht).
Qed.

Lemma sbo_exec_assign_step st this other w o w' :
  assigns st this other ->
  observe (fun _ : unit => Done) (SBO.Shape_assign this other w) = Some (o, w') ->
  sbo_step st w o w'.
Proof.
  intros Hst Hrun.
  destruct (decide (this = other)) as [->|Hne].
  { by rewrite sbo_Shape_assign_self in Hrun. }
  destruct (SBO.objects w !! this) as [[ct|]|] eqn:Ht;
    [|rewrite sbo_Shape_assign_dead in Hrun by auto; done..].
  destruct (SBO.objects w !! other) as [[co|]|] eqn:Ho;
    [|rewrite (sbo_Shape_assign_source_dead _ _ _ _ Ht) in Hrun by auto; done..].
  rewrite (sbo_Shape_assign_effect _ _ _ _ _ Hne Ht Ho) in Hrun.
  destruct (copy_of co (SBO.env w)) as [[c|x] e'] eqn:Hc;
    simpl in Hrun; injection Hrun as <- <-.
  - by eapply sbo_assign.
  - by eapply sbo_assign_throws.
Qed.

Lemma sbo_exec_copy_step st other w o w' :
  copies_from st other ->
  observe (fun _ : unit => Declared (fresh (dom (SBO.objects w))))
    (SBO.Shape_copy_ctor (fresh (dom (SBO.objects w))) other w) = Some (o, w') ->
  sbo_step st w o w'.
Proof.
  intros Hst Hrun.
  destruct (SBO.objects w !! other) as [[co|]|] eqn:Ho;
    [|rewrite sbo_Shape_copy_ctor_dead in Hrun by auto; done..].
  rewrite (sbo_Shape_copy_ctor_effect _ _ _ _ Ho) in Hrun.
  destruct (copy_of co (SBO.env w)) as [[c|x] e'] eqn:Hc;
    simpl in Hrun; injection Hrun as <- <-.
  - by eapply sbo_copy.
  - by eapply sbo_copy_throws.
Qed.

Lemma sbo_exec_step st f w o w' :
  SBO.exec st = WellFormed f -> f w = Some (o, w') -> sbo_step st w o w'.
Proof.
  destruct st as [p|other|other|this other|this other|this|this|this]; simpl.
  - rewrite sbo_Shape_ctor_cases.
    destruct (_ <=? SBO.buffersize)%N eqn:Hs; [|discriminate].
    destruct (_ <=? SBO.alignment)%N eqn:Ha; [|discriminate].
    intros [= <-] Hrun.
    assert (Hfit : fits p) by (split; by apply N.leb_le).
    rewrite sbo_placement_new_effect in Hrun. fold (erased_ctor p) in Hrun.
    destruct (erased_ctor p (SBO.env w)) as [[c|x] e'] eqn:Hc;
      simpl in Hrun; injection Hrun as <- <-.
    + by apply sbo_construct.
    + by apply sbo_construct_throws.
  - intros [= <-]. apply sbo_exec_copy_step. by left.
  - intros [= <-]. apply sbo_exec_copy_step. by right.
  - intros [= <-]. apply sbo_exec_assign_step. by left.
  - intros [= <-]. apply sbo_exec_assign_step. by right.
  - intros [= <-] Hrun.
    destruct (SBO.objects w !! this) as [[c|]|] eqn:Ht;
      [|rewrite sbo_Shape_dtor_dead in Hrun by auto; done..].
    rewrite (sbo_Shape_dtor_effect _ _ _ Ht) in Hrun.
    injection Hrun as <- <-. by eapply sbo_destroy.
  - intros [= <-] Hrun.
    destruct (SBO.objects w !! this) as [[c|]|] eqn:Ht;
      [|unfold SBO.serialize, obind, SBO.pimpl in Hrun;
        rewrite sbo_deref_dead in Hrun by auto; done..].
    rewrite (sbo_serialize_live _ _ _ Ht) in Hrun. unfold SBO.call in Hrun.
    destruct (do_serialize c (SBO.env w)) as [[s|x] e'] eqn:Hc;
      simpl in Hrun; injection Hrun as <- <-.
    + by eapply sbo_serialize.
    + by eapply sbo_serialize_throws.
  - intros [= <-] Hrun.
    destruct (SBO.objects w !! this) as [[c|]|] eqn:Ht;
      [|unfold SBO.free_draw, obind, SBO.pimpl in Hrun;
        rewrite sbo_deref_dead in Hrun by auto; done..].
    rewrite (sbo_free_draw_live _ _ _ Ht) in Hrun. unfold SBO.call in Hrun.
    destruct (do_draw c (SBO.env w)) as [[[]|x] e'] eqn:Hc;
      simpl in Hrun; injection Hrun as <- <-.
    + by eapply sbo_draw.
    + by eapply sbo_draw_throws.
Qed.
End SBOExec.

(** ** Programs *)

Section Translate.
Context {Env W : Type}.
Variable exec : stmt Env -> Compiled (W -> option (obs * W)).

Lemma translate_cons_inv st rest run :
  translate exec (st :: rest) = WellFormed run ->
  exists f g,
    exec st = WellFormed f /\ translate exec rest = WellFormed g /\
    run = (fun w => match f w with
                    | None => None
                    | Some (o, w1) =>
                        match g w1 with
                        | None => None
                        | Some (os, w2) => Some (o :: os, w2)
                        end
                    end).
Proof.
  simpl. destruct (exec st) as [f|d]; [|discriminate].
  destruct (translate exec rest) as [g|d]; [|discriminate].
  intros [= <-]. by exists f, g.
Qed.

Lemma translate_cons st rest f g :
  exec st = WellFormed f -> translate exec rest = WellFormed g ->
  translate exec (st :: rest) =
    WellFormed (fun w => match f w with
                         | None => None
                         | Some (o, w1) =>
                             match g w1 with
                             | None => None
                             | Some (os, w2) => Some (o :: os, w2)
                             end
                         end).
Proof. simpl. by intros -> ->. Qed.

(** One rejected instantiation rejects the program. *)
Lemma translate_ill_formed before st after d :
  exec st = IllFormed d ->
  exists d', translate exec (before ++ st :: after) = IllFormed d'.
Proof.
  intros Hst. induction before as [|st0 before [d' IH]]; simpl.
  - rewrite Hst. eauto.
  - rewrite IH. destruct (exec st0); eauto.
Qed.
End Translate.

Section SBORuns.
Context {Env : Type}.
Implicit Types (w : SBO.World Env) (c : Concept Env) (this other a : addr)
  (st : stmt Env) (prog : list (stmt Env)).

Lemma sbo_compile_steps prog run w os w' :
  SBO.compile prog = WellFormed run -> run w = Some (os, w') ->
  sbo_steps prog w os w'.
Proof.
  unfold SBO.compile. revert run w os w'.
  induction prog as [|st prog IH]; intros run w os w'.
  - intros [= <-] [= <- <-]. constructor.
  - intros (f & g & Hf & Hg & ->)%translate_cons_inv Hrun.
    destruct (f w) as [[o w1]|] eqn:Hfw; [|discriminate].
    destruct (g w1) as [[os' w2]|] eqn:Hgw; [|discriminate].
    injection Hrun as <- <-.
    econstructor; [by eapply sbo_exec_step | by eapply IH].
Qed.

(** *** Where a valueless box comes from, and where it goes *)

Lemma sbo_step_valueless_origin st w o w' a :
  sbo_step st w o w' ->
  SBO.objects w' !! a = Some None ->
  SBO.objects w !! a = Some None \/
  exists other x, assigns st a other /\ o = Caught x.
Proof.
  intros Hstep. destruct Hstep; simpl; intros Ha; auto.
  - left. destruct (decide (fresh (dom (SBO.objects w)) = a)) as [<-|Hne].
    + by rewrite lookup_insert_eq in Ha.
    + by rewrite lookup_insert_ne in Ha.
  - left. destruct (decide (fresh (dom (SBO.objects w)) = a)) as [<-|Hne].
    + by rewrite lookup_insert_eq in Ha.
    + by rewrite lookup_insert_ne in Ha.
  - left. destruct (decide (this = a)) as [<-|Hne].
    + by rewrite lookup_insert_eq in Ha.
    + by rewrite lookup_insert_ne in Ha.
  - destruct (decide (this = a)) as [<-|Hne].
    + right. eauto.
    + left. by rewrite lookup_insert_ne in Ha.
  - left. destruct (decide (this = a)) as [<-|Hne].
    + by rewrite lookup_delete_eq in Ha.
    + by rewrite lookup_delete_ne in Ha.
Qed.

Lemma sbo_fresh_not_live w a b :
  SBO.objects w !! a = Some b -> fresh (dom (SBO.objects w)) <> a.
Proof.
  intros Ha <-. apply (is_fresh (dom (SBO.objects w))).
  apply elem_of_dom. eauto.
Qed.

(** No defined statement touches a valueless box. *)
Lemma sbo_step_valueless_stays st w o w' a :
  sbo_step st w o w' ->
  SBO.objects w !! a = Some None ->
  SBO.objects w' !! a = Some None.
Proof.
  intros Hstep Ha. destruct Hstep; simpl; auto.
  - rewrite lookup_insert_ne; [done|]. by eapply sbo_fresh_not_live.
  - rewrite lookup_insert_ne; [done|]. by eapply sbo_fresh_not_live.
  - rewrite lookup_insert_ne; [done|]. congruence.
  - rewrite lookup_insert_ne; [done|]. congruence.
  - rewrite lookup_delete_ne; [done|]. congruence.
Qed.

Lemma sbo_steps_valueless_stays prog w os w' a :
  sbo_steps prog w os w' ->
  SBO.objects w !! a = Some None ->
  SBO.objects w' !! a = Some None.
Proof.
  induction 1 as [|st prog w o w1 os w2 Hstep _ IH]; [done|].
  intros Ha. apply IH. by eapply sbo_step_valueless_stays.
Qed.

Lemma sbo_steps_valueless_origin prog w os w' a :
  sbo_steps prog w os w' ->
  SBO.objects w' !! a = Some None ->
  SBO.objects w !! a = Some None \/
  exists i st other x,
    prog !! i = Some st /\ assigns st a other /\ os !! i = Some (Caught x).
Proof.
  induction 1 as [|st prog w o w1 os w2 Hstep _ IH]; [by left|].
  intros Ha. destruct (IH Ha) as [Ha1|(i & st' & other & x & Hi & Hst & Ho)].
  - destruct (sbo_step_valueless_origin _ _ _ _ _ Hstep Ha1)
      as [Ha0|(other & x & Hst & ->)]; [by left|].
    right. by exists 0, st, other, x.
  - right. by exists (S i), st', other, x.
Qed.
End SBORuns.

(** ** Capacity *)

Section Capacity.
Context {Env ShapeT DrawStrategy SerializationStrategy : Type}.
Context `{!CopyConstructible Env ShapeT, !CopyConstructible Env DrawStrategy,
          !CopyConstructible Env SerializationStrategy,
          !Invocable Env DrawStrategy ShapeT unit,
          !Invocable Env SerializationStrategy ShapeT string,
          !ModelLayout ShapeT DrawStrategy SerializationStrategy}.

(** C2. If [sizeof(Model<...>)] exceeds 128 or [alignof(Model<...>)]
    exceeds 16, the inline constructor is rejected when instantiated, and
    so is every program that declares such a box: nothing runs, so no
    buffer is written.  Within the bounds the constructor exists, and a
    call of it that completes leaves exactly the model built from its
    arguments in the buffer of [this], constructed once; if a member copy
    throws, the exception passes through and no model was placed. *)
Theorem capacity_enforcement :
  ((SBO.buffersize < sizeof_Model)%N \/ (SBO.alignment < alignof_Model)%N ->
     (exists diag,
         SBO.Shape_ctor (Env:=Env) (ShapeT:=ShapeT) (DrawStrategy:=DrawStrategy)
           (SerializationStrategy:=SerializationStrategy) = IllFormed diag) /\
     (forall before after (s : ShapeT) (d : DrawStrategy)
             (z : SerializationStrategy),
         exists diag,
           SBO.compile (before ++ Construct (mkPayload s d z) :: after)
             = IllFormed diag)) /\
  ((sizeof_Model <= SBO.buffersize)%N /\ (alignof_Model <= SBO.alignment)%N ->
     exists ctor,
       SBO.Shape_ctor (Env:=Env) = WellFormed ctor /\
       forall this (s : ShapeT) (d : DrawStrategy) (z : SerializationStrategy) w,
         match Model_ctor s d z (SBO.env w) with
         | (Ok _, e') =>
             ctor this s d z w =
               Return tt
                 (SBO.mkWorld e'
                    (<[this := Some (upcast (mkModel s d z))]> (SBO.objects w))
                    (SBO.log w ++ [ModelConstructed this]))
         | (Throw x, e') =>
             ctor this s d z w =
               Raise x (SBO.mkWorld e' (SBO.objects w) (SBO.log w))
         end).
Proof.
  split.
  - intros Hbig.
    assert (Hrej : exists diag,
        SBO.Shape_ctor (Env:=Env) (ShapeT:=ShapeT) (DrawStrategy:=DrawStrategy)
          (SerializationStrategy:=SerializationStrategy) = IllFormed diag).
    { rewrite sbo_Shape_ctor_cases.
      destruct (_ <=? SBO.buffersize)%N eqn:Hs; [|eauto].
      destruct (_ <=? SBO.alignment)%N eqn:Ha; [|eauto].
      apply N.leb_le in Hs, Ha. lia. }
    split; [exact Hrej|].
    intros before after s d z. destruct Hrej as [diag Hrej].
    unfold SBO.compile. eapply translate_ill_formed. simpl. by rewrite Hrej.
  - intros [Hs Ha]. eexists. split; [by apply sbo_Shape_ctor_fits|].
    intros this s d z w. simpl. rewrite sbo_placement_new_effect.
    destruct (Model_ctor s d z (SBO.env w)) as [[m|x] e'] eqn:Hm;
      unfold ubind; rewrite Hm; simpl; [|reflexivity].
    apply Model_ctor_value in Hm. by subst m.
Qed.
End Capacity.

(** ** Copy assignment of the inline variant *)

Section SBOAssignment.
Context {Env : Type}.
Implicit Types (w : SBO.World Env) (c : Concept Env) (this other a : addr).

(** C3. Copy assignment of the inline box destroys the target's model,
    then clones the source's model into the emptied buffer.  When the
    clone throws, the exception leaves the target without a model.  In a
    run from the empty store, a box without a model is always the target
    of an earlier assignment that threw. *)
Theorem sbo_copy_assignment_failure_state :
  (forall this other w ct co,
      this <> other ->
      SBO.objects w !! this = Some (Some ct) ->
      SBO.objects w !! other = Some (Some co) ->
      match copy_of co (SBO.env w) with
      | (Ok _, e') =>
          SBO.Shape_assign this other w =
            Return tt
              (SBO.mkWorld e' (<[this := Some co]> (SBO.objects w))
                 (SBO.log w ++ [ModelDestroyed this; ModelConstructed this]))
      | (Throw x, e') =>
          SBO.Shape_assign this other w =
            Raise x
              (SBO.mkWorld e' (<[this := None]> (SBO.objects w))
                 (SBO.log w ++ [ModelDestroyed this]))
      end) /\
  (forall prog run (e : Env) os w' a,
      SBO.compile prog = WellFormed run ->
      run (SBO.empty_world e) = Some (os, w') ->
      SBO.objects w' !! a = Some None ->
      exists i st other x,
        prog !! i = Some st /\ assigns st a other /\
        os !! i = Some (Caught x)).
Proof.
  split.
  - intros this other w ct co Hne Ht Ho.
    rewrite (sbo_Shape_assign_effect _ _ _ _ _ Hne Ht Ho).
    destruct (copy_of co (SBO.env w)) as [[c|x] e'] eqn:Hc; [|done].
    apply copy_of_value in Hc. by subst c.
  - intros prog run e os w' a Hc Hrun Ha.
    pose proof (sbo_compile_steps _ _ _ _ _ Hc Hrun) as Hsteps.
    destruct (sbo_steps_valueless_origin _ _ _ _ _ Hsteps Ha) as [H0|H]; [|done].
    simpl in H0. by rewrite lookup_empty in H0.
Qed.

(** C6, as the code has it: [b = b] on the inline box is undefined.  The
    destructor call has ended the model's lifetime by the time [clone] is
    called on it. *)
Theorem sbo_self_assignment_undefined w b :
  SBO.Shape_assign b b w = Undefined /\
  (forall c, SBO.objects w !! b = Some (Some c) ->
     exists w1,
       SBO.destroy_at (SBO.pimpl b) w = Return tt w1 /\
       SBO.objects w1 !! b = Some None /\
       SBO.deref (SBO.pimpl b) w1 = Undefined).
Proof.
  split; [apply sbo_Shape_assign_self|].
  intros c Hb. eexists. split; [by apply (sbo_destroy_at_live _ c)|].
  assert (Hnone : (<[b := None]> (SBO.objects w) : gmap nat _) !! b = Some None)
    by apply lookup_insert_eq.
  split; [exact Hnone|]. apply sbo_deref_dead. by right.
Qed.
End SBOAssignment.

(** ** Constructions and destructions of a run of the inline variant *)

Section SBOBalance.
Context {Env : Type}.
Implicit Types (w : SBO.World Env) (c : Concept Env) (this other a : addr)
  (st : stmt Env) (prog : list (stmt Env)).

Lemma count_snoc f l ev :
  count f (l ++ [ev]) = count f l + (if f ev then 1 else 0).
Proof.
  unfold count. rewrite List.filter_app, length_app. simpl.
  by destruct (f ev).
Qed.

Lemma count_snoc2 f l ev1 ev2 :
  count f (l ++ [ev1; ev2]) =
    count f l + (if f ev1 then 1 else 0) + (if f ev2 then 1 else 0).
Proof.
  change [ev1; ev2] with ([ev1] ++ [ev2]).
  by rewrite app_assoc, !count_snoc.
Qed.

Lemma sbo_fresh_lookup w :
  SBO.objects w !! fresh (dom (SBO.objects w)) = None.
Proof. apply not_elem_of_dom, is_fresh. Qed.

(** What one step adds to the log and to the store. *)
Lemma sbo_step_balance st w o w' :
  sbo_step st w o w' ->
  count is_construction (SBO.log w') =
    count is_construction (SBO.log w)
    + (if is_declared o then 1 else 0)
    + (if is_assignment st && is_done o then 1 else 0) /\
  count is_destruction (SBO.log w') + size (SBO.objects w') =
    count is_destruction (SBO.log w) + size (SBO.objects w)
    + (if is_declared o then 1 else 0)
    + (if is_assignment st && is_done o then 1 else 0)
    + (if is_assignment st && is_caught o then 1 else 0) /\
  size (SBO.objects w') + (if is_destroy st then 1 else 0) =
    size (SBO.objects w) + (if is_declared o then 1 else 0) /\
  count is_heap_traffic (SBO.log w') = count is_heap_traffic (SBO.log w).
Proof.
  intros Hstep.
  destruct Hstep as
    [p w c e' Hfit Hc | p w x e' Hfit Hc
    | st other w co c e' Hst Ho Hc | st other w co x e' Hst Ho Hc
    | st this other w ct co c e' Hst Hne Ht Ho Hc
    | st this other w ct co x e' Hst Hne Ht Ho Hc
    | this w c Ht | this w c s e' Ht Hc | this w c x e' Ht Hc
    | this w c e' Ht Hc | this w c x e' Ht Hc ];
    simpl;
    try (destruct Hst as [-> | ->]; simpl);
    rewrite ?count_snoc, ?count_snoc2; simpl;
    rewrite ?(map_size_insert_None _ _ _ (sbo_fresh_lookup w));
    rewrite ?(map_size_insert_Some this _ (SBO.objects w))
      by (by rewrite Ht);
    try lia.
  rewrite map_size_delete_Some by (by rewrite Ht).
  assert (size (SBO.objects w) <> 0)
    by (apply (map_size_ne_0_lookup_2 _ this); by rewrite Ht).
  lia.
Qed.

Lemma sbo_steps_balance prog w os w' :
  sbo_steps prog w os w' ->
  count is_construction (SBO.log w') =
    count is_construction (SBO.log w)
    + boxes_constructed os + assignments_completed prog os /\
  count is_destruction (SBO.log w') + size (SBO.objects w') =
    count is_destruction (SBO.log w) + size (SBO.objects w)
    + boxes_constructed os + assignments_completed prog os
    + assignments_failed prog os /\
  size (SBO.objects w') + boxes_destroyed prog =
    size (SBO.objects w) + boxes_constructed os /\
  count is_heap_traffic (SBO.log w') = count is_heap_traffic (SBO.log w).
Proof.
  induction 1 as [|st prog w o w1 os w2 Hstep _ IH].
  - unfold boxes_constructed, boxes_destroyed, assignments_completed,
      assignments_failed. simpl. lia.
  - destruct (sbo_step_balance _ _ _ _ Hstep) as (H1 & H2 & H3 & H4).
    destruct IH as (I1 & I2 & I3 & I4).
    unfold boxes_constructed, boxes_destroyed, assignments_completed,
      assignments_failed in *. simpl.
    destruct (is_declared o), (is_destroy st), (is_assignment st),
      (is_done o), (is_caught o); simpl in *; lia.
Qed.

(** A failed assignment leaves a box that no defined statement removes. *)
Lemma sbo_steps_failed_assignment prog w os w' :
  sbo_steps prog w os w' ->
  assignments_failed prog os <> 0 ->
  exists a, SBO.objects w' !! a = Some None.
Proof.
  induction 1 as [|st prog w o w1 os w2 Hstep Hsteps IH]; [done|].
  unfold assignments_failed in *. simpl.
  destruct (is_assignment st && is_caught o) eqn:Hfail.
  - intros _. apply andb_prop in Hfail as [Hst Ho].
    assert (exists a, SBO.objects w1 !! a = Some None) as [a Ha].
    { destruct Hstep; try destruct H as [-> | ->]; try discriminate.
      all: exists this; apply lookup_insert_eq. }
    exists a. by eapply sbo_steps_valueless_stays.
  - simpl. apply IH.
Qed.
End SBOBalance.

Section SBOBalanceClaim.
Context {Env : Type}.
Implicit Types (w : SBO.World Env) (c : Concept Env) (this : addr).

(** C8, amended. [~Shape()] of the inline box runs the stored model's
    destructor once and nothing else; no run of the inline variant calls
    [operator new] or [operator delete].  A run from the empty store that
    leaves no box behind has destroyed as many boxes as it constructed,
    [K], and with [A] completed copy assignments the model type went
    through [K + A] constructions and [K + A] destructions. *)
Theorem sbo_construction_destruction_balance :
  (forall this w c,
      SBO.objects w !! this = Some (Some c) ->
      SBO.Shape_dtor this w =
        Return tt (SBO.mkWorld (SBO.env w) (delete this (SBO.objects w))
                     (SBO.log w ++ [ModelDestroyed this]))) /\
  (forall prog run (e : Env) os w',
      SBO.compile prog = WellFormed run ->
      run (SBO.empty_world e) = Some (os, w') ->
      count is_heap_traffic (SBO.log w') = 0 /\
      (SBO.objects w' = ∅ ->
       boxes_destroyed prog = boxes_constructed os /\
       count is_construction (SBO.log w') =
         boxes_constructed os + assignments_completed prog os /\
       count is_destruction (SBO.log w') =
         boxes_constructed os + assignments_completed prog os)).
Proof.
  split; [intros this w c; apply sbo_Shape_dtor_effect|].
  intros prog run e os w' Hc Hrun.
  pose proof (sbo_compile_steps _ _ _ _ _ Hc Hrun) as Hsteps.
  destruct (sbo_steps_balance _ _ _ _ Hsteps) as (H1 & H2 & H3 & H4).
  simpl in *. rewrite map_size_empty in *. split; [exact H4|].
  intros Hempty.
  assert (Hfail : assignments_failed prog os = 0).
  { destruct (decide (assignments_failed prog os = 0)) as [|Hne]; [done|].
    destruct (sbo_steps_failed_assignment _ _ _ _ Hsteps Hne) as [a Ha].
    by rewrite Hempty, lookup_empty in Ha. }
  rewrite Hempty, map_size_empty in *. unfold count in *. simpl in *. lia.
Qed.
End SBOBalanceClaim.

(** C8 as stated fails on [Demo.assign_program]: the run has no undefined
    behaviour, constructs two boxes and destroys both, and the model type is
    constructed three times and destroyed three times, the third of each by
    the copy assignment. *)
Lemma sbo_exactly_K_counterexample :
  exists run os w',
    SBO.compile Demo.assign_program = WellFormed run /\
    run (SBO.empty_world (Demo.start 0)) = Some (os, w') /\
    SBO.objects w' = ∅ /\
    boxes_constructed os = 2 /\
    boxes_destroyed Demo.assign_program = 2 /\
    count is_construction (SBO.log w') = 3 /\
    count is_destruction (SBO.log w') = 3 /\
    count is_construction (SBO.log w') <> boxes_constructed os /\
    count is_destruction (SBO.log w') <> boxes_constructed os.
Proof.
  destruct (SBO.compile Demo.assign_program) as [run|] eqn:Hc;
    [|vm_compute in Hc; discriminate].
  destruct (run (SBO.empty_world (Demo.start 0))) as [[os w']|] eqn:Hr;
    [|injection Hc as <-; vm_compute in Hr; discriminate].
  exists run, os, w'. split; [reflexivity|]. split; [exact Hr|].
  injection Hc as <-. vm_compute in Hr. injection Hr as <- <-.
  repeat split; try reflexivity; vm_compute; discriminate.
Qed.

(** ** The heap variant: what each member function does *)

Section HeapOps.
Context {Env : Type}.
Implicit Types (w : Heap.World Env) (c : Concept Env) (this other a p : addr)
  (q : option addr).

Lemma heap_fresh_object w :
  Heap.objects w !! fresh (dom (Heap.objects w)) = None.
Proof. apply not_elem_of_dom, is_fresh. Qed.

Lemma heap_fresh_block w :
  Heap.heap w !! fresh (dom (Heap.heap w)) = None.
Proof. apply not_elem_of_dom, is_fresh. Qed.

Lemma heap_fresh_object_ne w a q :
  Heap.objects w !! a = Some q -> fresh (dom (Heap.objects w)) <> a.
Proof. intros Ha <-. by rewrite heap_fresh_object in Ha. Qed.

Lemma heap_fresh_block_ne w p :
  is_Some (Heap.heap w !! p) -> fresh (dom (Heap.heap w)) <> p.
Proof. intros [c Hp] <-. by rewrite heap_fresh_block in Hp. Qed.

Lemma heap_model_of_None w a :
  Heap.model_of w a = None ->
  Heap.objects w !! a = None \/ Heap.objects w !! a = Some None \/
  exists p, Heap.objects w !! a = Some (Some p) /\ Heap.heap w !! p = None.
Proof.
  unfold Heap.model_of. destruct (Heap.objects w !! a) as [[p|]|]; eauto.
Qed.

(** [new M( args )] followed by [pimpl_{ p }]. *)
Lemma heap_emplace_effect this (ctor : User Env (Concept Env)) w :
  obind (Heap.make_unique ctor) (fun p => Heap.init_pimpl_ this (Some p)) w =
    match Heap.free_store w with
    | O => Raise bad_alloc w
    | S n =>
        match ctor (Heap.env w) with
        | (Ok c, e') => Return tt (heap_emplaced this c e' n w)
        | (Throw x, e') => Raise x (heap_unwound e' w)
        end
    end.
Proof.
  unfold obind. rewrite heap_make_unique_effect.
  destruct (Heap.free_store w) as [|n] eqn:Hn; [done|]. simpl.
  destruct (ctor (Heap.env w)) as [[c|x] e']; [done|].
  unfold heap_unwound. by rewrite Hn.
Qed.

Lemma heap_Shape_copy_ctor_effect this other co w :
  Heap.model_of w other = Some co ->
  Heap.Shape_copy_ctor this other w =
    match Heap.free_store w with
    | O => Raise bad_alloc w
    | S n =>
        match copy_of co (Heap.env w) with
        | (Ok c, e') => Return tt (heap_emplaced this c e' n w)
        | (Throw x, e') => Raise x (heap_unwound e' w)
        end
    end.
Proof.
  intros (p & Ho & Hp)%heap_model_of_inv.
  rewrite <- heap_emplace_effect.
  unfold Heap.Shape_copy_ctor, obind, Heap.get_pimpl_, Heap.arrow, Heap.clone.
  by rewrite Ho, Hp.
Qed.

Lemma heap_Shape_copy_ctor_dead this other w :
  Heap.model_of w other = None -> Heap.Shape_copy_ctor this other w = Undefined.
Proof.
  intros [Ho|[Ho|(p & Ho & Hp)]]%heap_model_of_None;
    unfold Heap.Shape_copy_ctor, obind, Heap.get_pimpl_, Heap.arrow;
    rewrite Ho; try done. by rewrite Hp.
Qed.

Lemma heap_dispose_effect q w :
  disposable q w -> Heap.dispose q w = Return tt (heap_disposed q w).
Proof.
  destruct q as [p|]; simpl; [|done].
  intros [c Hp]. unfold Heap.delete_, Heap.operator_delete. rewrite Hp.
  unfold Heap.emit, Heap.with_heap, Heap.with_free_store. simpl.
  by rewrite <- app_assoc.
Qed.

Lemma heap_dispose_dangling p w :
  Heap.heap w !! p = None -> Heap.dispose (Some p) w = Undefined.
Proof. simpl. unfold Heap.delete_. by intros ->. Qed.

Lemma disposable_dec q w :
  disposable q w \/ exists p, q = Some p /\ Heap.heap w !! p = None.
Proof.
  destruct q as [p|]; simpl; [|by left].
  destruct (Heap.heap w !! p) eqn:Hp; eauto.
Qed.

Lemma heap_Shape_dtor_effect this q w :
  Heap.objects w !! this = Some q ->
  disposable q w ->
  Heap.Shape_dtor this w =
    Return tt
      (heap_disposed q
         (Heap.mkWorld (Heap.env w) (delete this (Heap.objects w))
            (Heap.heap w) (Heap.free_store w) (Heap.log w))).
Proof.
  intros Ht Hq. unfold Heap.Shape_dtor, obind, Heap.get_pimpl_. rewrite Ht.
  rewrite (heap_dispose_effect _ _ Hq).
  by destruct q.
Qed.

Lemma heap_Shape_dtor_dead this w :
  Heap.objects w !! this = None -> Heap.Shape_dtor this w = Undefined.
Proof. unfold Heap.Shape_dtor, obind, Heap.get_pimpl_. by intros ->. Qed.

Lemma heap_Shape_dtor_dangling this p w :
  Heap.objects w !! this = Some (Some p) ->
  Heap.heap w !! p = None ->
  Heap.Shape_dtor this w = Undefined.
Proof.
  intros Ht Hp. unfold Heap.Shape_dtor, obind, Heap.get_pimpl_. rewrite Ht.
  by rewrite (heap_dispose_dangling _ _ Hp).
Qed.

Lemma heap_Shape_move_ctor_effect this other q w :
  Heap.objects w !! other = Some q ->
  Heap.Shape_move_ctor this other w =
    Return tt
      (Heap.mkWorld (Heap.env w)
         (<[this := q]> (<[other := None]> (Heap.objects w)))
         (Heap.heap w) (Heap.free_store w) (Heap.log w)).
Proof.
  intros Ho. unfold Heap.Shape_move_ctor, obind, Heap.get_pimpl_,
    Heap.set_pimpl_. rewrite Ho. simpl. by rewrite Ho.
Qed.

Lemma heap_Shape_move_ctor_dead this other w :
  Heap.objects w !! other = None -> Heap.Shape_move_ctor this other w = Undefined.
Proof. unfold Heap.Shape_move_ctor, obind, Heap.get_pimpl_. by intros ->. Qed.

Lemma heap_Shape_move_assign_effect this other qt qo w :
  this <> other ->
  Heap.objects w !! this = Some qt ->
  Heap.objects w !! other = Some qo ->
  Heap.Shape_move_assign this other w =
    Heap.dispose qt
      (Heap.mkWorld (Heap.env w)
         (<[this := qo]> (<[other := None]> (Heap.objects w)))
         (Heap.heap w) (Heap.free_store w) (Heap.log w)).
Proof.
  intros Hne Ht Ho. unfold Heap.Shape_move_assign, obind, Heap.get_pimpl_,
    Heap.set_pimpl_. rewrite Ht, Ho. simpl. rewrite Ho. simpl.
  rewrite lookup_insert_ne by done. rewrite Ht. simpl.
  by rewrite lookup_insert_ne, Ht by done.
Qed.

Lemma heap_Shape_move_assign_self this q w :
  Heap.objects w !! this = Some q ->
  Heap.Shape_move_assign this this w = Return tt w.
Proof.
  intros Ht. unfold Heap.Shape_move_assign, obind, Heap.get_pimpl_,
    Heap.set_pimpl_.
  repeat (rewrite ?Ht, ?lookup_insert_eq; simpl).
  unfold Heap.with_objects. simpl.
  rewrite insert_insert_eq, (insert_id _ _ _ Ht). by destruct w.
Qed.

Lemma heap_Shape_move_assign_dead this other w :
  Heap.objects w !! this = None \/ Heap.objects w !! other = None ->
  Heap.Shape_move_assign this other w = Undefined.
Proof.
  unfold Heap.Shape_move_assign, obind, Heap.get_pimpl_.
  intros [Ht|Ho]; [by rewrite Ht|].
  destruct (Heap.objects w !! this); [|done]. by rewrite Ho.
Qed.
End HeapOps.

Section HeapAssign.
Context {Env : Type}.
Implicit Types (w : Heap.World Env) (c : Concept Env) (this other a p : addr)
  (q : option addr).

(** [tmp] comes and goes: of the three writes to the objects only the one
    to [this] is left. *)
Lemma heap_tmp_gone (o : gmap nat (option nat)) this tmp q q1 q2 :
  o !! tmp = None -> this <> tmp ->
  delete tmp (<[tmp := q2]> (<[this := q]> (<[tmp := q1]> o))) = <[this := q]> o.
Proof.
  intros Htmp Hne.
  rewrite delete_insert_eq, delete_insert_ne by done.
  by rewrite delete_insert_eq, delete_id.
Qed.

Lemma heap_swap_dtor_effect this tmp qt p (W : Heap.World Env) :
  this <> tmp ->
  Heap.objects W !! this = Some qt ->
  Heap.objects W !! tmp = Some (Some p) ->
  obind (Heap.swap this tmp) (fun _ => Heap.Shape_dtor tmp) W =
    match Heap.dispose qt W with
    | Return _ W' =>
        Return tt (Heap.with_objects
                     (delete tmp (<[tmp := qt]> (<[this := Some p]> (Heap.objects W))))
                     W')
    | Raise x W' => Raise x W'
    | Undefined => Undefined
    end.
Proof.
  intros Hne Ht Htmp.
  unfold obind, Heap.swap, obind, Heap.get_pimpl_, Heap.set_pimpl_.
  rewrite Ht. simpl. rewrite Htmp. simpl. rewrite Ht. simpl.
  rewrite lookup_insert_ne by done. rewrite Htmp. simpl.
  unfold Heap.Shape_dtor, obind, Heap.get_pimpl_. simpl.
  rewrite lookup_insert_eq.
  destruct qt as [pt|]; simpl.
  - unfold Heap.delete_. simpl.
    destruct (Heap.heap W !! pt); [|done]. reflexivity.
  - reflexivity.
Qed.

Lemma heap_Shape_assign_effect this other qt co w :
  Heap.objects w !! this = Some qt ->
  Heap.model_of w other = Some co ->
  Heap.Shape_assign this other w =
    match Heap.free_store w with
    | O => Raise bad_alloc w
    | S n =>
        match copy_of co (Heap.env w) with
        | (Ok c, e') => Heap.dispose qt (heap_emplaced this c e' n w)
        | (Throw x, e') => Raise x (heap_unwound e' w)
        end
    end.
Proof.
  intros Ht Hco.
  unfold Heap.Shape_assign. unfold obind at 1, Heap.get_pimpl_ at 1.
  rewrite Ht. unfold obind at 1. unfold obind at 1.
  rewrite (heap_Shape_copy_ctor_effect _ _ _ _ Hco).
  destruct (Heap.free_store w) as [|n]; [done|].
  destruct (copy_of co (Heap.env w)) as [[c|x] e']; [|done].
  pose proof (heap_fresh_object w) as Hfresh.
  pose proof (heap_fresh_object_ne _ _ _ Ht) as Hne.
  set (tmp := fresh (dom (Heap.objects w))) in *.
  rewrite (heap_swap_dtor_effect this tmp qt (fresh (dom (Heap.heap w))));
    [|done| |].
  - destruct qt as [pt|]; simpl.
    + unfold Heap.delete_. simpl.
      destruct (_ !! pt); [|done]. simpl.
      unfold Heap.with_objects. simpl.
      by rewrite heap_tmp_gone.
    + unfold Heap.with_objects, heap_emplaced. simpl.
      by rewrite heap_tmp_gone.
  - simpl. by rewrite lookup_insert_ne.
  - simpl. by rewrite lookup_insert_eq.
Qed.

Lemma heap_Shape_assign_dead this other w :
  Heap.objects w !! this = None -> Heap.Shape_assign this other w = Undefined.
Proof. unfold Heap.Shape_assign, obind, Heap.get_pimpl_. by intros ->. Qed.

Lemma heap_Shape_assign_source_dead this other qt w :
  Heap.objects w !! this = Some qt ->
  Heap.model_of w other = None ->
  Heap.Shape_assign this other w = Undefined.
Proof.
  intros Ht Ho. unfold Heap.Shape_assign.
  unfold obind at 1, Heap.get_pimpl_ at 1. rewrite Ht.
  unfold obind at 1. unfold obind at 1.
  by rewrite (heap_Shape_copy_ctor_dead _ _ _ Ho).
Qed.

Lemma heap_serialize_dead this w :
  Heap.model_of w this = None -> Heap.serialize this w = Undefined.
Proof.
  intros [Ho|[Ho|(p & Ho & Hp)]]%heap_model_of_None;
    unfold Heap.serialize, obind, Heap.get_pimpl_, Heap.arrow;
    rewrite Ho; try done. by rewrite Hp.
Qed.

Lemma heap_free_draw_dead this w :
  Heap.model_of w this = None -> Heap.free_draw this w = Undefined.
Proof.
  intros [Ho|[Ho|(p & Ho & Hp)]]%heap_model_of_None;
    unfold Heap.free_draw, obind, Heap.get_pimpl_, Heap.arrow;
    rewrite Ho; try done. by rewrite Hp.
Qed.
End HeapAssign.

(** ** [Heap.exec] takes the steps of [heap_step] *)

Section HeapExec.
Context {Env : Type}.
Implicit Types (w : Heap.World Env) (c : Concept Env) (this other a p : addr)
  (q : option addr) (st : stmt Env) (prog : list (stmt Env)).

Lemma heap_exec_step st f w o w' :
  Heap.exec st = WellFormed f -> f w = Some (o, w') -> heap_step st w o w'.
Proof.
  destruct st as [pl|other|other|this other|this other|this|this|this]; simpl;
    intros [= <-] Hrun.
  - rewrite heap_emplace_effect in Hrun. fold (erased_ctor pl) in Hrun.
    destruct (Heap.free_store w) as [|n] eqn:Hn.
    { injection Hrun as <- <-. by apply heap_construct_bad_alloc. }
    destruct (erased_ctor pl (Heap.env w)) as [[c|x] e'] eqn:Hc;
      simpl in Hrun; injection Hrun as <- <-.
    + by eapply heap_construct.
    + by eapply heap_construct_throws.
  - destruct (Heap.model_of w other) as [co|] eqn:Ho;
      [|by rewrite heap_Shape_copy_ctor_dead in Hrun].
    rewrite (heap_Shape_copy_ctor_effect _ _ _ _ Ho) in Hrun.
    destruct (Heap.free_store w) as [|n] eqn:Hn.
    { injection Hrun as <- <-. by eapply heap_copy_bad_alloc. }
    destruct (copy_of co (Heap.env w)) as [[c|x] e'] eqn:Hc;
      simpl in Hrun; injection Hrun as <- <-.
    + by eapply heap_copy.
    + by eapply heap_copy_throws.
  - destruct (Heap.objects w !! other) as [q|] eqn:Ho;
      [|by rewrite heap_Shape_move_ctor_dead in Hrun].
    rewrite (heap_Shape_move_ctor_effect _ _ _ _ Ho) in Hrun.
    injection Hrun as <- <-. by apply heap_move.
  - destruct (Heap.objects w !! this) as [qt|] eqn:Ht;
      [|by rewrite heap_Shape_assign_dead in Hrun].
    destruct (Heap.model_of w other) as [co|] eqn:Ho;
      [|by rewrite (heap_Shape_assign_source_dead _ _ _ _ Ht) in Hrun].
    rewrite (heap_Shape_assign_effect _ _ _ _ _ Ht Ho) in Hrun.
    destruct (Heap.free_store w) as [|n] eqn:Hn.
    { injection Hrun as <- <-. by eapply heap_assign_bad_alloc. }
    destruct (copy_of co (Heap.env w)) as [[c|x] e'] eqn:Hc;
      [|simpl in Hrun; injection Hrun as <- <-; by eapply heap_assign_throws].
    destruct (disposable_dec qt (heap_emplaced this c e' n w))
      as [Hq|(pt & -> & Hpt)].
    + rewrite (heap_dispose_effect _ _ Hq) in Hrun.
      injection Hrun as <- <-. by eapply heap_assign.
    + by rewrite (heap_dispose_dangling _ _ Hpt) in Hrun.
  - destruct (decide (this = other)) as [->|Hne].
    { destruct (Heap.objects w !! other) as [q|] eqn:Ho;
        [|rewrite heap_Shape_move_assign_dead in Hrun by auto; done].
      rewrite (heap_Shape_move_assign_self _ _ _ Ho) in Hrun.
      injection Hrun as <- <-. by eapply heap_move_assign_self. }
    destruct (Heap.objects w !! this) as [qt|] eqn:Ht;
      [|rewrite heap_Shape_move_assign_dead in Hrun by auto; done].
    destruct (Heap.objects w !! other) as [qo|] eqn:Ho;
      [|rewrite heap_Shape_move_assign_dead in Hrun by auto; done].
    rewrite (heap_Shape_move_assign_effect _ _ _ _ _ Hne Ht Ho) in Hrun.
    destruct (disposable_dec qt w) as [Hq|(pt & -> & Hpt)].
    + rewrite heap_dispose_effect in Hrun by exact Hq.
      injection Hrun as <- <-. by eapply heap_move_assign.
    + by rewrite heap_dispose_dangling in Hrun.
  - destruct (Heap.objects w !! this) as [q|] eqn:Ht;
      [|by rewrite heap_Shape_dtor_dead in Hrun].
    destruct (disposable_dec q w) as [Hq|(pt & -> & Hpt)].
    + rewrite (heap_Shape_dtor_effect _ _ _ Ht Hq) in Hrun.
      injection Hrun as <- <-. by eapply heap_destroy.
    + by rewrite (heap_Shape_dtor_dangling _ _ _ Ht Hpt) in Hrun.
  - destruct (Heap.model_of w this) as [c|] eqn:Ht;
      [|by rewrite heap_serialize_dead in Hrun].
    rewrite (heap_serialize_live _ _ _ Ht) in Hrun. unfold Heap.call in Hrun.
    destruct (do_serialize c (Heap.env w)) as [[s|x] e'] eqn:Hc;
      simpl in Hrun; injection Hrun as <- <-.
    + by eapply heap_serialize.
    + by eapply heap_serialize_throws.
  - destruct (Heap.model_of w this) as [c|] eqn:Ht;
      [|by rewrite heap_free_draw_dead in Hrun].
    rewrite (heap_free_draw_live _ _ _ Ht) in Hrun. unfold Heap.call in Hrun.
    destruct (do_draw c (Heap.env w)) as [[[]|x] e'] eqn:Hc;
      simpl in Hrun; injection Hrun as <- <-.
    + by eapply heap_draw.
    + by eapply heap_draw_throws.
Qed.

Lemma heap_compile_steps prog run w os w' :
  Heap.compile prog = WellFormed run -> run w = Some (os, w') ->
  heap_steps prog w os w'.
Proof.
  unfold Heap.compile. revert run w os w'.
  induction prog as [|st prog IH]; intros run w os w'.
  - intros [= <-] [= <- <-]. constructor.
  - intros (f & g & Hf & Hg & ->)%translate_cons_inv Hrun.
    destruct (f w) as [[o w1]|] eqn:Hfw; [|discriminate].
    destruct (g w1) as [[os' w2]|] eqn:Hgw; [|discriminate].
    injection Hrun as <- <-.
    econstructor; [by eapply heap_exec_step | by eapply IH].
Qed.
End HeapExec.

(** ** Exclusive ownership on the heap *)

Section HeapOwnership.
Context {Env : Type}.
Implicit Types (w : Heap.World Env) (c : Concept Env) (this other a b p : addr)
  (q : option addr) (st : stmt Env) (prog : list (stmt Env)).

Lemma heap_wf_empty (e : Env) blocks : heap_wf (Heap.empty_world e blocks).
Proof. split; simpl; intros *; by rewrite lookup_empty. Qed.

Lemma heap_wf_same w w' :
  Heap.objects w' = Heap.objects w -> Heap.heap w' = Heap.heap w ->
  heap_wf w -> heap_wf w'.
Proof. unfold heap_wf. by intros -> ->. Qed.

Lemma heap_wf_emplaced this c e' n w :
  heap_wf w -> heap_wf (heap_emplaced this c e' n w).
Proof.
  intros [Hlive Huniq]. pose proof (heap_fresh_block w) as Hfresh.
  set (pn := fresh (dom (Heap.heap w))) in *.
  assert (Hold : forall a, Heap.objects w !! a <> Some (Some pn)).
  { intros a Ha. destruct (Hlive _ _ Ha) as [c' Hc']. congruence. }
  split; simpl; fold pn.
  - intros a p. rewrite lookup_insert. case_decide as Ha.
    + intros [= <-]. rewrite lookup_insert_eq. eauto.
    + intros Hp. rewrite lookup_insert_ne; [by eapply Hlive|].
      intros <-. by eapply Hold.
  - intros a b p. rewrite !lookup_insert.
    repeat case_decide; subst; try done.
    + intros [= <-] Hb. by destruct (Hold b).
    + intros Ha [= <-]. by destruct (Hold a).
    + apply Huniq.
Qed.

(** Freeing a block nobody points at keeps the others owned. *)
Lemma heap_wf_disposed q w :
  heap_wf w ->
  (forall a p, q = Some p -> Heap.objects w !! a <> Some (Some p)) ->
  heap_wf (heap_disposed q w).
Proof.
  intros [Hlive Huniq] Hfree. destruct q as [pt|]; [|done].
  split; simpl; [|exact Huniq].
  intros a p Ha. rewrite lookup_delete_ne; [by eapply Hlive|].
  intros <-. by eapply Hfree.
Qed.

(** Two owners of one block are one box. *)
Ltac own Huniq :=
  repeat intro; simplify_eq; try done;
  first
    [ by eapply Huniq
    | exfalso;
      match goal with
      | Ha : Heap.objects ?w !! ?a = Some (Some ?p),
        Hb : Heap.objects ?w !! ?b = Some (Some ?p),
        Hn : ?a <> ?b |- _ => exact (Hn (Huniq _ _ _ Ha Hb))
      | Ha : Heap.objects ?w !! ?a = Some (Some ?p),
        Hb : Heap.objects ?w !! ?b = Some (Some ?p),
        Hn : ?b <> ?a |- _ => exact (Hn (Huniq _ _ _ Hb Ha))
      end ].

Lemma heap_wf_moved this other qo w :
  heap_wf w ->
  this <> other ->
  Heap.objects w !! other = Some qo ->
  heap_wf (Heap.mkWorld (Heap.env w)
             (<[this := qo]> (<[other := None]> (Heap.objects w)))
             (Heap.heap w) (Heap.free_store w) (Heap.log w)).
Proof.
  intros [Hlive Huniq] Hne Ho. split; simpl.
  - intros a p. rewrite !lookup_insert. repeat case_decide; subst; try done.
    + intros [= ->]. by eapply Hlive.
    + apply Hlive.
  - intros a b p. rewrite !lookup_insert.
    repeat case_decide; subst; try done; own Huniq.
Qed.

Lemma heap_step_wf st w o w' :
  heap_step st w o w' -> heap_wf w -> heap_wf w'.
Proof.
  intros Hstep Hwf. pose proof Hwf as [Hlive Huniq].
  destruct Hstep as
    [pl w n c e' Hn Hc | pl w Hn | pl w n x e' Hn Hc
    | other w co n c e' Ho Hn Hc | other w co Ho Hn | other w co n x e' Ho Hn Hc
    | other w q Ho
    | this other w qt co n c e' Ht Ho Hn Hc Hq
    | this other w qt co Ht Ho Hn
    | this other w qt co n x e' Ht Ho Hn Hc
    | this other w qt qo Hne Ht Ho Hq
    | this w q Ht
    | this w q Ht Hq
    | this w c s e' Ht Hc | this w c x e' Ht Hc
    | this w c e' Ht Hc | this w c x e' Ht Hc ];
    try done;
    try (by apply heap_wf_emplaced);
    try (by eapply heap_wf_same; [| |exact Hwf]).
  - (* move construction *)
    apply heap_wf_moved; [done| |done].
    by apply (heap_fresh_object_ne _ _ q).
  - (* copy assignment *)
    apply heap_wf_disposed; [by apply heap_wf_emplaced|].
    intros a p -> . simpl. rewrite lookup_insert. case_decide as Ha.
    + intros [= Hp]. destruct (Hlive _ _ Ht) as [c' Hc'].
      rewrite <- Hp, heap_fresh_block in Hc'. done.
    + own Huniq.
  - (* move assignment *)
    apply heap_wf_disposed; [by apply heap_wf_moved|].
    intros a p ->. simpl. rewrite !lookup_insert.
    repeat case_decide; subst; try done; own Huniq.
  - (* destruction *)
    apply heap_wf_disposed.
    + split; simpl.
      * intros a p. rewrite lookup_delete. case_decide; [done|]. apply Hlive.
      * intros a b p. rewrite !lookup_delete. repeat case_decide; try done.
        apply Huniq.
    + intros a p ->. simpl. rewrite lookup_delete. case_decide as Ha; [done|].
      own Huniq.
Qed.


End HeapOwnership.

(** ** Copies are independent *)

Section SBOFrame.
Context {Env : Type}.
Implicit Types (w : SBO.World Env) (c : Concept Env) (this other a : addr)
  (st : stmt Env) (prog : list (stmt Env)).





End SBOFrame.

Section HeapFrame.
Context {Env : Type}.
Implicit Types (w : Heap.World Env) (c : Concept Env) (this other a b p : addr)
  (q : option addr) (st : stmt Env) (prog : list (stmt Env)).





Lemma heap_calls_visible w1 w2 a :
  Heap.model_of w1 a = Heap.model_of w2 a ->
  Heap.env w1 = Heap.env w2 ->
  heap_visible (Heap.serialize a w1) = heap_visible (Heap.serialize a w2) /\
  heap_visible (Heap.free_draw a w1) = heap_visible (Heap.free_draw a w2).
Proof.
  intros Ho He.
  destruct (Heap.model_of w2 a) as [c|] eqn:H2.
  - rewrite (heap_serialize_live _ _ _ Ho), (heap_serialize_live _ _ _ H2).
    rewrite (heap_free_draw_live _ _ _ Ho), (heap_free_draw_live _ _ _ H2).
    unfold Heap.call. rewrite He.
    destruct (do_serialize c (Heap.env w2)) as [[s|x] e1];
      destruct (do_draw c (Heap.env w2)) as [[[]|y] e2]; done.
  - by rewrite !heap_serialize_dead, !heap_free_draw_dead.
Qed.


End HeapFrame.

Section CopyIndependence.
Context {Env : Type}.

End CopyIndependence.


(** ** Copy assignment on the heap *)

Section HeapAssignment.
Context {Env : Type}.
Implicit Types (w : Heap.World Env) (c : Concept Env) (this other a p : addr).

(** C4. An exception out of the heap box's copy assignment comes from the
    clone, and leaves every box, every model and the free store as they
    were: the target still holds its previous model, and [serialize()] and
    [free_draw] show what they showed.  The clone raises when the free
    store is exhausted or a member copy throws. *)
Theorem heap_copy_assignment_atomic :
  (forall this other w x w',
      Heap.Shape_assign this other w = Raise x w' ->
      Heap.objects w' = Heap.objects w /\
      Heap.heap w' = Heap.heap w /\
      Heap.free_store w' = Heap.free_store w /\
      forall a,
        Heap.model_of w' a = Heap.model_of w a /\
        forall e,
          heap_visible (Heap.serialize a (Heap.with_env e w')) =
            heap_visible (Heap.serialize a (Heap.with_env e w)) /\
          heap_visible (Heap.free_draw a (Heap.with_env e w')) =
            heap_visible (Heap.free_draw a (Heap.with_env e w))) /\
  (forall this other w qt co,
      Heap.objects w !! this = Some qt ->
      Heap.model_of w other = Some co ->
      (Heap.free_store w = 0 ->
         Heap.Shape_assign this other w = Raise bad_alloc w) /\
      (forall n x e',
         Heap.free_store w = S n ->
         copy_of co (Heap.env w) = (Throw x, e') ->
         Heap.Shape_assign this other w = Raise x (heap_unwound e' w))).
Proof.
  split.
  - intros this other w x w' Hrun.
    assert (Hkeep : Heap.objects w' = Heap.objects w /\
                    Heap.heap w' = Heap.heap w /\
                    Heap.free_store w' = Heap.free_store w).
    { destruct (Heap.objects w !! this) as [qt|] eqn:Ht;
        [|by rewrite heap_Shape_assign_dead in Hrun].
      destruct (Heap.model_of w other) as [co|] eqn:Ho;
        [|by rewrite (heap_Shape_assign_source_dead _ _ _ _ Ht) in Hrun].
      rewrite (heap_Shape_assign_effect _ _ _ _ _ Ht Ho) in Hrun.
      destruct (Heap.free_store w) as [|n] eqn:Hn.
      { injection Hrun as _ <-. by rewrite Hn. }
      destruct (copy_of co (Heap.env w)) as [[c|y] e'] eqn:Hc.
      - destruct (disposable_dec qt (heap_emplaced this c e' n w))
          as [Hq|(pt & -> & Hpt)].
        + by rewrite (heap_dispose_effect _ _ Hq) in Hrun.
        + by rewrite (heap_dispose_dangling _ _ Hpt) in Hrun.
      - injection Hrun as _ <-. simpl. by rewrite Hn. }
    destruct Hkeep as (Hobj & Hheap & Hfree).
    repeat split; try done.
    + unfold Heap.model_of. by rewrite Hobj, Hheap.
    + apply heap_calls_visible; [|done].
      unfold Heap.model_of. simpl. by rewrite Hobj, Hheap.
    + apply heap_calls_visible; [|done].
      unfold Heap.model_of. simpl. by rewrite Hobj, Hheap.
  - intros this other w qt co Ht Ho. split.
    + intros Hn. rewrite (heap_Shape_assign_effect _ _ _ _ _ Ht Ho).
      by rewrite Hn.
    + intros n x e' Hn Hc. rewrite (heap_Shape_assign_effect _ _ _ _ _ Ht Ho).
      by rewrite Hn, Hc.
Qed.
End HeapAssignment.

(** ** Moved-from boxes on the heap *)

Section HeapMove.
Context {Env : Type}.
Implicit Types (w : Heap.World Env) (c : Concept Env) (this other a p : addr).

(** C10. The defaulted move operations of the heap box hand the model
    pointer over and leave the source holding a null pointer.  On such a
    box [serialize()] and [free_draw] dereference null, and so does copying
    from it; destroying it and assigning to it are defined. *)
Theorem heap_moved_from_state :
  (forall this other q w,
      Heap.objects w !! this = None ->
      Heap.objects w !! other = Some q ->
      exists w',
        Heap.Shape_move_ctor this other w = Return tt w' /\
        Heap.objects w' !! this = Some q /\
        Heap.objects w' !! other = Some None /\
        Heap.heap w' = Heap.heap w) /\
  (forall this other qt qo w,
      this <> other ->
      Heap.objects w !! this = Some qt ->
      Heap.objects w !! other = Some qo ->
      disposable qt w ->
      exists w',
        Heap.Shape_move_assign this other w = Return tt w' /\
        Heap.objects w' !! this = Some qo /\
        Heap.objects w' !! other = Some None) /\
  (forall a w,
      Heap.objects w !! a = Some None ->
      Heap.serialize a w = Undefined /\
      Heap.free_draw a w = Undefined /\
      (forall this, Heap.Shape_copy_ctor this a w = Undefined) /\
      (forall this, Heap.Shape_assign this a w = Undefined)) /\
  (forall a w,
      Heap.objects w !! a = Some None ->
      Heap.Shape_dtor a w =
        Return tt (Heap.mkWorld (Heap.env w) (delete a (Heap.objects w))
                     (Heap.heap w) (Heap.free_store w) (Heap.log w)) /\
      (forall other co n c e',
          Heap.model_of w other = Some co ->
          Heap.free_store w = S n ->
          copy_of co (Heap.env w) = (Ok c, e') ->
          Heap.Shape_assign a other w = Return tt (heap_emplaced a c e' n w)) /\
      (forall other qo,
          a <> other ->
          Heap.objects w !! other = Some qo ->
          Heap.Shape_move_assign a other w =
            Return tt (Heap.mkWorld (Heap.env w)
                         (<[a := qo]> (<[other := None]> (Heap.objects w)))
                         (Heap.heap w) (Heap.free_store w) (Heap.log w)))).
Proof.
  split; [|split; [|split]].
  - intros this other q w Ht Ho. eexists.
    split; [by apply heap_Shape_move_ctor_effect|]. simpl.
    assert (this <> other) by congruence.
    rewrite lookup_insert_eq, lookup_insert_ne, lookup_insert_eq by done. done.
  - intros this other qt qo w Hne Ht Ho Hq. eexists.
    rewrite (heap_Shape_move_assign_effect _ _ _ _ _ Hne Ht Ho).
    split; [by apply heap_dispose_effect|].
    destruct qt; simpl;
      by rewrite lookup_insert_eq, lookup_insert_ne, lookup_insert_eq.
  - intros a w Ha.
    assert (Hm : Heap.model_of w a = None) by (unfold Heap.model_of; by rewrite Ha).
    split; [by apply heap_serialize_dead|].
    split; [by apply heap_free_draw_dead|].
    split; [intros this; by apply heap_Shape_copy_ctor_dead|].
    intros this. destruct (Heap.objects w !! this) as [qt|] eqn:Ht.
    + by eapply heap_Shape_assign_source_dead.
    + by apply heap_Shape_assign_dead.
  - intros a w Ha. split; [|split].
    + by rewrite (heap_Shape_dtor_effect _ _ _ Ha).
    + intros other co n c e' Ho Hn Hc.
      rewrite (heap_Shape_assign_effect _ _ _ _ _ Ha Ho). by rewrite Hn, Hc.
    + intros other qo Hne Ho.
      by rewrite (heap_Shape_move_assign_effect _ _ _ _ _ Hne Ha Ho).
Qed.
End HeapMove.

(** ** The two variants under the shared contract *)

Section Equivalence.
Context {Env : Type}.
Implicit Types (ws : SBO.World Env) (wh : Heap.World Env) (c : Concept Env)
  (this other a p : addr) (st : stmt Env) (prog : list (stmt Env)).

Lemma same_boxes_dom ws wh :
  same_boxes ws wh -> dom (SBO.objects ws) = dom (Heap.objects wh).
Proof.
  intros (_ & _ & Hrel). apply set_eq. intros a. rewrite !elem_of_dom.
  destruct (Hrel a) as [[-> ->]|(c & p & -> & -> & _)]; [done|].
  split; intros _; by eexists.
Qed.

Lemma same_boxes_empty (e : Env) blocks :
  same_boxes (SBO.empty_world e) (Heap.empty_world e blocks).
Proof.
  split; [done|]. split; [apply heap_wf_empty|].
  intros a. left. simpl. by rewrite !lookup_empty.
Qed.

Lemma same_boxes_emplaced ws wh this c e' n l :
  same_boxes ws wh ->
  same_boxes (SBO.mkWorld e' (<[this := Some c]> (SBO.objects ws)) l)
             (heap_emplaced this c e' n wh).
Proof.
  intros (He & Hwf & Hrel). split; [done|].
  split; [by apply heap_wf_emplaced|].
  intros a. simpl. destruct (decide (this = a)) as [<-|Hne].
  - right. exists c, (fresh (dom (Heap.heap wh))).
    by rewrite !lookup_insert_eq.
  - rewrite !lookup_insert_ne by done.
    destruct (Hrel a) as [?|(c' & p & Hs & Hh & Hp)]; [by left|].
    right. exists c', p. rewrite lookup_insert_ne; [done|].
    apply heap_fresh_block_ne. by rewrite Hp.
Qed.

Lemma same_boxes_env ws wh e' l wh' :
  same_boxes ws wh ->
  Heap.env wh' = e' ->
  Heap.objects wh' = Heap.objects wh ->
  Heap.heap wh' = Heap.heap wh ->
  same_boxes (SBO.mkWorld e' (SBO.objects ws) l) wh'.
Proof.
  intros (He & Hwf & Hrel) He' Ho Hh. split; [done|].
  split; [by eapply heap_wf_same|].
  intros a. simpl. rewrite Ho, Hh. apply Hrel.
Qed.

Lemma same_boxes_destroyed ws wh this c p l :
  same_boxes ws wh ->
  SBO.objects ws !! this = Some (Some c) ->
  Heap.objects wh !! this = Some (Some p) ->
  same_boxes
    (SBO.mkWorld (SBO.env ws) (delete this (SBO.objects ws)) l)
    (heap_disposed (Some p)
       (Heap.mkWorld (Heap.env wh) (delete this (Heap.objects wh))
          (Heap.heap wh) (Heap.free_store wh) (Heap.log wh))).
Proof.
  intros (He & Hwf & Hrel) Hs Hh. pose proof Hwf as [Hlive Huniq].
  split; [done|]. split.
  - eapply (heap_step_wf (Destroy this)); [|exact Hwf].
    apply heap_destroy; [done|]. simpl. by eapply Hlive.
  - intros a. simpl. destruct (decide (this = a)) as [<-|Hne].
    + left. by rewrite !lookup_delete_eq.
    + rewrite !lookup_delete_ne by done.
      destruct (Hrel a) as [?|(c' & p' & Hs' & Hh' & Hp')]; [by left|].
      right. exists c', p'. rewrite lookup_delete_ne; [done|].
      intros <-. by apply Hne, (Huniq _ _ _ Hh Hh').
Qed.

(** One statement of the shared contract, run on both variants. *)
Lemma contract_step st f g ws wh :
  shared_contract st ->
  SBO.exec st = WellFormed f ->
  Heap.exec st = WellFormed g ->
  same_boxes ws wh ->
  0 < Heap.free_store wh ->
  match f ws, g wh with
  | Some (o1, ws'), Some (o2, wh') =>
      o1 = o2 /\ same_boxes ws' wh' /\
      Heap.free_store wh <= S (Heap.free_store wh')
  | None, None => True
  | _, _ => False
  end.
Proof.
  intros Hst Hf Hg Hsame Hfree.
  pose proof (same_boxes_dom _ _ Hsame) as Hdom.
  pose proof Hsame as (He & Hwf & Hrel).
  destruct (Heap.free_store wh) as [|n] eqn:Hn; [lia|].
  destruct st as [pl|other|other|this other|this other|this|this|this];
    simpl in Hst; try done; simpl in Hf, Hg.
  - destruct Hst as [Hsz Hal].
    rewrite (sbo_Shape_ctor_fits Hsz Hal) in Hf.
    injection Hf as <-. injection Hg as <-.
    rewrite sbo_placement_new_effect, heap_emplace_effect, Hn, Hdom, He.
    fold (erased_ctor pl).
    destruct (erased_ctor pl (Heap.env wh)) as [[c|x] e'] eqn:Hc; simpl.
    + split; [done|]. split; [by apply same_boxes_emplaced|lia].
    + split; [done|]. split; [by eapply same_boxes_env|]. rewrite Hn. lia.
  - injection Hf as <-. injection Hg as <-. rewrite Hdom.
    destruct (Hrel other) as [[Hs Hh]|(c & p & Hs & Hh & Hp)].
    + rewrite sbo_Shape_copy_ctor_dead by auto.
      rewrite heap_Shape_copy_ctor_dead; [done|].
      unfold Heap.model_of. by rewrite Hh.
    + rewrite (sbo_Shape_copy_ctor_effect _ _ _ _ Hs).
      rewrite (heap_Shape_copy_ctor_effect _ _ c)
        by (by eapply heap_model_of_lookup).
      rewrite Hn, He.
      destruct (copy_of c (Heap.env wh)) as [[c'|x] e'] eqn:Hc; simpl.
      * split; [done|]. split; [by apply same_boxes_emplaced|lia].
      * split; [done|]. split; [by eapply same_boxes_env|]. rewrite Hn. lia.
  - injection Hf as <-. injection Hg as <-.
    destruct (Hrel this) as [[Hs Hh]|(c & p & Hs & Hh & Hp)].
    + rewrite sbo_Shape_dtor_dead by auto.
      by rewrite heap_Shape_dtor_dead.
    + rewrite (sbo_Shape_dtor_effect _ _ _ Hs).
      rewrite (heap_Shape_dtor_effect _ _ _ Hh) by (simpl; by rewrite Hp).
      simpl. split; [done|].
      split; [by eapply same_boxes_destroyed|]. rewrite Hn. lia.
  - injection Hf as <-. injection Hg as <-.
    destruct (Hrel this) as [[Hs Hh]|(c & p & Hs & Hh & Hp)].
    + unfold SBO.serialize, obind, SBO.pimpl.
      rewrite sbo_deref_dead by auto.
      rewrite heap_serialize_dead; [done|].
      unfold Heap.model_of. by rewrite Hh.
    + rewrite (sbo_serialize_live _ _ _ Hs).
      rewrite (heap_serialize_live _ c) by (by eapply heap_model_of_lookup).
      unfold SBO.call, Heap.call. rewrite He.
      destruct (do_serialize c (Heap.env wh)) as [[s|x] e'] eqn:Hc; simpl.
      * split; [done|]. split; [by eapply same_boxes_env|]. rewrite Hn. lia.
      * split; [done|]. split; [by eapply same_boxes_env|]. rewrite Hn. lia.
  - injection Hf as <-. injection Hg as <-.
    destruct (Hrel this) as [[Hs Hh]|(c & p & Hs & Hh & Hp)].
    + unfold SBO.free_draw, obind, SBO.pimpl.
      rewrite sbo_deref_dead by auto.
      rewrite heap_free_draw_dead; [done|].
      unfold Heap.model_of. by rewrite Hh.
    + rewrite (sbo_free_draw_live _ _ _ Hs).
      rewrite (heap_free_draw_live _ c) by (by eapply heap_model_of_lookup).
      unfold SBO.call, Heap.call. rewrite He.
      destruct (do_draw c (Heap.env wh)) as [[[]|x] e'] eqn:Hc; simpl.
      * split; [done|]. split; [by eapply same_boxes_env|]. rewrite Hn. lia.
      * split; [done|]. split; [by eapply same_boxes_env|]. rewrite Hn. lia.
Qed.

Lemma contract_exec_well_formed st :
  shared_contract st ->
  (exists f, SBO.exec st = WellFormed f) /\
  (exists g, Heap.exec st = WellFormed g).
Proof.
  destruct st as [pl|other|other|this other|this other|this|this|this];
    simpl; try done; intros Hst; try (by eauto).
  destruct Hst as [Hsz Hal]. rewrite (sbo_Shape_ctor_fits Hsz Hal). eauto.
Qed.

Lemma contract_runs prog :
  Forall shared_contract prog ->
  exists runS runH,
    SBO.compile prog = WellFormed runS /\
    Heap.compile prog = WellFormed runH /\
    forall ws wh,
      same_boxes ws wh ->
      length prog <= Heap.free_store wh ->
      same_run (runS ws) (runH wh).
Proof.
  unfold SBO.compile, Heap.compile.
  induction prog as [|st prog IH].
  - intros _. do 2 eexists. split; [done|]. split; [done|].
    intros ws wh (He & _) _. by simpl.
  - intros [Hst Hprog]%Forall_cons.
    destruct (IH Hprog) as (runS & runH & HcS & HcH & Hruns).
    destruct (contract_exec_well_formed _ Hst) as [[f Hf] [g Hg]].
    do 2 eexists.
    split; [by apply translate_cons|]. split; [by apply translate_cons|].
    intros ws wh Hsame Hlen. simpl in Hlen. unfold same_run.
    assert (Hpos : 0 < Heap.free_store wh) by lia.
    pose proof (contract_step _ _ _ _ _ Hst Hf Hg Hsame Hpos) as Hstep.
    destruct (f ws) as [[o1 ws1]|], (g wh) as [[o2 wh1]|]; try done.
    destruct Hstep as (-> & Hsame1 & Hfree1).
    assert (Hlen1 : length prog <= Heap.free_store wh1) by lia.
    specialize (Hruns ws1 wh1 Hsame1 Hlen1). unfold same_run in Hruns.
    destruct (runS ws1) as [[os ws2]|], (runH wh1) as [[oh wh2]|]; try done.
    by destruct Hruns as [-> He2].
Qed.

(** C7. A program that declares boxes that fit the inline capacity, copy
    constructs, serializes, draws and destroys them shows the caller the
    same under both variants, as long as the free store does not run out:
    the same addresses declared, the same strings returned, the same
    exceptions, the same output, or undefined behaviour in both. *)
Theorem variants_share_contract :
  forall prog, Forall shared_contract prog ->
    exists runS runH,
      SBO.compile prog = WellFormed runS /\
      Heap.compile prog = WellFormed runH /\
      forall (e : Env) blocks,
        length prog <= blocks ->
        same_run (runS (SBO.empty_world e)) (runH (Heap.empty_world e blocks)).
Proof.
  intros prog Hprog.
  destruct (contract_runs prog Hprog) as (runS & runH & HcS & HcH & Hruns).
  exists runS, runH. split; [done|]. split; [done|].
  intros e blocks Hlen. apply Hruns; [apply same_boxes_empty|done].
Qed.
End Equivalence.

(** * Worked examples

    Each statement above that has premises, run on the example programs. *)

Lemma round_trip_identity_witness :
  SBO.serialize 0 Demo.sbo_circle_box = Return "circle:2.3" Demo.sbo_circle_box /\
  Heap.serialize 0 Demo.heap_circle_box = Return "circle:2.3" Demo.heap_circle_box.
Proof.
  destruct (round_trip_identity (Env:=Demo.Process) (Demo.Circle_ctor "2.3")
              Demo.mkFreeDraw Demo.mkTagSerializer 0) as (HS & HH & _).
  split.
  - refine (proj1 (proj2 (HS _ (SBO.empty_world (Demo.start 0))
                             Demo.sbo_circle_box _ _)));
      [reflexivity | vm_compute; reflexivity].
  - refine (proj1 (proj2 (HH _ (Heap.empty_world (Demo.start 0) 3)
                             Demo.heap_circle_box _ _)));
      [reflexivity | vm_compute; reflexivity].
Defined.

Lemma capacity_enforcement_witness :
  (exists diag,
      SBO.Shape_ctor (Env:=Demo.Process) (ShapeT:=Demo.Blob)
        (DrawStrategy:=Demo.FreeDraw) (SerializationStrategy:=Demo.TagSerializer)
        = IllFormed diag) /\
  (exists diag, SBO.compile [Construct Demo.circle_payload;
                             Construct Demo.blob_payload] = IllFormed diag) /\
  (exists ctor,
      SBO.Shape_ctor (Env:=Demo.Process) = WellFormed ctor /\
      ctor 0 (Demo.Circle_ctor "2.3") Demo.mkFreeDraw Demo.mkTagSerializer
        (SBO.empty_world (Demo.start 0)) = Return tt Demo.sbo_circle_box).
Proof.
  split; [|split].
  - apply (proj1 (capacity_enforcement (Env:=Demo.Process) (ShapeT:=Demo.Blob)
                    (DrawStrategy:=Demo.FreeDraw)
                    (SerializationStrategy:=Demo.TagSerializer))).
    left. vm_compute. reflexivity.
  - refine (proj2 (proj1 (capacity_enforcement (Env:=Demo.Process)
                            (ShapeT:=Demo.Blob) (DrawStrategy:=Demo.FreeDraw)
                            (SerializationStrategy:=Demo.TagSerializer)) _)
              [Construct Demo.circle_payload] [] Demo.mkBlob Demo.mkFreeDraw
              Demo.mkTagSerializer).
    left. vm_compute. reflexivity.
  - destruct (proj2 (capacity_enforcement (Env:=Demo.Process)
                       (ShapeT:=Demo.Circle) (DrawStrategy:=Demo.FreeDraw)
                       (SerializationStrategy:=Demo.TagSerializer)))
      as (ctor & Hctor & Hrun).
    { split; vm_compute; discriminate. }
    exists ctor. split; [exact Hctor|].
    exact (Hrun 0 (Demo.Circle_ctor "2.3") Demo.mkFreeDraw Demo.mkTagSerializer
             (SBO.empty_world (Demo.start 0))).
Defined.

Lemma sbo_copy_assignment_failure_state_witness :
  SBO.Shape_assign 0 1 Demo.sbo_two_boxes =
    Raise (runtime_error "copy budget spent")
      (SBO.mkWorld (Demo.start 0)
         (<[0 := None]> (SBO.objects Demo.sbo_two_boxes))
         [ModelConstructed 0; ModelConstructed 1; ModelDestroyed 0]) /\
  (exists i st other x,
      Demo.failing_assign_program !! i = Some st /\ assigns st 0 other /\
      [Declared 0; Declared 1; Caught (runtime_error "copy budget spent")] !! i
        = Some (Caught x)).
Proof.
  split.
  - exact (proj1 sbo_copy_assignment_failure_state 0 1 Demo.sbo_two_boxes _ _
             ltac:(discriminate) eq_refl eq_refl).
  - eapply (proj2 sbo_copy_assignment_failure_state Demo.failing_assign_program
              _ (Demo.start 1) _ _ 0).
    + reflexivity.
    + vm_compute. reflexivity.
    + vm_compute. reflexivity.
Defined.

Lemma sbo_self_assignment_undefined_witness :
  SBO.Shape_assign 0 0 Demo.sbo_circle_box = Undefined /\
  (exists w1,
      SBO.destroy_at (SBO.pimpl 0) Demo.sbo_circle_box = Return tt w1 /\
      SBO.objects w1 !! 0 = Some None /\
      SBO.deref (SBO.pimpl 0) w1 = Undefined).
Proof.
  destruct (sbo_self_assignment_undefined Demo.sbo_circle_box 0) as [H1 H2].
  split; [exact H1|].
  apply (H2 (model_from Demo.circle_payload)). vm_compute. reflexivity.
Defined.

Lemma heap_copy_assignment_atomic_witness :
  Heap.Shape_assign 0 1 (Demo.heap_two_boxes 0 3) =
    Raise (runtime_error "copy budget spent")
      (heap_unwound (Demo.start 0) (Demo.heap_two_boxes 0 3)) /\
  Heap.model_of (heap_unwound (Demo.start 0) (Demo.heap_two_boxes 0 3)) 0 =
    Heap.model_of (Demo.heap_two_boxes 0 3) 0 /\
  Heap.Shape_assign 0 1 (Demo.heap_two_boxes 1 0) =
    Raise bad_alloc (Demo.heap_two_boxes 1 0).
Proof.
  assert (Hrun : Heap.Shape_assign 0 1 (Demo.heap_two_boxes 0 3) =
                 Raise (runtime_error "copy budget spent")
                   (heap_unwound (Demo.start 0) (Demo.heap_two_boxes 0 3))).
  { vm_compute. reflexivity. }
  split; [exact Hrun|]. split.
  - destruct (proj1 heap_copy_assignment_atomic _ _ _ _ _ Hrun)
      as (_ & _ & _ & H).
    exact (proj1 (H 0)).
  - refine (proj1 (proj2 heap_copy_assignment_atomic 0 1 (Demo.heap_two_boxes 1 0)
                     (Some 0) (model_from Demo.counted_payload) _ _) _);
      vm_compute; reflexivity.
Defined.


Lemma variants_share_contract_witness :
  exists runS runH,
    SBO.compile Demo.scenario_program = WellFormed runS /\
    Heap.compile Demo.scenario_program = WellFormed runH /\
    same_run (runS (SBO.empty_world (Demo.start 0)))
             (runH (Heap.empty_world (Demo.start 0) 8)).
Proof.
  destruct (variants_share_contract (Env:=Demo.Process) Demo.scenario_program)
    as (runS & runH & HS & HH & Hrun).
  { repeat constructor; vm_compute; discriminate. }
  exists runS, runH. split; [exact HS|]. split; [exact HH|].
  apply Hrun. simpl. lia.
Defined.

Lemma sbo_construction_destruction_balance_witness :
  exists run os w',
    SBO.compile Demo.assign_program = WellFormed run /\
    run (SBO.empty_world (Demo.start 0)) = Some (os, w') /\
    SBO.objects w' = ∅ /\
    boxes_constructed os = 2 /\
    assignments_completed Demo.assign_program os = 1 /\
    count is_heap_traffic (SBO.log w') = 0 /\
    boxes_destroyed Demo.assign_program = boxes_constructed os /\
    count is_construction (SBO.log w') =
      boxes_constructed os + assignments_completed Demo.assign_program os /\
    count is_destruction (SBO.log w') =
      boxes_constructed os + assignments_completed Demo.assign_program os.
Proof.
  destruct (SBO.compile Demo.assign_program) as [run|] eqn:Hc;
    [|vm_compute in Hc; discriminate].
  destruct (run (SBO.empty_world (Demo.start 0))) as [[os w']|] eqn:Hr;
    [|injection Hc as <-; vm_compute in Hr; discriminate].
  destruct (proj2 (sbo_construction_destruction_balance (Env:=Demo.Process))
              _ _ _ _ _ Hc Hr) as [Hheap Hbal].
  assert (Hval : os = [Declared 0; Declared 1; Done; Done; Done] /\
                 SBO.objects w' = ∅).
  { injection Hc as <-. vm_compute in Hr. injection Hr as <- <-. done. }
  destruct Hval as [Hos Hempty].
  exists run, os, w'. split; [reflexivity|]. split; [exact Hr|].
  split; [exact Hempty|].
  split; [by rewrite Hos|]. split; [by rewrite Hos|].
  split; [exact Hheap|]. exact (Hbal Hempty).
Defined.

Lemma heap_moved_from_state_witness :
  (exists w',
      Heap.Shape_move_ctor 1 0 Demo.heap_circle_box = Return tt w' /\
      Heap.objects w' !! 1 = Some (Some 0) /\
      Heap.objects w' !! 0 = Some None /\
      Heap.serialize 0 w' = Undefined /\
      Heap.free_draw 0 w' = Undefined /\
      Heap.Shape_copy_ctor 2 0 w' = Undefined /\
      Heap.Shape_dtor 0 w' =
        Return tt (Heap.mkWorld (Heap.env w') (delete 0 (Heap.objects w'))
                     (Heap.heap w') (Heap.free_store w') (Heap.log w'))) /\
  (exists w',
      Heap.Shape_move_assign 0 1 (Demo.heap_two_boxes 0 3) = Return tt w' /\
      Heap.objects w' !! 0 = Some (Some 1) /\
      Heap.objects w' !! 1 = Some None).
Proof.
  destruct (heap_moved_from_state (Env:=Demo.Process))
    as (Hmove & Hmove_assign & Hnull & Hsafe).
  split.
  - destruct (Hmove 1 0 (Some 0) Demo.heap_circle_box)
      as (w' & Hrun & H1 & H0 & _); [vm_compute; reflexivity..|].
    exists w'. split; [exact Hrun|]. split; [exact H1|]. split; [exact H0|].
    destruct (Hnull 0 w' H0) as (Hser & Hdraw & Hcopy & _).
    split; [exact Hser|]. split; [exact Hdraw|]. split; [exact (Hcopy 2)|].
    exact (proj1 (Hsafe 0 w' H0)).
  - apply (Hmove_assign 0 1 (Some 0) (Some 1) (Demo.heap_two_boxes 0 3)).
    + discriminate.
    + vm_compute. reflexivity.
    + vm_compute. reflexivity.
    + vm_compute. eexists. reflexivity.
Defined.

(** * More of the two files

    ** The callers *)

Section StringFacts.
Lemma string_append_assoc (s1 s2 s3 : string) :
  (s1 +:+ s2) +:+ s3 = s1 +:+ (s2 +:+ s3).
Proof.
  induction s1 as [|a s1 IH]; [done|].
  change (String a ((s1 +:+ s2) +:+ s3) = String a (s1 +:+ (s2 +:+ s3))).
  by rewrite IH.
Qed.

Lemma string_append_nil_r (s : string) : s +:+ "" = s.
Proof.
  induction s as [|a s IH]; [done|].
  change (String a (s +:+ "") = String a s). by rewrite IH.
Qed.
End StringFacts.

Section SBOCallers.
Context {Env : Type} `{!Console Env}.
Implicit Types (w : SBO.World Env) (c : Concept Env) (a : addr)
  (shapes : list addr) (models : list (Concept Env)).

Lemma sbo_call_bind {A B} (u : User Env A) (k : A -> User Env B) w :
  obind (SBO.call u) (fun r => SBO.call (k r)) w = SBO.call (ubind u k) w.
Proof.
  unfold obind, SBO.call, ubind.
  destruct (u (SBO.env w)) as [[r|x] e1]; simpl; [|done].
  by destruct (k r e1) as [[b|y] e2].
Qed.

Lemma sbo_holds_with_env w e shapes models :
  sbo_holds w shapes models -> sbo_holds (SBO.with_env e w) shapes models.
Proof. done. Qed.

Lemma sbo_drawAllShapes_models shapes models w :
  sbo_holds w shapes models ->
  SBOShapes.drawAllShapes shapes w = SBO.call (draw_each models) w.
Proof.
  intros Hholds. revert models w Hholds.
  induction shapes as [|a shapes IH]; intros models w Hholds.
  - apply Forall2_nil_inv_l in Hholds as ->. by destruct w.
  - apply Forall2_cons_inv_l in Hholds as (c & models' & Ha & Hrest & ->).
    simpl. rewrite <- sbo_call_bind. unfold obind.
    rewrite (sbo_free_draw_live _ _ _ Ha). unfold SBO.call.
    destruct (do_draw c (SBO.env w)) as [[[]|x] e1]; simpl; [|done].
    by rewrite (IH models' (SBO.with_env e1 w)).
Qed.

Lemma sbo_serialize_loop_models shapes models acc w :
  sbo_holds w shapes models ->
  SBOShapes.serialize_loop shapes acc w = SBO.call (serialize_each models acc) w.
Proof.
  intros Hholds. revert models w acc Hholds.
  induction shapes as [|a shapes IH]; intros models w acc Hholds.
  - apply Forall2_nil_inv_l in Hholds as ->. by destruct w.
  - apply Forall2_cons_inv_l in Hholds as (c & models' & Ha & Hrest & ->).
    simpl. rewrite <- sbo_call_bind. unfold obind.
    rewrite (sbo_serialize_live _ _ _ Ha). unfold SBO.call.
    destruct (do_serialize c (SBO.env w)) as [[s|x] e1]; simpl; [|done].
    by rewrite (IH models' (SBO.with_env e1 w)).
Qed.

(** An element without a model stops the loop with undefined behaviour,
    once the elements before it have been drawn. *)
Lemma sbo_drawAllShapes_dead pre a post models w e' :
  sbo_holds w pre models ->
  SBO.objects w !! a = None \/ SBO.objects w !! a = Some None ->
  draw_each models (SBO.env w) = (Ok tt, e') ->
  SBOShapes.drawAllShapes (pre ++ a :: post) w = Undefined.
Proof.
  intros Hholds. revert models w e' Hholds.
  induction pre as [|b pre IH]; intros models w e' Hholds Ha Hdraw.
  - simpl. unfold obind, SBO.free_draw, obind, SBO.pimpl.
    by rewrite sbo_deref_dead.
  - apply Forall2_cons_inv_l in Hholds as (c & models' & Hb & Hrest & ->).
    simpl in *. unfold obind. rewrite (sbo_free_draw_live _ _ _ Hb).
    unfold SBO.call. unfold ubind in Hdraw.
    destruct (do_draw c (SBO.env w)) as [[[]|x] e1]; [|done].
    by eapply IH.
Qed.
End SBOCallers.

Section HeapCallers.
Context {Env : Type} `{!Console Env}.
Implicit Types (w : Heap.World Env) (c : Concept Env) (a : addr)
  (shapes : list addr) (models : list (Concept Env)).

Lemma heap_call_bind {A B} (u : User Env A) (k : A -> User Env B) w :
  obind (Heap.call u) (fun r => Heap.call (k r)) w = Heap.call (ubind u k) w.
Proof.
  unfold obind, Heap.call, ubind.
  destruct (u (Heap.env w)) as [[r|x] e1]; simpl; [|done].
  by destruct (k r e1) as [[b|y] e2].
Qed.

Lemma heap_drawAllShapes_models shapes models w :
  heap_holds w shapes models ->
  HeapShapes.drawAllShapes shapes w = Heap.call (draw_each models) w.
Proof.
  intros Hholds. revert models w Hholds.
  induction shapes as [|a shapes IH]; intros models w Hholds.
  - apply Forall2_nil_inv_l in Hholds as ->. by destruct w.
  - apply Forall2_cons_inv_l in Hholds as (c & models' & Ha & Hrest & ->).
    simpl. rewrite <- heap_call_bind. unfold obind.
    rewrite (heap_free_draw_live _ _ _ Ha). unfold Heap.call.
    destruct (do_draw c (Heap.env w)) as [[[]|x] e1]; simpl; [|done].
    by rewrite (IH models' (Heap.with_env e1 w)).
Qed.

Lemma heap_serialize_loop_models shapes models acc w :
  heap_holds w shapes models ->
  HeapShapes.serialize_loop shapes acc w = Heap.call (serialize_each models acc) w.
Proof.
  intros Hholds. revert models w acc Hholds.
  induction shapes as [|a shapes IH]; intros models w acc Hholds.
  - apply Forall2_nil_inv_l in Hholds as ->. by destruct w.
  - apply Forall2_cons_inv_l in Hholds as (c & models' & Ha & Hrest & ->).
    simpl. rewrite <- heap_call_bind. unfold obind.
    rewrite (heap_serialize_live _ _ _ Ha). unfold Heap.call.
    destruct (do_serialize c (Heap.env w)) as [[s|x] e1]; simpl; [|done].
    by rewrite (IH models' (Heap.with_env e1 w)).
Qed.

Lemma heap_drawAllShapes_dead pre a post models w e' :
  heap_holds w pre models ->
  Heap.model_of w a = None ->
  draw_each models (Heap.env w) = (Ok tt, e') ->
  HeapShapes.drawAllShapes (pre ++ a :: post) w = Undefined.
Proof.
  intros Hholds. revert models w e' Hholds.
  induction pre as [|b pre IH]; intros models w e' Hholds Ha Hdraw.
  - simpl. unfold obind. by rewrite heap_free_draw_dead.
  - apply Forall2_cons_inv_l in Hholds as (c & models' & Hb & Hrest & ->).
    simpl in *. unfold obind. rewrite (heap_free_draw_live _ _ _ Hb).
    unfold Heap.call. unfold ubind in Hdraw.
    destruct (do_draw c (Heap.env w)) as [[[]|x] e1]; [|done].
    by eapply IH.
Qed.
End HeapCallers.

Section CallerProperties.
Context {Env : Type} `{!Console Env}.

Lemma serialize_each_pure (models : list (Concept Env)) (texts : list string) :
  Forall2 (fun c s => forall e, do_serialize c e = (Ok s, e)) models texts ->
  forall acc (e : Env),
    serialize_each models acc e = (Ok (acc +:+ foldr String.append "" texts), e).
Proof.
  induction 1 as [|c s models texts Hc _ IH]; intros acc e; simpl.
  - by rewrite string_append_nil_r.
  - unfold ubind. rewrite Hc, IH. by rewrite string_append_assoc.
Qed.

(** X1. [drawAllShapes] is the draw strategies of the stored models called in
    the order of the vector on the stored shapes, and nothing else: it stops
    at the first strategy that throws and passes the exception on, and it
    leaves every box as it was.  No element is checked: an element without
    a model (valueless, destroyed, moved from) makes the call undefined once
    the elements before it have been drawn. *)
Theorem drawAllShapes_in_order :
  (forall shapes models (w : SBO.World Env),
      sbo_holds w shapes models ->
      SBOShapes.drawAllShapes shapes w = SBO.call (draw_each models) w) /\
  (forall shapes models (w : Heap.World Env),
      heap_holds w shapes models ->
      HeapShapes.drawAllShapes shapes w = Heap.call (draw_each models) w) /\
  (forall pre a post models (w : SBO.World Env) e',
      sbo_holds w pre models ->
      SBO.objects w !! a = None \/ SBO.objects w !! a = Some None ->
      draw_each models (SBO.env w) = (Ok tt, e') ->
      SBOShapes.drawAllShapes (pre ++ a :: post) w = Undefined) /\
  (forall pre a post models (w : Heap.World Env) e',
      heap_holds w pre models ->
      Heap.model_of w a = None ->
      draw_each models (Heap.env w) = (Ok tt, e') ->
      HeapShapes.drawAllShapes (pre ++ a :: post) w = Undefined).
Proof.
  split; [exact sbo_drawAllShapes_models|].
  split; [exact heap_drawAllShapes_models|].
  split; [exact sbo_drawAllShapes_dead|exact heap_drawAllShapes_dead].
Qed.

(** X2. [serializeAllShapes] calls the serialization strategies of the
    stored models in the order of the vector and prints one line,
    [Serialized shapes: "..."], with the results concatenated in that order.
    The line is printed after the loop: if a strategy throws, the exception
    passes through and nothing is printed.  With strategies that only
    return their text the console gets exactly that one line. *)
Theorem serializeAllShapes_in_order :
  (forall shapes models (w : SBO.World Env),
      sbo_holds w shapes models ->
      SBOShapes.serializeAllShapes shapes w =
        SBO.call (ubind (serialize_each models "")
                        (fun s => cout_write (serialized_line s))) w) /\
  (forall shapes models (w : Heap.World Env),
      heap_holds w shapes models ->
      HeapShapes.serializeAllShapes shapes w =
        Heap.call (ubind (serialize_each models "")
                         (fun s => cout_write (serialized_line s))) w) /\
  (forall shapes models (w : SBO.World Env) x e',
      sbo_holds w shapes models ->
      serialize_each models "" (SBO.env w) = (Throw x, e') ->
      SBOShapes.serializeAllShapes shapes w = Raise x (SBO.with_env e' w)) /\
  (forall shapes models texts (w : SBO.World Env),
      sbo_holds w shapes models ->
      Forall2 (fun c s => forall e, do_serialize c e = (Ok s, e)) models texts ->
      SBOShapes.serializeAllShapes shapes w =
        Return tt
          (SBO.with_env
             (cout_put (serialized_line (foldr String.append "" texts)) (SBO.env w))
             w)) /\
  (forall shapes models texts (w : Heap.World Env),
      heap_holds w shapes models ->
      Forall2 (fun c s => forall e, do_serialize c e = (Ok s, e)) models texts ->
      HeapShapes.serializeAllShapes shapes w =
        Return tt
          (Heap.with_env
             (cout_put (serialized_line (foldr String.append "" texts)) (Heap.env w))
             w)).
Proof.
  assert (HS : forall shapes models (w : SBO.World Env),
      sbo_holds w shapes models ->
      SBOShapes.serializeAllShapes shapes w =
        SBO.call (ubind (serialize_each models "")
                        (fun s => cout_write (serialized_line s))) w).
  { intros shapes models w Hholds. unfold SBOShapes.serializeAllShapes.
    rewrite <- sbo_call_bind. unfold obind.
    by rewrite (sbo_serialize_loop_models _ _ _ _ Hholds). }
  assert (HH : forall shapes models (w : Heap.World Env),
      heap_holds w shapes models ->
      HeapShapes.serializeAllShapes shapes w =
        Heap.call (ubind (serialize_each models "")
                         (fun s => cout_write (serialized_line s))) w).
  { intros shapes models w Hholds. unfold HeapShapes.serializeAllShapes.
    rewrite <- heap_call_bind. unfold obind.
    by rewrite (heap_serialize_loop_models _ _ _ _ Hholds). }
  split; [exact HS|]. split; [exact HH|]. split; [|split].
  - intros shapes models w x e' Hholds Hthrow.
    rewrite (HS _ _ _ Hholds). unfold SBO.call, ubind. by rewrite Hthrow.
  - intros shapes models texts w Hholds Hpure.
    rewrite (HS _ _ _ Hholds). unfold SBO.call, ubind.
    by rewrite (serialize_each_pure _ _ Hpure).
  - intros shapes models texts w Hholds Hpure.
    rewrite (HH _ _ _ Hholds). unfold Heap.call, ubind.
    by rewrite (serialize_each_pure _ _ Hpure).
Qed.

Lemma draw_loops_agree shapes (ws : SBO.World Env) (wh : Heap.World Env) :
  same_boxes ws wh ->
  sbo_visible (SBOShapes.drawAllShapes shapes ws) =
    heap_visible (HeapShapes.drawAllShapes shapes wh).
Proof.
  revert ws wh. induction shapes as [|a shapes IH]; intros ws wh Hsame.
  - simpl. by destruct Hsame as (-> & _).
  - pose proof Hsame as (He & Hwf & Hrel). simpl. unfold obind.
    destruct (Hrel a) as [[Hs Hh]|(c & p & Hs & Hh & Hp)].
    + unfold SBO.free_draw, obind, SBO.pimpl. rewrite sbo_deref_dead by auto.
      rewrite heap_free_draw_dead; [done|]. unfold Heap.model_of. by rewrite Hh.
    + rewrite (sbo_free_draw_live _ _ _ Hs).
      rewrite (heap_free_draw_live _ c) by (by eapply heap_model_of_lookup).
      unfold SBO.call, Heap.call. rewrite He.
      destruct (do_draw c (Heap.env wh)) as [[[]|x] e1]; simpl; [|done].
      apply IH. by eapply same_boxes_env.
Qed.

Lemma serialize_loops_agree shapes acc (ws : SBO.World Env) (wh : Heap.World Env) :
  same_boxes ws wh ->
  match SBOShapes.serialize_loop shapes acc ws,
        HeapShapes.serialize_loop shapes acc wh with
  | Return s1 ws', Return s2 wh' => s1 = s2 /\ SBO.env ws' = Heap.env wh'
  | Raise x1 ws', Raise x2 wh' => x1 = x2 /\ SBO.env ws' = Heap.env wh'
  | Undefined, Undefined => True
  | _, _ => False
  end.
Proof.
  revert acc ws wh. induction shapes as [|a shapes IH]; intros acc ws wh Hsame.
  - simpl. by destruct Hsame as (-> & _).
  - pose proof Hsame as (He & Hwf & Hrel). simpl. unfold obind.
    destruct (Hrel a) as [[Hs Hh]|(c & p & Hs & Hh & Hp)].
    + unfold SBO.serialize, obind, SBO.pimpl. rewrite sbo_deref_dead by auto.
      rewrite heap_serialize_dead; [done|]. unfold Heap.model_of. by rewrite Hh.
    + rewrite (sbo_serialize_live _ _ _ Hs).
      rewrite (heap_serialize_live _ c) by (by eapply heap_model_of_lookup).
      unfold SBO.call, Heap.call. rewrite He.
      destruct (do_serialize c (Heap.env wh)) as [[s|x] e1]; simpl; [|done].
      apply IH. by eapply same_boxes_env.
Qed.

(** X3. On stores that hold the same boxes, [drawAllShapes] and
    [serializeAllShapes] show the caller the same under both variants, for
    any vector: the same output, the same exception, or undefined behaviour
    in both. *)
Theorem callers_agree :
  forall shapes (ws : SBO.World Env) (wh : Heap.World Env),
    same_boxes ws wh ->
    sbo_visible (SBOShapes.drawAllShapes shapes ws) =
      heap_visible (HeapShapes.drawAllShapes shapes wh) /\
    sbo_visible (SBOShapes.serializeAllShapes shapes ws) =
      heap_visible (HeapShapes.serializeAllShapes shapes wh).
Proof.
  intros shapes ws wh Hsame. split; [by apply draw_loops_agree|].
  unfold SBOShapes.serializeAllShapes, HeapShapes.serializeAllShapes, obind.
  pose proof (serialize_loops_agree shapes "" ws wh Hsame) as Hloop.
  destruct (SBOShapes.serialize_loop shapes "" ws) as [s1 ws'|x1 ws'|],
           (HeapShapes.serialize_loop shapes "" wh) as [s2 wh'|x2 wh'|];
    try done.
  - destruct Hloop as [-> He]. unfold SBO.call, Heap.call, cout_write. simpl.
    by rewrite He.
  - destruct Hloop as [-> He]. simpl. by rewrite He.
Qed.
End CallerProperties.

(** The two example stores hold the same two boxes. *)
Lemma demo_same_boxes blocks :
  same_boxes Demo.sbo_two_boxes (Demo.heap_two_boxes 0 blocks).
Proof.
  split; [reflexivity|]. split; [split|].
  - intros a p. simpl.
    destruct (decide (a = 1)) as [->|H1];
      [rewrite lookup_insert_eq; intros [= <-]; by eexists|].
    rewrite lookup_insert_ne by done.
    destruct (decide (a = 0)) as [->|H0];
      [rewrite lookup_insert_eq; intros [= <-]; by eexists|].
    rewrite lookup_insert_ne by done. by rewrite lookup_empty.
  - intros a b p. simpl.
    destruct (decide (a = 1)) as [->|Ha1], (decide (b = 1)) as [->|Hb1];
      [done| | |].
    + rewrite lookup_insert_eq, lookup_insert_ne by done. intros [= <-].
      destruct (decide (b = 0)) as [->|Hb0];
        [by rewrite lookup_insert_eq|].
      rewrite lookup_insert_ne by done. by rewrite lookup_empty.
    + rewrite lookup_insert_ne, lookup_insert_eq by done. intros Ha [= <-].
      revert Ha. destruct (decide (a = 0)) as [->|Ha0];
        [by rewrite lookup_insert_eq|].
      rewrite lookup_insert_ne by done. by rewrite lookup_empty.
    + rewrite !(lookup_insert_ne _ 1) by done.
      destruct (decide (a = 0)) as [->|Ha0], (decide (b = 0)) as [->|Hb0];
        [done| | |].
      * rewrite lookup_insert_eq, lookup_insert_ne by done.
        by rewrite lookup_empty.
      * rewrite lookup_insert_ne by done. by rewrite lookup_empty.
      * rewrite lookup_insert_ne by done. by rewrite lookup_empty.
  - intros a. simpl.
    destruct (decide (a = 1)) as [->|H1].
    { right. exists (model_from Demo.counted_payload), 1. by vm_compute. }
    destruct (decide (a = 0)) as [->|H0].
    { right. exists (model_from Demo.circle_payload), 0. by vm_compute. }
    left. rewrite !lookup_insert_ne by done. by rewrite !lookup_empty.
Qed.

Lemma drawAllShapes_in_order_witness :
  SBOShapes.drawAllShapes [0; 1] Demo.sbo_two_boxes =
    SBO.call (draw_each [model_from Demo.circle_payload;
                         model_from Demo.counted_payload]) Demo.sbo_two_boxes /\
  HeapShapes.drawAllShapes [1; 0] (Demo.heap_two_boxes 0 3) =
    Heap.call (draw_each [model_from Demo.counted_payload;
                          model_from Demo.circle_payload])
      (Demo.heap_two_boxes 0 3) /\
  SBOShapes.drawAllShapes [0; 2; 1] Demo.sbo_two_boxes = Undefined /\
  HeapShapes.drawAllShapes [0; 2; 1] (Demo.heap_two_boxes 0 3) = Undefined.
Proof.
  destruct (@drawAllShapes_in_order Demo.Process) as (Hs & Hh & Hsd & Hhd).
  split; [|split; [|split]].
  - apply Hs. repeat constructor.
  - apply Hh. repeat constructor.
  - eapply (Hsd [0] 2 [1] [model_from Demo.circle_payload]).
    + repeat constructor.
    + left. vm_compute. reflexivity.
    + vm_compute. reflexivity.
  - eapply (Hhd [0] 2 [1] [model_from Demo.circle_payload]).
    + repeat constructor.
    + vm_compute. reflexivity.
    + vm_compute. reflexivity.
Defined.

Lemma serializeAllShapes_in_order_witness :
  SBOShapes.serializeAllShapes [0; 1] Demo.sbo_two_boxes =
    Return tt
      (SBO.with_env
         (Demo.mkProcess (serialized_line "circle:2.3circle:4.1") 0)
         Demo.sbo_two_boxes) /\
  HeapShapes.serializeAllShapes [1; 0; 1] (Demo.heap_two_boxes 0 3) =
    Return tt
      (Heap.with_env
         (Demo.mkProcess (serialized_line "circle:4.1circle:2.3circle:4.1") 0)
         (Demo.heap_two_boxes 0 3)).
Proof.
  destruct (@serializeAllShapes_in_order Demo.Process _)
    as (_ & _ & _ & Hs & Hh).
  split.
  - apply (Hs [0; 1] [model_from Demo.circle_payload;
                      model_from Demo.counted_payload]
              ["circle:2.3"; "circle:4.1"]%string).
    + repeat constructor.
    + repeat constructor.
  - apply (Hh [1; 0; 1] [model_from Demo.counted_payload;
                         model_from Demo.circle_payload;
                         model_from Demo.counted_payload]
              ["circle:4.1"; "circle:2.3"; "circle:4.1"]%string).
    + repeat constructor.
    + repeat constructor.
Defined.

Lemma callers_agree_witness :
  sbo_visible (SBOShapes.drawAllShapes [1; 0] Demo.sbo_two_boxes) =
    heap_visible (HeapShapes.drawAllShapes [1; 0] (Demo.heap_two_boxes 0 3)) /\
  sbo_visible (SBOShapes.serializeAllShapes [1; 0] Demo.sbo_two_boxes) =
    heap_visible (HeapShapes.serializeAllShapes [1; 0] (Demo.heap_two_boxes 0 3)).
Proof.
  exact (callers_agree [1; 0] Demo.sbo_two_boxes (Demo.heap_two_boxes 0 3)
           (demo_same_boxes 3)).
Defined.

(** ** Boxes that cannot be used *)

Section Unusable.
Context {Env : Type}.

(** X4. An inline box without a model (left so by a copy assignment that
    threw) cannot be used for anything: [serialize()], [free_draw], copying
    from it, assigning to it or from it, and its destructor all go through
    the model and are undefined.  No operation gives such a box a model
    again: in every run that stays defined the box is still without a
    model at the end, so a program cannot destroy all its boxes. *)
Theorem sbo_valueless_unusable :
  (forall a (w : SBO.World Env),
      SBO.objects w !! a = Some None ->
      SBO.serialize a w = Undefined /\
      SBO.free_draw a w = Undefined /\
      SBO.Shape_dtor a w = Undefined /\
      (forall other, SBO.Shape_assign a other w = Undefined) /\
      (forall this, SBO.Shape_assign this a w = Undefined) /\
      (forall this, SBO.Shape_copy_ctor this a w = Undefined)) /\
  (forall prog run (w : SBO.World Env) os w' a,
      SBO.compile prog = WellFormed run ->
      run w = Some (os, w') ->
      SBO.objects w !! a = Some None ->
      SBO.objects w' !! a = Some None /\ SBO.objects w' <> ∅).
Proof.
  split.
  - intros a w Ha.
    assert (Hdead : SBO.objects w !! a = None \/ SBO.objects w !! a = Some None)
      by (by right).
    split; [|split; [|split; [|split; [|split]]]].
    + unfold SBO.serialize, obind, SBO.pimpl. by rewrite sbo_deref_dead.
    + unfold SBO.free_draw, obind, SBO.pimpl. by rewrite sbo_deref_dead.
    + by apply sbo_Shape_dtor_dead.
    + intros other. by apply sbo_Shape_assign_dead.
    + intros this.
      destruct (SBO.objects w !! this) as [[ct|]|] eqn:Ht.
      * by eapply sbo_Shape_assign_source_dead.
      * apply sbo_Shape_assign_dead. by right.
      * apply sbo_Shape_assign_dead. by left.
    + intros this. by apply sbo_Shape_copy_ctor_dead.
  - intros prog run w os w' a Hc Hrun Ha.
    pose proof (sbo_compile_steps _ _ _ _ _ Hc Hrun) as Hsteps.
    pose proof (sbo_steps_valueless_stays _ _ _ _ _ Hsteps Ha) as Ha'.
    split; [done|]. intros Hempty. rewrite Hempty in Ha'.
    by rewrite lookup_empty in Ha'.
Qed.

(** X5. Once the destructor of a box has returned, every member function
    called on it is undefined, in both variants: the box can neither be
    read, copied, moved from, assigned, nor destroyed a second time. *)
Theorem destroyed_box_unusable :
  (forall this (w w' : SBO.World Env),
      SBO.Shape_dtor this w = Return tt w' ->
      SBO.objects w' !! this = None /\
      SBO.serialize this w' = Undefined /\
      SBO.free_draw this w' = Undefined /\
      SBO.Shape_dtor this w' = Undefined /\
      (forall other, SBO.Shape_assign this other w' = Undefined) /\
      (forall x, SBO.Shape_assign x this w' = Undefined) /\
      (forall x, SBO.Shape_copy_ctor x this w' = Undefined)) /\
  (forall this (w w' : Heap.World Env),
      Heap.Shape_dtor this w = Return tt w' ->
      Heap.objects w' !! this = None /\
      Heap.serialize this w' = Undefined /\
      Heap.free_draw this w' = Undefined /\
      Heap.Shape_dtor this w' = Undefined /\
      (forall other, Heap.Shape_assign this other w' = Undefined) /\
      (forall x, Heap.Shape_assign x this w' = Undefined) /\
      (forall x, Heap.Shape_copy_ctor x this w' = Undefined) /\
      (forall x, Heap.Shape_move_ctor x this w' = Undefined) /\
      (forall other, Heap.Shape_move_assign this other w' = Undefined) /\
      (forall x, Heap.Shape_move_assign x this w' = Undefined)).
Proof.
  split.
  - intros this w w' Hdtor.
    assert (Hgone : SBO.objects w' !! this = None).
    { destruct (SBO.objects w !! this) as [[c|]|] eqn:Ht.
      - rewrite (sbo_Shape_dtor_effect _ _ _ Ht) in Hdtor.
        injection Hdtor as <-. simpl. by rewrite lookup_delete_eq.
      - rewrite sbo_Shape_dtor_dead in Hdtor by (by right). done.
      - rewrite sbo_Shape_dtor_dead in Hdtor by (by left). done. }
    assert (Hdead : SBO.objects w' !! this = None \/
                    SBO.objects w' !! this = Some None) by (by left).
    split; [done|]. split; [|split; [|split; [|split; [|split]]]].
    + unfold SBO.serialize, obind, SBO.pimpl. by rewrite sbo_deref_dead.
    + unfold SBO.free_draw, obind, SBO.pimpl. by rewrite sbo_deref_dead.
    + by apply sbo_Shape_dtor_dead.
    + intros other. by apply sbo_Shape_assign_dead.
    + intros x.
      destruct (SBO.objects w' !! x) as [[ct|]|] eqn:Hx.
      * by eapply sbo_Shape_assign_source_dead.
      * apply sbo_Shape_assign_dead. by right.
      * apply sbo_Shape_assign_dead. by left.
    + intros x. by apply sbo_Shape_copy_ctor_dead.
  - intros this w w' Hdtor.
    assert (Hgone : Heap.objects w' !! this = None).
    { destruct (Heap.objects w !! this) as [q|] eqn:Ht.
      - destruct (disposable_dec q w) as [Hq|(p & -> & Hp)].
        + rewrite (heap_Shape_dtor_effect _ _ _ Ht Hq) in Hdtor.
          injection Hdtor as <-. destruct q; simpl; by rewrite lookup_delete_eq.
        + by rewrite (heap_Shape_dtor_dangling _ _ _ Ht Hp) in Hdtor.
      - by rewrite heap_Shape_dtor_dead in Hdtor. }
    assert (Hmodel : Heap.model_of w' this = None).
    { unfold Heap.model_of. by rewrite Hgone. }
    split; [done|].
    split; [by apply heap_serialize_dead|].
    split; [by apply heap_free_draw_dead|].
    split; [by apply heap_Shape_dtor_dead|].
    split; [intros other; by apply heap_Shape_assign_dead|].
    split.
    { intros x. destruct (Heap.objects w' !! x) as [qt|] eqn:Hx.
      - by eapply heap_Shape_assign_source_dead.
      - by apply heap_Shape_assign_dead. }
    split; [intros x; by apply heap_Shape_copy_ctor_dead|].
    split; [intros x; by apply heap_Shape_move_ctor_dead|].
    split; intros x; apply heap_Shape_move_assign_dead; auto.
Qed.
End Unusable.

Lemma sbo_valueless_unusable_witness :
  SBO.Shape_assign 0 1 Demo.sbo_two_boxes =
    Raise (runtime_error "copy budget spent") sbo_valueless_box /\
  (SBO.serialize 0 sbo_valueless_box = Undefined /\
   SBO.free_draw 0 sbo_valueless_box = Undefined /\
   SBO.Shape_dtor 0 sbo_valueless_box = Undefined /\
   (forall other, SBO.Shape_assign 0 other sbo_valueless_box = Undefined) /\
   (forall this, SBO.Shape_assign this 0 sbo_valueless_box = Undefined) /\
   (forall this, SBO.Shape_copy_ctor this 0 sbo_valueless_box = Undefined)) /\
  (exists run os w',
      SBO.compile [Draw 1; CopyConstruct 1; Serialize 1; Destroy 1]
        = WellFormed run /\
      run sbo_valueless_box = Some (os, w') /\
      SBO.objects w' !! 0 = Some None /\ SBO.objects w' <> ∅).
Proof.
  destruct (sbo_valueless_unusable (Env:=Demo.Process)) as [Hops Hrun].
  split; [vm_compute; reflexivity|]. split.
  - apply (Hops 0 sbo_valueless_box). vm_compute. reflexivity.
  - destruct (SBO.compile [Draw 1; CopyConstruct 1; Serialize 1; Destroy 1])
      as [run|] eqn:Hc; [|vm_compute in Hc; discriminate].
    destruct (run sbo_valueless_box) as [[os w']|] eqn:Hr;
      [|injection Hc as <-; vm_compute in Hr; discriminate].
    exists run, os, w'. split; [reflexivity|]. split; [exact Hr|].
    apply (Hrun _ _ _ _ _ 0 Hc Hr). vm_compute. reflexivity.
Defined.

Lemma destroyed_box_unusable_witness :
  (exists w',
      SBO.Shape_dtor 0 Demo.sbo_two_boxes = Return tt w' /\
      SBO.objects w' !! 0 = None /\
      SBO.serialize 0 w' = Undefined /\
      SBO.Shape_dtor 0 w' = Undefined) /\
  (exists w',
      Heap.Shape_dtor 0 (Demo.heap_two_boxes 0 3) = Return tt w' /\
      Heap.objects w' !! 0 = None /\
      Heap.serialize 0 w' = Undefined /\
      Heap.Shape_dtor 0 w' = Undefined).
Proof.
  destruct (destroyed_box_unusable (Env:=Demo.Process)) as [Hs Hh].
  split.
  - destruct (SBO.Shape_dtor 0 Demo.sbo_two_boxes) as [[] w'| |] eqn:Hr;
      [|vm_compute in Hr; discriminate..].
    exists w'. split; [reflexivity|].
    destruct (Hs 0 _ _ Hr) as (H1 & H2 & _ & H3 & _). by repeat split.
  - destruct (Heap.Shape_dtor 0 (Demo.heap_two_boxes 0 3)) as [[] w'| |] eqn:Hr;
      [|vm_compute in Hr; discriminate..].
    exists w'. split; [reflexivity|].
    destruct (Hh 0 _ _ Hr) as (H1 & H2 & _ & H3 & _). by repeat split.
Defined.

(** ** Constructors that fail *)

Section ConstructionFailure.
Context {Env ShapeT DrawStrategy SerializationStrategy : Type}.
Context `{!CopyConstructible Env ShapeT, !CopyConstructible Env DrawStrategy,
          !CopyConstructible Env SerializationStrategy,
          !Invocable Env DrawStrategy ShapeT unit,
          !Invocable Env SerializationStrategy ShapeT string}.

Lemma heap_unwound_counts (e' : Env) (w : Heap.World Env) :
  count is_construction (Heap.log (heap_unwound e' w)) =
    count is_construction (Heap.log w) /\
  count is_operator_new (Heap.log (heap_unwound e' w)) =
    S (count is_operator_new (Heap.log w)) /\
  count is_operator_delete (Heap.log (heap_unwound e' w)) =
    S (count is_operator_delete (Heap.log w)).
Proof.
  unfold heap_unwound. simpl. rewrite !count_snoc2. simpl. lia.
Qed.

(** X6. Constructing a heap box from values is always defined.  The block
    is allocated before the model is built: with an exhausted free store
    the constructor throws [std::bad_alloc] and none of the user's copy
    constructors has run.  When the constructor, or the copy constructor of
    either variant, throws, no box has come into existence and nothing is
    left behind: boxes, models and free store are as before, no model was
    constructed, and on the heap the one [operator new] is matched by one
    [operator delete]. *)
Theorem construction_failure_leaves_nothing
    (s : ShapeT) (d : DrawStrategy) (z : SerializationStrategy) (this : addr) :
  (forall ctor (w : Heap.World Env),
      Heap.Shape_ctor = WellFormed ctor ->
      ctor this s d z w <> Undefined /\
      (Heap.free_store w = 0 -> ctor this s d z w = Raise bad_alloc w) /\
      (forall x w',
          ctor this s d z w = Raise x w' ->
          Heap.objects w' = Heap.objects w /\
          Heap.heap w' = Heap.heap w /\
          Heap.free_store w' = Heap.free_store w /\
          count is_construction (Heap.log w') =
            count is_construction (Heap.log w) /\
          count is_operator_new (Heap.log w') +
              count is_operator_delete (Heap.log w) =
            count is_operator_delete (Heap.log w') +
              count is_operator_new (Heap.log w))) /\
  (forall other x (w w' : Heap.World Env),
      Heap.Shape_copy_ctor this other w = Raise x w' ->
      Heap.objects w' = Heap.objects w /\
      Heap.heap w' = Heap.heap w /\
      Heap.free_store w' = Heap.free_store w /\
      count is_construction (Heap.log w') =
        count is_construction (Heap.log w) /\
      count is_operator_new (Heap.log w') +
          count is_operator_delete (Heap.log w) =
        count is_operator_delete (Heap.log w') +
          count is_operator_new (Heap.log w)) /\
  (forall other x (w w' : SBO.World Env),
      SBO.Shape_copy_ctor this other w = Raise x w' ->
      SBO.objects w' = SBO.objects w /\ SBO.log w' = SBO.log w).
Proof.
  split; [|split].
  - intros ctor w [= <-].
    rewrite (heap_emplace_effect this
               (ubind (Model_ctor s d z) (fun m => uret (upcast m))) w).
    destruct (Heap.free_store w) as [|n] eqn:Hfree.
    + split; [done|]. split; [done|]. intros x w' [= _ <-].
      rewrite Hfree. repeat split; lia.
    + destruct (ubind (Model_ctor s d z) (fun m => uret (upcast m)) (Heap.env w))
        as [[c|x0] e'].
      * split; [done|]. split; [done|]. intros x w' Hr. discriminate Hr.
      * split; [done|]. split; [done|]. intros x w' [= _ <-].
        destruct (heap_unwound_counts e' w) as (Hc & Hn & Hd).
        rewrite Hc, Hn, Hd. simpl. rewrite Hfree. repeat split; lia.
  - intros other x w w' Hr.
    destruct (Heap.model_of w other) as [co|] eqn:Ho;
      [|by rewrite heap_Shape_copy_ctor_dead in Hr].
    rewrite (heap_Shape_copy_ctor_effect _ _ _ _ Ho) in Hr.
    destruct (Heap.free_store w) as [|n] eqn:Hfree.
    + injection Hr as _ <-. rewrite Hfree. repeat split; lia.
    + destruct (copy_of co (Heap.env w)) as [[c|x0] e']; [discriminate Hr|].
      injection Hr as _ <-.
      destruct (heap_unwound_counts e' w) as (Hc & Hn & Hd).
      rewrite Hc, Hn, Hd. simpl. rewrite Hfree. repeat split; lia.
  - intros other x w w' Hr.
    destruct (SBO.objects w !! other) as [[co|]|] eqn:Ho.
    + rewrite (sbo_Shape_copy_ctor_effect _ _ _ _ Ho) in Hr.
      destruct (copy_of co (SBO.env w)) as [[c|x0] e']; [discriminate Hr|].
      by injection Hr as _ <-.
    + rewrite sbo_Shape_copy_ctor_dead in Hr by (by right). done.
    + rewrite sbo_Shape_copy_ctor_dead in Hr by (by left). done.
Qed.
End ConstructionFailure.

Lemma construction_failure_leaves_nothing_witness :
  (exists ctor,
      Heap.Shape_ctor = WellFormed ctor /\
      ctor 2 (Demo.Circle_ctor "4.1") Demo.mkCountedDrawer Demo.mkTagSerializer
           (Demo.heap_two_boxes 5 0) =
        Raise bad_alloc (Demo.heap_two_boxes 5 0) /\
      exists x w',
        ctor 2 (Demo.Circle_ctor "4.1") Demo.mkCountedDrawer Demo.mkTagSerializer
             (Demo.heap_two_boxes 0 3) = Raise x w' /\
        Heap.objects w' = Heap.objects (Demo.heap_two_boxes 0 3) /\
        Heap.heap w' = Heap.heap (Demo.heap_two_boxes 0 3) /\
        Heap.free_store w' = 3) /\
  (exists x w',
      Heap.Shape_copy_ctor 2 1 (Demo.heap_two_boxes 0 3) = Raise x w' /\
      Heap.objects w' = Heap.objects (Demo.heap_two_boxes 0 3) /\
      Heap.heap w' = Heap.heap (Demo.heap_two_boxes 0 3) /\
      Heap.free_store w' = 3) /\
  (exists x w',
      SBO.Shape_copy_ctor 2 1 Demo.sbo_two_boxes = Raise x w' /\
      SBO.objects w' = SBO.objects Demo.sbo_two_boxes /\
      SBO.log w' = SBO.log Demo.sbo_two_boxes).
Proof.
  destruct (construction_failure_leaves_nothing (Env:=Demo.Process)
              (Demo.Circle_ctor "4.1") Demo.mkCountedDrawer
              Demo.mkTagSerializer 2) as (Hctor & Hcopy & Hsbo).
  split; [|split].
  - eexists. split; [reflexivity|].
    destruct (Hctor _ (Demo.heap_two_boxes 5 0) eq_refl) as (_ & Hbad & _).
    split; [apply Hbad; reflexivity|].
    match goal with
    | |- exists x w', ?r = _ /\ _ => destruct r as [[] w'|x w'|] eqn:Hr
    end; [vm_compute in Hr; discriminate| |vm_compute in Hr; discriminate].
    exists x, w'. split; [reflexivity|].
    destruct (Hctor _ (Demo.heap_two_boxes 0 3) eq_refl) as (_ & _ & Hraise).
    destruct (Hraise _ _ Hr) as (Ho & Hh & Hf & _). by repeat split.
  - destruct (Heap.Shape_copy_ctor 2 1 (Demo.heap_two_boxes 0 3))
      as [[] w'|x w'|] eqn:Hr;
      [vm_compute in Hr; discriminate| |vm_compute in Hr; discriminate].
    exists x, w'. split; [reflexivity|].
    destruct (Hcopy _ _ _ _ Hr) as (Ho & Hh & Hf & _). by repeat split.
  - destruct (SBO.Shape_copy_ctor 2 1 Demo.sbo_two_boxes)
      as [[] w'|x w'|] eqn:Hr;
      [vm_compute in Hr; discriminate| |vm_compute in Hr; discriminate].
    exists x, w'. split; [reflexivity|]. exact (Hsbo _ _ _ _ Hr).
Defined.

(** ** Copy assignment, once more *)

Section AssignmentAgain.
Context {Env : Type}.
Implicit Types (c : Concept Env) (this other a p : addr).

Lemma heap_assign_store this other pt ct co c e' n (w : Heap.World Env) :
  heap_wf w ->
  Heap.objects w !! this = Some (Some pt) ->
  Heap.heap w !! pt = Some ct ->
  Heap.model_of w other = Some co ->
  Heap.free_store w = S n ->
  copy_of co (Heap.env w) = (Ok c, e') ->
  Heap.Shape_assign this other w =
    Return tt (heap_disposed (Some pt) (heap_emplaced this c e' n w)).
Proof.
  intros Hwf Ht Hpt Ho Hfree Hcopy.
  rewrite (heap_Shape_assign_effect _ _ _ _ _ Ht Ho), Hfree, Hcopy.
  apply heap_dispose_effect. simpl.
  rewrite lookup_insert_ne; [by eexists|].
  apply heap_fresh_block_ne. by eexists.
Qed.

Lemma heap_assigned_lookup this pt ct c e' n (w : Heap.World Env) :
  heap_wf w ->
  Heap.objects w !! this = Some (Some pt) ->
  Heap.heap w !! pt = Some ct ->
  Heap.model_of (heap_disposed (Some pt) (heap_emplaced this c e' n w)) this
    = Some c /\
  forall a, a <> this ->
    Heap.objects (heap_disposed (Some pt) (heap_emplaced this c e' n w)) !! a
      = Heap.objects w !! a /\
    Heap.model_of (heap_disposed (Some pt) (heap_emplaced this c e' n w)) a
      = Heap.model_of w a.
Proof.
  intros [Hlive Huniq] Ht Hpt.
  assert (Hne : fresh (dom (Heap.heap w)) <> pt).
  { apply heap_fresh_block_ne. by eexists. }
  split.
  - unfold Heap.model_of. simpl. rewrite lookup_insert_eq.
    rewrite lookup_delete_ne by done. by rewrite lookup_insert_eq.
  - intros a Ha. unfold Heap.model_of. simpl.
    rewrite lookup_insert_ne by done. split; [done|].
    destruct (Heap.objects w !! a) as [[p|]|] eqn:Hobj; [|done..].
    assert (Hp : p <> pt).
    { intros ->. apply Ha. by eapply Huniq. }
    rewrite lookup_delete_ne by done.
    rewrite lookup_insert_ne; [done|].
    apply heap_fresh_block_ne. by eapply Hlive.
Qed.

(** X7. On the heap box [b = b] is defined: the copy is made first, then
    the pointers are swapped and the old model is destroyed.  The box ends
    up with a model equal to the one it had, every other box keeps its
    model, and the free store has as many blocks as before.  If the copy
    throws the store is as it was. *)
Theorem heap_self_assignment_defined :
  forall b p c n (w : Heap.World Env),
    heap_wf w ->
    Heap.objects w !! b = Some (Some p) ->
    Heap.heap w !! p = Some c ->
    Heap.free_store w = S n ->
    match copy_of c (Heap.env w) with
    | (Ok _, e') =>
        exists w',
          Heap.Shape_assign b b w = Return tt w' /\
          Heap.env w' = e' /\
          (forall a, Heap.model_of w' a = Heap.model_of w a) /\
          Heap.free_store w' = Heap.free_store w /\
          size (Heap.heap w') = size (Heap.heap w) /\
          heap_wf w'
    | (Throw x, e') =>
        Heap.Shape_assign b b w = Raise x (heap_unwound e' w)
    end.
Proof.
  intros b p c n w Hwf Hb Hp Hfree.
  pose proof (heap_model_of_lookup _ _ _ _ Hb Hp) as Hmodel.
  destruct (copy_of c (Heap.env w)) as [[c'|x] e'] eqn:Hcopy.
  - pose proof (copy_of_value _ _ _ _ Hcopy) as ->.
    exists (heap_disposed (Some p) (heap_emplaced b c e' n w)).
    split; [by eapply heap_assign_store|].
    destruct (heap_assigned_lookup b p c c e' n w Hwf Hb Hp) as [Hthis Hrest].
    split; [done|]. split; [|split; [|split]].
    + intros a. destruct (decide (a = b)) as [->|Ha].
      * by rewrite Hthis, Hmodel.
      * by apply Hrest.
    + simpl. by rewrite Hfree.
    + simpl. rewrite map_size_delete_Some, map_size_insert_None; [done|..].
      * apply heap_fresh_block.
      * rewrite lookup_insert_ne; [by eexists|].
        apply heap_fresh_block_ne. by eexists.
    + apply heap_wf_disposed; [by apply heap_wf_emplaced|].
      intros a q [= <-]. simpl. rewrite lookup_insert. case_decide as Ha.
      * intros [= Heq]. revert Heq. apply heap_fresh_block_ne. by eexists.
      * intros Hobj. apply Ha. destruct Hwf as [_ Huniq]. by eapply Huniq.
  - by rewrite (heap_Shape_assign_effect _ _ _ _ _ Hb Hmodel), Hfree, Hcopy.
Qed.

End AssignmentAgain.

Lemma heap_self_assignment_defined_witness :
  (exists w',
      Heap.Shape_assign 0 0 (Demo.heap_two_boxes 0 3) = Return tt w' /\
      Heap.env w' = Demo.start 0 /\
      (forall a, Heap.model_of w' a = Heap.model_of (Demo.heap_two_boxes 0 3) a) /\
      Heap.free_store w' = 3 /\
      size (Heap.heap w') = size (Heap.heap (Demo.heap_two_boxes 0 3)) /\
      heap_wf w') /\
  Heap.Shape_assign 1 1 (Demo.heap_two_boxes 0 3) =
    Raise (runtime_error "copy budget spent")
      (heap_unwound (Demo.start 0) (Demo.heap_two_boxes 0 3)).
Proof.
  assert (Hwf : heap_wf (Demo.heap_two_boxes 0 3)).
  { exact (proj1 (proj2 (demo_same_boxes 3))). }
  split.
  - pose proof (heap_self_assignment_defined 0 0
                  (model_from Demo.circle_payload) 2 (Demo.heap_two_boxes 0 3)
                  Hwf eq_refl eq_refl eq_refl) as H.
    set (r := copy_of _ _) in H. vm_compute in r. subst r.
    cbv beta iota in H. exact H.
  - pose proof (heap_self_assignment_defined 1 1
                  (model_from Demo.counted_payload) 2 (Demo.heap_two_boxes 0 3)
                  Hwf eq_refl eq_refl eq_refl) as H.
    set (r := copy_of _ _) in H. vm_compute in r. subst r.
    cbv beta iota in H. exact H.
Defined.


(** ** The heap variant gives back what it takes *)

Section HeapAccounts.
Context {Env : Type}.
Implicit Types (w : Heap.World Env) (c : Concept Env) (this other a p : addr).

Lemma heap_accounted_same blocks w w' :
  Heap.heap w' = Heap.heap w ->
  Heap.free_store w' = Heap.free_store w ->
  Heap.log w' = Heap.log w ->
  heap_accounted blocks w -> heap_accounted blocks w'.
Proof. unfold heap_accounted. by intros -> -> ->. Qed.

Lemma heap_accounted_emplaced blocks this c e' n w :
  Heap.free_store w = S n ->
  heap_accounted blocks w ->
  heap_accounted blocks (heap_emplaced this c e' n w).
Proof.
  unfold heap_accounted. intros Hfree (Hb & Hn & Hc). simpl.
  rewrite map_size_insert_None by apply heap_fresh_block.
  rewrite !count_snoc2. simpl. lia.
Qed.

Lemma heap_accounted_unwound blocks e' w :
  heap_accounted blocks w -> heap_accounted blocks (heap_unwound e' w).
Proof.
  unfold heap_accounted. intros (Hb & Hn & Hc). simpl.
  rewrite !count_snoc2. simpl. lia.
Qed.

Lemma heap_accounted_disposed blocks q w :
  disposable q w ->
  heap_accounted blocks w ->
  heap_accounted blocks (heap_disposed q w).
Proof.
  unfold heap_accounted. intros Hq (Hb & Hn & Hc).
  destruct q as [p|]; [|done]. simpl in *. destruct Hq as [c Hp].
  assert (Hsize : size (Heap.heap w) = S (size (delete p (Heap.heap w)))).
  { rewrite <- (insert_delete_id (Heap.heap w) p c Hp) at 1.
    apply map_size_insert_None, lookup_delete_eq. }
  rewrite !count_snoc2. simpl. lia.
Qed.

Lemma heap_owned_same w w' :
  Heap.objects w' = Heap.objects w -> Heap.heap w' = Heap.heap w ->
  heap_owned w -> heap_owned w'.
Proof. unfold heap_owned. by intros -> ->. Qed.

Lemma heap_owned_emplaced this c e' n w :
  Heap.objects w !! this = None ->
  heap_owned w -> heap_owned (heap_emplaced this c e' n w).
Proof.
  intros Hthis Hown p. simpl. rewrite lookup_insert. case_decide as Hp.
  - intros _. exists this. subst p. by rewrite lookup_insert_eq.
  - intros Hlive. destruct (Hown p Hlive) as [a Ha]. exists a.
    rewrite lookup_insert_ne; [done|]. intros <-. congruence.
Qed.

Lemma heap_owned_assigned this qt c e' n w :
  Heap.objects w !! this = Some qt ->
  heap_owned w ->
  heap_owned (heap_disposed qt (heap_emplaced this c e' n w)).
Proof.
  intros Hthis Hown p Hlive.
  assert (Hcases : p = fresh (dom (Heap.heap w)) \/
                   (is_Some (Heap.heap w !! p) /\ qt <> Some p)).
  { destruct qt as [pt|]; simpl in Hlive.
    - revert Hlive. rewrite lookup_delete. case_decide as Hpt.
      + intros [? [=]].
      + rewrite lookup_insert. case_decide as Hp; [by left|].
        right. split; [done|]. congruence.
    - revert Hlive. rewrite lookup_insert. case_decide as Hp; [by left|].
      by right. }
  assert (Hobjs : Heap.objects (heap_disposed qt (heap_emplaced this c e' n w))
                  = <[this := Some (fresh (dom (Heap.heap w)))]> (Heap.objects w)).
  { by destruct qt. }
  rewrite Hobjs. destruct Hcases as [->|[Hold Hqt]].
  - exists this. by rewrite lookup_insert_eq.
  - destruct (Hown p Hold) as [a Ha]. exists a.
    rewrite lookup_insert_ne; [done|]. intros <-. congruence.
Qed.

Lemma heap_owned_moved this other qt qo w :
  heap_wf w ->
  this <> other ->
  Heap.objects w !! this = qt ->
  Heap.objects w !! other = Some qo ->
  heap_owned w ->
  heap_owned
    (heap_disposed (default None qt)
       (Heap.mkWorld (Heap.env w)
          (<[this := qo]> (<[other := None]> (Heap.objects w)))
          (Heap.heap w) (Heap.free_store w) (Heap.log w))).
Proof.
  intros Hwf Hne Hthis Hother Hown p Hlive.
  assert (Hold : is_Some (Heap.heap w !! p) /\ qt <> Some (Some p)).
  { destruct qt as [[pt|]|]; simpl in Hlive; try done.
    revert Hlive. rewrite lookup_delete. case_decide as Hpt.
    - intros [? [=]].
    - intros Hlive. split; [done|]. congruence. }
  destruct Hold as [Hold Hqt].
  assert (Hobjs : Heap.objects
                    (heap_disposed (default None qt)
                       (Heap.mkWorld (Heap.env w)
                          (<[this := qo]> (<[other := None]> (Heap.objects w)))
                          (Heap.heap w) (Heap.free_store w) (Heap.log w)))
                  = <[this := qo]> (<[other := None]> (Heap.objects w))).
  { by destruct qt as [[?|]|]. }
  rewrite Hobjs. destruct (Hown p Hold) as [a Ha].
  assert (a <> this) by (intros ->; congruence).
  destruct (decide (a = other)) as [->|Hao].
  - exists this. rewrite lookup_insert_eq. congruence.
  - exists a. by rewrite !lookup_insert_ne.
Qed.

Lemma heap_owned_destroyed this q w :
  Heap.objects w !! this = Some q ->
  heap_owned w ->
  heap_owned
    (heap_disposed q
       (Heap.mkWorld (Heap.env w) (delete this (Heap.objects w))
          (Heap.heap w) (Heap.free_store w) (Heap.log w))).
Proof.
  intros Hthis Hown p Hlive.
  assert (Hold : is_Some (Heap.heap w !! p) /\ q <> Some p).
  { destruct q as [pt|]; simpl in Hlive; [|done].
    revert Hlive. rewrite lookup_delete. case_decide as Hpt.
    - intros [? [=]].
    - intros Hlive. split; [done|]. congruence. }
  destruct Hold as [Hold Hq].
  assert (Hobjs : Heap.objects
                    (heap_disposed q
                       (Heap.mkWorld (Heap.env w) (delete this (Heap.objects w))
                          (Heap.heap w) (Heap.free_store w) (Heap.log w)))
                  = delete this (Heap.objects w)).
  { by destruct q. }
  rewrite Hobjs. destruct (Hown p Hold) as [a Ha]. exists a.
  rewrite lookup_delete_ne; [done|]. intros <-. congruence.
Qed.

Lemma heap_step_accounts blocks st w o w' :
  heap_step st w o w' ->
  heap_wf w -> heap_owned w -> heap_accounted blocks w ->
  heap_owned w' /\ heap_accounted blocks w'.
Proof.
  intros Hstep Hwf Hown Hacc.
  destruct Hstep as
    [pl w n c e' Hn Hc | pl w Hn | pl w n x e' Hn Hc
    | other w co n c e' Ho Hn Hc | other w co Ho Hn | other w co n x e' Ho Hn Hc
    | other w q Ho
    | this other w qt co n c e' Ht Ho Hn Hc Hq
    | this other w qt co Ht Ho Hn
    | this other w qt co n x e' Ht Ho Hn Hc
    | this other w qt qo Hne Ht Ho Hq
    | this w q Ht
    | this w q Ht Hq
    | this w c s e' Ht Hc | this w c x e' Ht Hc
    | this w c e' Ht Hc | this w c x e' Ht Hc ];
    try done;
    try (split; [by eapply heap_owned_same; [| |exact Hown]
                |by first [apply heap_accounted_unwound
                          |eapply heap_accounted_same; [| | |exact Hacc]]]).
  - split; [|by apply heap_accounted_emplaced].
    apply heap_owned_emplaced; [apply heap_fresh_object|done].
  - split; [|by apply heap_accounted_emplaced].
    apply heap_owned_emplaced; [apply heap_fresh_object|done].
  - (* move construction *)
    split; [|by eapply heap_accounted_same; [| | |exact Hacc]].
    pose proof (heap_owned_moved (fresh (dom (Heap.objects w))) other None q w
                  Hwf (heap_fresh_object_ne _ _ _ Ho) (heap_fresh_object w)
                  Ho Hown) as H.
    exact H.
  - (* copy assignment *)
    split; [by apply heap_owned_assigned|].
    apply heap_accounted_disposed; [done|]. by apply heap_accounted_emplaced.
  - (* move assignment *)
    split.
    + exact (heap_owned_moved this other (Some qt) qo w Hwf Hne Ht Ho Hown).
    + apply heap_accounted_disposed; [by destruct qt|].
      by eapply heap_accounted_same; [| | |exact Hacc].
  - (* destruction *)
    split; [by apply heap_owned_destroyed|].
    apply heap_accounted_disposed; [by destruct q|].
    by eapply heap_accounted_same; [| | |exact Hacc].
Qed.

Lemma heap_steps_accounts blocks prog w os w' :
  heap_steps prog w os w' ->
  heap_wf w -> heap_owned w -> heap_accounted blocks w ->
  heap_wf w' /\ heap_owned w' /\ heap_accounted blocks w'.
Proof.
  induction 1 as [|st prog w o w1 os w2 Hstep _ IH]; [done|].
  intros Hwf Hown Hacc.
  destruct (heap_step_accounts _ _ _ _ _ Hstep Hwf Hown Hacc) as [Hown1 Hacc1].
  apply IH; [by eapply heap_step_wf|done..].
Qed.

(** X9. The heap variant leaks nothing and frees nothing twice.  At any
    point of a run from the empty store, every block is either on the free
    store or holds a model that exactly one box points at; the calls of
    [operator new] not yet matched by an [operator delete] are the blocks
    that hold a model, and so are the constructions not yet matched by a
    destruction.  When the run has destroyed all its boxes, no model is
    left, the free store is back to what it was, and [operator new] and
    [operator delete] were called equally often, as were the model's
    constructors and destructors. *)
Theorem heap_no_leak :
  forall prog run (e : Env) blocks os w',
    Heap.compile prog = WellFormed run ->
    run (Heap.empty_world e blocks) = Some (os, w') ->
    heap_wf w' /\ heap_owned w' /\ heap_accounted blocks w' /\
    (Heap.objects w' = ∅ ->
       Heap.heap w' = ∅ /\
       Heap.free_store w' = blocks /\
       count is_operator_new (Heap.log w') =
         count is_operator_delete (Heap.log w') /\
       count is_construction (Heap.log w') =
         count is_destruction (Heap.log w')).
Proof.
  intros prog run e blocks os w' Hc Hrun.
  pose proof (heap_compile_steps _ _ _ _ _ Hc Hrun) as Hsteps.
  destruct (heap_steps_accounts blocks _ _ _ _ Hsteps) as (Hwf & Hown & Hacc).
  - apply heap_wf_empty.
  - intros p. simpl. rewrite lookup_empty. by intros [? ?].
  - unfold heap_accounted. simpl. rewrite map_size_empty. unfold count. simpl. lia.
  - split; [done|]. split; [done|]. split; [done|].
    intros Hempty.
    assert (Hheap : Heap.heap w' = ∅).
    { apply map_empty. intros p.
      destruct (Heap.heap w' !! p) as [c|] eqn:Hp; [|done].
      destruct (Hown p) as [a Ha]; [by eexists|].
      rewrite Hempty, lookup_empty in Ha. done. }
    destruct Hacc as (Hb & Hn & Hk).
    rewrite Hheap, map_size_empty in Hb, Hn, Hk.
    split; [done|]. repeat split; lia.
Qed.
End HeapAccounts.

(** ** No capacity limit on the heap *)

Section HeapCapacity.
Context {Env : Type}.

Lemma heap_exec_well_formed (st : stmt Env) :
  exists f, Heap.exec st = WellFormed f.
Proof. destruct st; simpl; eauto. Qed.

Lemma heap_compile_well_formed (prog : list (stmt Env)) :
  exists run, Heap.compile prog = WellFormed run.
Proof.
  unfold Heap.compile. induction prog as [|st prog [g IH]]; [by eexists|].
  destruct (heap_exec_well_formed st) as [f Hf].
  eexists. by apply translate_cons.
Qed.

Lemma sbo_exec_ill_formed (p : Payload Env) :
  ~ fits p -> exists d, SBO.exec (Construct p) = IllFormed d.
Proof.
  intros Hfits. simpl. rewrite sbo_Shape_ctor_cases.
  destruct (N.leb_spec (@sizeof_Model _ _ _ (payload_layout p)) SBO.buffersize)
    as [Hsize|Hsize]; [|by eexists].
  destruct (N.leb_spec (@alignof_Model _ _ _ (payload_layout p)) SBO.alignment)
    as [Halign|Halign]; [|by eexists].
  by destruct Hfits.
Qed.

(** X10. The heap box has no capacity limit: whatever the payload types
    and their sizes, every program compiles against it.  A program that
    declares a box whose model does not fit the inline buffer is rejected
    by the inline variant and accepted by the heap variant, where the
    declaration runs like any other. *)
Theorem heap_no_capacity_limit :
  (forall prog : list (stmt Env),
      exists run, Heap.compile prog = WellFormed run) /\
  (forall (p : Payload Env) before after,
      ~ fits p ->
      (exists d, SBO.compile (before ++ Construct p :: after) = IllFormed d) /\
      (exists run,
          Heap.compile (before ++ Construct p :: after) = WellFormed run) /\
      (forall (w : Heap.World Env) f,
          Heap.exec (Construct p) = WellFormed f ->
          0 < Heap.free_store w ->
          f w <> None /\
          forall c e',
            erased_ctor p (Heap.env w) = (Ok c, e') ->
            exists w',
              f w = Some (Declared (fresh (dom (Heap.objects w))), w') /\
              Heap.model_of w' (fresh (dom (Heap.objects w))) =
                Some (model_from p))).
Proof.
  split; [exact heap_compile_well_formed|].
  intros p before after Hfits. split; [|split].
  - destruct (sbo_exec_ill_formed p Hfits) as [d Hd].
    by eapply translate_ill_formed.
  - apply heap_compile_well_formed.
  - intros w f [= <-] Hfree.
    rewrite (heap_emplace_effect (fresh (dom (Heap.objects w)))
               (ubind (Model_ctor (shape p) (drawer p) (serializer p))
                      (fun m => uret (upcast m))) w).
    destruct (Heap.free_store w) as [|n] eqn:Hn; [lia|].
    fold (erased_ctor p).
    destruct (erased_ctor p (Heap.env w)) as [[c|x] e1] eqn:Hctor.
    + split; [done|]. intros c' e' [= <- <-]. eexists. split; [done|].
      unfold erased_ctor in Hctor. apply erased_ctor_value in Hctor as ->.
      unfold Heap.model_of. simpl. by rewrite !lookup_insert_eq.
    + split; [done|]. intros c' e' Hok. discriminate Hok.
Qed.
End HeapCapacity.

Lemma heap_no_capacity_limit_witness :
  (exists d,
      SBO.compile [Construct Demo.blob_payload; Serialize 0] = IllFormed d) /\
  (exists run,
      Heap.compile [Construct Demo.blob_payload; Serialize 0] = WellFormed run) /\
  (exists f w',
      Heap.exec (Construct Demo.blob_payload) = WellFormed f /\
      f (Heap.empty_world (Demo.start 0) 1) = Some (Declared 0, w') /\
      Heap.model_of w' 0 = Some (model_from Demo.blob_payload)).
Proof.
  assert (Hfits : ~ fits Demo.blob_payload).
  { intros [Hsize _]. exact (Hsize eq_refl). }
  destruct (proj2 (heap_no_capacity_limit (Env:=Demo.Process))
              Demo.blob_payload [] [Serialize 0] Hfits)
    as (Hsbo & Hheap & Hrun).
  split; [exact Hsbo|]. split; [exact Hheap|].
  destruct (Hrun (Heap.empty_world (Demo.start 0) 1) _ eq_refl
              ltac:(simpl; lia)) as [_ Hok].
  destruct (Hok (model_from Demo.blob_payload) (Demo.start 0) eq_refl)
    as (w' & Hw' & Hmodel).
  eexists _, w'. split; [reflexivity|]. split; [exact Hw'|exact Hmodel].
Defined.

Lemma heap_no_leak_witness :
  exists run os w',
    Heap.compile
      [Construct Demo.circle_payload; Construct Demo.square_payload;
       CopyConstruct 0; Assign 0 1; MoveConstruct 1; MoveAssign 2 3;
       Construct Demo.counted_payload;
       Destroy 0; Destroy 1; Destroy 2; Destroy 3] = WellFormed run /\
    run (Heap.empty_world (Demo.start 0) 4) = Some (os, w') /\
    Heap.objects w' = ∅ /\
    Heap.heap w' = ∅ /\
    Heap.free_store w' = 4 /\
    count is_operator_new (Heap.log w') =
      count is_operator_delete (Heap.log w') /\
    count is_construction (Heap.log w') = count is_destruction (Heap.log w').
Proof.
  destruct (heap_compile_well_formed
      [Construct Demo.circle_payload; Construct Demo.square_payload;
       CopyConstruct 0; Assign 0 1; MoveConstruct 1; MoveAssign 2 3;
       Construct Demo.counted_payload;
       Destroy 0; Destroy 1; Destroy 2; Destroy 3]) as [run Hc].
  destruct (run (Heap.empty_world (Demo.start 0) 4)) as [[os w']|] eqn:Hr;
    [|injection Hc as <-; vm_compute in Hr; discriminate].
  assert (Hobj : Heap.objects w' = ∅).
  { pose proof Hr as Hr'. injection Hc as <-. vm_compute in Hr'.
    injection Hr' as _ <-. vm_compute. reflexivity. }
  exists run, os, w'. split; [exact Hc|]. split; [exact Hr|].
  split; [exact Hobj|].
  destruct (heap_no_leak _ _ _ _ _ _ Hc Hr) as (_ & _ & _ & Hend).
  exact (Hend Hobj).
Defined.

(** ** The serialization library *)

Section SerializerFacts.
Context {T : Type} `{!fs.Arithmetic T}.

Lemma string_of_list_byte_app (l k : list Byte.byte) :
  String.string_of_list_byte (l ++ k) =
    String.string_of_list_byte l +:+ String.string_of_list_byte k.
Proof.
  induction l as [|b l IH]; [done|].
  change (String (Ascii.ascii_of_byte b) (String.string_of_list_byte (l ++ k)) =
          String (Ascii.ascii_of_byte b)
            (String.string_of_list_byte l +:+ String.string_of_list_byte k)).
  by rewrite IH.
Qed.

Lemma string_of_list_byte_length (l : list Byte.byte) :
  String.length (String.string_of_list_byte l) = length l.
Proof.
  induction l as [|b l IH]; [done|].
  change (S (String.length (String.string_of_list_byte l)) = S (length l)).
  by rewrite IH.
Qed.

Lemma string_of_list_byte_inj (l k : list Byte.byte) :
  String.string_of_list_byte l = String.string_of_list_byte k -> l = k.
Proof.
  intros Heq. apply (f_equal String.list_byte_of_string) in Heq.
  by rewrite !String.list_byte_of_string_of_list_byte in Heq.
Qed.

Lemma fs_resize_grow (n : nat) (v : list Byte.byte) :
  fs.resize (length v + n) v = v ++ replicate n Byte.x00.
Proof.
  unfold fs.resize. rewrite take_ge by lia. do 2 f_equal. lia.
Qed.

Lemma fs_operator_shl_aligned (serializer : fs.Serializer) (value : T) :
  length (fs.buffer_ serializer) mod fs.alignof T = 0 ->
  fs.operator_shl serializer value =
    Some (fs.mkSerializer (fs.buffer_ serializer ++ fs.object_representation value)).
Proof.
  intros Haligned. unfold fs.operator_shl, fs.placement_new.
  rewrite decide_True by done. simpl.
  rewrite fs_resize_grow, take_app_length, drop_ge, app_nil_r; [done|].
  rewrite length_app, length_replicate. lia.
Qed.

Lemma fs_operator_shl_misaligned (serializer : fs.Serializer) (value : T) :
  length (fs.buffer_ serializer) mod fs.alignof T <> 0 ->
  fs.operator_shl serializer value = None.
Proof.
  intros Hmis. unfold fs.operator_shl, fs.placement_new.
  by rewrite decide_False.
Qed.

(** X11. [serializer << value] appends the [sizeof(T)] bytes of the value
    to the buffer and leaves what was serialized before as it was;
    [to_string()] grows by exactly those bytes.  The value is constructed
    in place at the old end of the buffer: when that offset is not a
    multiple of [alignof(T)] the call is undefined. *)
Theorem serializer_appends :
  forall (serializer : fs.Serializer) (value : T),
    (length (fs.buffer_ serializer) mod fs.alignof T = 0 ->
       exists serializer',
         fs.operator_shl serializer value = Some serializer' /\
         fs.buffer_ serializer' =
           fs.buffer_ serializer ++ fs.object_representation value /\
         length (fs.buffer_ serializer') =
           length (fs.buffer_ serializer) + fs.sizeof T /\
         fs.to_string serializer' =
           fs.to_string serializer +:+
             String.string_of_list_byte (fs.object_representation value)) /\
    (length (fs.buffer_ serializer) mod fs.alignof T <> 0 ->
       fs.operator_shl serializer value = None).
Proof.
  intros serializer value. split.
  - intros Haligned. eexists. split; [by apply fs_operator_shl_aligned|].
    simpl. split; [done|]. split.
    + by rewrite length_app, fs.object_representation_length.
    + unfold fs.to_string. simpl. apply string_of_list_byte_app.
  - apply fs_operator_shl_misaligned.
Qed.
End SerializerFacts.

Section FSSerializerFacts.
Context {size_t double : Type}.
Context `{!fs.Arithmetic size_t, !fs.Arithmetic double}.
Implicit Types (circle : Geometry.Circle double) (square : Geometry.Square double).

(** The bytes [FSSerializer] writes for a type hash and three coordinates. *)
Lemma FSSerializer_bytes (hash_code : size_t) (a b c : double) :
  (s1 ← fs.operator_shl fs.Serializer_ctor hash_code;
   s2 ← fs.operator_shl s1 a;
   s3 ← fs.operator_shl s2 b;
   s4 ← fs.operator_shl s3 c;
   Some (fs.to_string s4)) =
  if decide (fs.sizeof size_t mod fs.alignof double = 0)
  then Some (String.string_of_list_byte
               (fs.object_representation hash_code ++
                fs.object_representation a ++
                fs.object_representation b ++
                fs.object_representation c))
  else None.
Proof.
  rewrite fs_operator_shl_aligned by apply Nat.Div0.mod_0_l. simpl.
  case_decide as Haligned.
  - pose proof (fs.sizeof_aligned (T:=double)) as Hsize.
    assert (Hadd : forall n, n mod fs.alignof double = 0 ->
                     (n + fs.sizeof double) mod fs.alignof double = 0).
    { intros n Hn. rewrite Nat.Div0.add_mod, Hn, Hsize. apply Nat.Div0.mod_0_l. }
    rewrite fs_operator_shl_aligned; simpl;
      [|by rewrite fs.object_representation_length].
    rewrite fs_operator_shl_aligned; simpl.
    2:{ rewrite length_app, !fs.object_representation_length. by apply Hadd. }
    rewrite fs_operator_shl_aligned; simpl.
    2:{ rewrite !length_app, !fs.object_representation_length.
        by apply Hadd, Hadd. }
    unfold fs.to_string. simpl. by rewrite <- !app_assoc.
  - rewrite fs_operator_shl_misaligned; [done|].
    simpl. by rewrite fs.object_representation_length.
Qed.

(** X12. What [FSSerializer] returns for a circle is the bytes of
    [typeid(Circle).hash_code()], of the radius and of the two coordinates
    of the centre, in this order and nothing else, so
    [sizeof(size_t) + 3 * sizeof(double)] characters; likewise for a
    square.  This needs the first [double] to land on an aligned offset:
    where [sizeof(size_t)] is not a multiple of [alignof(double)] both call
    operators are undefined. *)
Theorem FSSerializer_layout (hash_code_Circle hash_code_Square : size_t) :
  (fs.sizeof size_t mod fs.alignof double = 0 ->
     (forall circle,
         FSSerializer_Circle hash_code_Circle circle =
           Some (String.string_of_list_byte
                   (fs.object_representation hash_code_Circle ++
                    fs.object_representation (Geometry.radius_ circle) ++
                    fs.object_representation
                      (Geometry.x (Geometry.circle_center_ circle)) ++
                    fs.object_representation
                      (Geometry.y (Geometry.circle_center_ circle))))) /\
     (forall square,
         FSSerializer_Square hash_code_Square square =
           Some (String.string_of_list_byte
                   (fs.object_representation hash_code_Square ++
                    fs.object_representation (Geometry.side_ square) ++
                    fs.object_representation
                      (Geometry.x (Geometry.square_center_ square)) ++
                    fs.object_representation
                      (Geometry.y (Geometry.square_center_ square))))) /\
     (forall circle s,
         FSSerializer_Circle hash_code_Circle circle = Some s ->
         String.length s = fs.sizeof size_t + 3 * fs.sizeof double) /\
     (forall square s,
         FSSerializer_Square hash_code_Square square = Some s ->
         String.length s = fs.sizeof size_t + 3 * fs.sizeof double)) /\
  (fs.sizeof size_t mod fs.alignof double <> 0 ->
     forall circle square,
       FSSerializer_Circle hash_code_Circle circle = None /\
       FSSerializer_Square hash_code_Square square = None).
Proof.
  unfold FSSerializer_Circle, FSSerializer_Square. split.
  - intros Haligned.
    assert (Hlen : forall (h : size_t) (a b c : double) s,
               Some (String.string_of_list_byte
                       (fs.object_representation h ++
                        fs.object_representation a ++
                        fs.object_representation b ++
                        fs.object_representation c)) = Some s ->
               String.length s = fs.sizeof size_t + 3 * fs.sizeof double).
    { intros h a b c s [= <-]. rewrite string_of_list_byte_length.
      rewrite !length_app, !fs.object_representation_length. lia. }
    split; [|split; [|split]].
    + intros circle. by rewrite FSSerializer_bytes, decide_True.
    + intros square. by rewrite FSSerializer_bytes, decide_True.
    + intros circle s. rewrite FSSerializer_bytes, decide_True by done.
      apply Hlen.
    + intros square s. rewrite FSSerializer_bytes, decide_True by done.
      apply Hlen.
  - intros Hmis circle square. by rewrite !FSSerializer_bytes, !decide_False.
Qed.

Lemma FSSerializer_bytes_inj (h1 h2 : size_t) (a1 b1 c1 a2 b2 c2 : double) :
  (forall u v : double,
      fs.object_representation u = fs.object_representation v -> u = v) ->
  fs.object_representation h1 ++ fs.object_representation a1 ++
    fs.object_representation b1 ++ fs.object_representation c1 =
  fs.object_representation h2 ++ fs.object_representation a2 ++
    fs.object_representation b2 ++ fs.object_representation c2 ->
  fs.object_representation h1 = fs.object_representation h2 /\
  a1 = a2 /\ b1 = b2 /\ c1 = c2.
Proof.
  intros Hinj Heq.
  apply app_inj_1 in Heq as [Hh Heq];
    [|by rewrite !fs.object_representation_length].
  apply app_inj_1 in Heq as [Ha Heq];
    [|by rewrite !fs.object_representation_length].
  apply app_inj_1 in Heq as [Hb Hc];
    [|by rewrite !fs.object_representation_length].
  auto.
Qed.

(** X13. When different [double]s have different bytes, the string
    [FSSerializer] returns determines the shape: two circles with the same
    serialization are equal, and so are two squares.  The kind of shape is
    in the string only as the type's hash code: a circle and a square have
    the same serialization exactly when the two hash codes have the same
    bytes and radius and side, and the centres, are equal. *)
Theorem FSSerializer_injective (hash_code_Circle hash_code_Square : size_t) :
  (forall u v : double,
      fs.object_representation u = fs.object_representation v -> u = v) ->
  (forall circle1 circle2 s,
      FSSerializer_Circle hash_code_Circle circle1 = Some s ->
      FSSerializer_Circle hash_code_Circle circle2 = Some s ->
      circle1 = circle2) /\
  (forall square1 square2 s,
      FSSerializer_Square hash_code_Square square1 = Some s ->
      FSSerializer_Square hash_code_Square square2 = Some s ->
      square1 = square2) /\
  (forall circle square s,
      FSSerializer_Circle hash_code_Circle circle = Some s ->
      (FSSerializer_Square hash_code_Square square = Some s <->
       fs.object_representation hash_code_Circle =
         fs.object_representation hash_code_Square /\
       Geometry.radius_ circle = Geometry.side_ square /\
       Geometry.circle_center_ circle = Geometry.square_center_ square)).
Proof.
  intros Hinj. unfold FSSerializer_Circle, FSSerializer_Square.
  split; [|split].
  - intros [r1 [x1 y1]] [r2 [x2 y2]] s. simpl.
    rewrite !FSSerializer_bytes. case_decide; [|done].
    intros [= <-] [= Heq%string_of_list_byte_inj].
    apply FSSerializer_bytes_inj in Heq as (_ & -> & -> & ->); done.
  - intros [r1 [x1 y1]] [r2 [x2 y2]] s. simpl.
    rewrite !FSSerializer_bytes. case_decide; [|done].
    intros [= <-] [= Heq%string_of_list_byte_inj].
    apply FSSerializer_bytes_inj in Heq as (_ & -> & -> & ->); done.
  - intros [r1 [x1 y1]] [r2 [x2 y2]] s. simpl.
    rewrite !FSSerializer_bytes. case_decide; [|done].
    intros [= <-]. split.
    + intros [= Heq%string_of_list_byte_inj].
      apply FSSerializer_bytes_inj in Heq as (Hh & -> & -> & ->); done.
    + intros (-> & -> & [= -> ->]). done.
Qed.
End FSSerializerFacts.

Lemma serializer_appends_witness :
  (exists serializer',
      @fs.operator_shl ABI.word64 ABI.aligned8
        (fs.mkSerializer (ABI.bytes64 ABI.zero64))
        (ABI.W64 Byte.x01 Byte.x02 Byte.x03 Byte.x04
                 Byte.x05 Byte.x06 Byte.x07 Byte.x08) = Some serializer' /\
      fs.buffer_ serializer' =
        ABI.bytes64 ABI.zero64 ++
        [Byte.x01; Byte.x02; Byte.x03; Byte.x04;
         Byte.x05; Byte.x06; Byte.x07; Byte.x08] /\
      length (fs.buffer_ serializer') = 8 + 8 /\
      fs.to_string serializer' =
        fs.to_string (fs.mkSerializer (ABI.bytes64 ABI.zero64)) +:+
        String.string_of_list_byte
          [Byte.x01; Byte.x02; Byte.x03; Byte.x04;
           Byte.x05; Byte.x06; Byte.x07; Byte.x08]) /\
  @fs.operator_shl ABI.word64 ABI.aligned8
    (fs.mkSerializer (ABI.bytes32 ABI.zero32))
    (ABI.W64 Byte.x01 Byte.x02 Byte.x03 Byte.x04
             Byte.x05 Byte.x06 Byte.x07 Byte.x08) = None.
Proof.
  split.
  - apply (proj1 (@serializer_appends ABI.word64 ABI.aligned8
                    (fs.mkSerializer (ABI.bytes64 ABI.zero64))
                    (ABI.W64 Byte.x01 Byte.x02 Byte.x03 Byte.x04
                             Byte.x05 Byte.x06 Byte.x07 Byte.x08))).
    reflexivity.
  - apply (proj2 (@serializer_appends ABI.word64 ABI.aligned8
                    (fs.mkSerializer (ABI.bytes32 ABI.zero32))
                    (ABI.W64 Byte.x01 Byte.x02 Byte.x03 Byte.x04
                             Byte.x05 Byte.x06 Byte.x07 Byte.x08))).
    vm_compute. discriminate.
Defined.

Lemma FSSerializer_layout_witness :
  @FSSerializer_Circle ABI.word64 ABI.word64 ABI.aligned8 ABI.aligned8
    (ABI.W64 Byte.x43 Byte.x69 Byte.x72 Byte.x63
             Byte.x6c Byte.x65 Byte.x00 Byte.x00)
    (@Geometry.Circle_ctor ABI.word64 ABI.aligned8
       (ABI.W64 Byte.x66 Byte.x66 Byte.x66 Byte.x66
                Byte.x66 Byte.x66 Byte.x02 Byte.x40)) =
    Some (String.string_of_list_byte
            ([Byte.x43; Byte.x69; Byte.x72; Byte.x63;
              Byte.x6c; Byte.x65; Byte.x00; Byte.x00] ++
             [Byte.x66; Byte.x66; Byte.x66; Byte.x66;
              Byte.x66; Byte.x66; Byte.x02; Byte.x40] ++
             replicate 8 Byte.x00 ++ replicate 8 Byte.x00)) /\
  @FSSerializer_Circle ABI.word32 ABI.word64 ABI.arithmetic32 ABI.aligned8
    (ABI.W32 Byte.x43 Byte.x69 Byte.x72 Byte.x63)
    (@Geometry.Circle_ctor ABI.word64 ABI.aligned8
       (ABI.W64 Byte.x66 Byte.x66 Byte.x66 Byte.x66
                Byte.x66 Byte.x66 Byte.x02 Byte.x40)) = None.
Proof.
  split.
  - destruct (proj1 (@FSSerializer_layout ABI.word64 ABI.word64
                       ABI.aligned8 ABI.aligned8
                       (ABI.W64 Byte.x43 Byte.x69 Byte.x72 Byte.x63
                                Byte.x6c Byte.x65 Byte.x00 Byte.x00)
                       ABI.zero64) eq_refl) as (Hcircle & _).
    exact (Hcircle _).
  - destruct (proj2 (@FSSerializer_layout ABI.word32 ABI.word64
                       ABI.arithmetic32 ABI.aligned8
                       (ABI.W32 Byte.x43 Byte.x69 Byte.x72 Byte.x63)
                       ABI.zero32) ltac:(vm_compute; discriminate)
                (@Geometry.Circle_ctor ABI.word64 ABI.aligned8
                   (ABI.W64 Byte.x66 Byte.x66 Byte.x66 Byte.x66
                            Byte.x66 Byte.x66 Byte.x02 Byte.x40))
                (@Geometry.Square_ctor ABI.word64 ABI.aligned8 ABI.zero64))
      as [Hcircle _].
    exact Hcircle.
Defined.

Lemma FSSerializer_injective_witness :
  @FSSerializer_Square ABI.word64 ABI.word64 ABI.aligned8 ABI.aligned8
    ABI.zero64
    (@Geometry.Square_ctor ABI.word64 ABI.aligned8
       (ABI.W64 Byte.x66 Byte.x66 Byte.x66 Byte.x66
                Byte.x66 Byte.x66 Byte.x02 Byte.x40)) =
  @FSSerializer_Circle ABI.word64 ABI.word64 ABI.aligned8 ABI.aligned8
    ABI.zero64
    (@Geometry.Circle_ctor ABI.word64 ABI.aligned8
       (ABI.W64 Byte.x66 Byte.x66 Byte.x66 Byte.x66
                Byte.x66 Byte.x66 Byte.x02 Byte.x40)).
Proof.
  assert (Hinj : forall u v : ABI.word64,
             @fs.object_representation _ ABI.aligned8 u =
             @fs.object_representation _ ABI.aligned8 v -> u = v).
  { intros [] [] [=]. congruence. }
  destruct (@FSSerializer_injective ABI.word64 ABI.word64
              ABI.aligned8 ABI.aligned8 ABI.zero64 ABI.zero64 Hinj)
    as (_ & _ & Hkind).
  destruct (@FSSerializer_Circle ABI.word64 ABI.word64 ABI.aligned8 ABI.aligned8
              ABI.zero64
              (@Geometry.Circle_ctor ABI.word64 ABI.aligned8
                 (ABI.W64 Byte.x66 Byte.x66 Byte.x66 Byte.x66
                          Byte.x66 Byte.x66 Byte.x02 Byte.x40)))
    as [s|] eqn:Hs; [|vm_compute in Hs; discriminate].
  apply (Hkind _ _ _ Hs). repeat split.
Defined.
